(** * Descriptions-to-graph pipeline: extraction and graph upserts

    A shallow embedding of [descriptions_to_graph_generic.py]: the regex
    driven field extraction, the Neo4j [MERGE] statements issued by the
    upsert functions, and the row loop of [main].

    Modelling choices:
    - Text is a [string] of code points below 256.
    - [re.search] is a parameter of the pipeline: a function from pattern,
      text and flags to an optional match object, itself the function
      [m.group], or to the exception the search raises ([re.error] on a
      pattern that does not compile).  That exception and the ones
      [m.group("value")] and the following [strip] can raise are results
      of the extraction.
    - The graph store is the lists of nodes and relationships it holds.
      A node's identity is its position in its list: nodes are only
      appended or updated in place, never removed.  Record nodes (label
      [RECORD_LABEL], keyed by [record_id]) and entity nodes (label
      [Entity] plus one more, keyed by [entity_type] and [canonical_text])
      live in two lists: no merge pattern of one kind can match a node
      of the other, as the key properties differ.
    - A property set to null is absent, as in Cypher.
    - Every call of [write] runs one statement in its own transaction;
      [datetime()] is the store's logical clock at that statement, and the
      clock advances with every statement. *)

From Stdlib Require Import Ascii String Sorted.
From stdpp Require Import prelude strings gmap pretty.

Set Default Proof Using "Type".
Open Scope string_scope.
Open Scope list_scope.
Open Scope nat_scope.

(* ================================================================== *)
(** ** Python string helpers *)

(** [str.isspace] on the code points below 256. *)
Definition is_space (c : ascii) : bool :=
  let n := nat_of_ascii c in
  ((9 <=? n)%nat && (n <=? 13)%nat) || ((28 <=? n)%nat && (n <=? 32)%nat)
  || (n =? 133)%nat || (n =? 160)%nat.

Fixpoint lstrip (p : ascii → bool) (s : string) : string :=
  match s with
  | EmptyString => EmptyString
  | String c s' => if p c then lstrip p s' else s
  end.

Fixpoint rstrip (p : ascii → bool) (s : string) : string :=
  match s with
  | EmptyString => EmptyString
  | String c s' =>
      match rstrip p s' with
      | EmptyString => if p c then EmptyString else String c EmptyString
      | r => String c r
      end
  end.

Definition strip_with (p : ascii → bool) (s : string) : string :=
  rstrip p (lstrip p s).

(** [s.strip()] *)
Definition py_strip (s : string) : string := strip_with is_space s.

Fixpoint char_in (c : ascii) (chars : string) : bool :=
  match chars with
  | EmptyString => false
  | String d chars' => if Ascii.eqb c d then true else char_in c chars'
  end.

(** [s.strip(chars)] *)
Definition py_strip_chars (chars s : string) : string :=
  strip_with (λ c, char_in c chars) s.

(** The argument of the second strip in [extract_fields]: a double quote,
    a comma, a semicolon and a space. *)
Definition QUOTE_SEP : string :=
  String (ascii_of_nat 34) ",; ".

Definition nonempty (s : string) : bool :=
  match s with EmptyString => false | String _ _ => true end.

(** [clean_str]: [None] stays [None]; otherwise the value is stripped and
    an empty result becomes [None]. *)
Definition clean_str (v : option string) : option string :=
  match v with
  | None => None
  | Some v =>
      let s := py_strip v in
      if nonempty s then Some s else None
  end.

(* ================================================================== *)
(** ** Rules document and the regex engine *)

Record RuleSet := {
  RECORD_ID_PREFIX : string;
  SOURCE_NAME : string;
  (** group -> field -> ordered patterns *)
  FIELD_PATTERNS : list (string * list (string * list string));
  (** person field -> relationship type *)
  LOCATION_REL_MAP : list (string * string);
}.

Inductive RegexFlag := IGNORECASE.

(** What [m.group(name)] does on a match object. *)
Inductive GroupLookup :=
| NoSuchGroup              (* raises IndexError *)
| GroupNone                (* the group took no part in the match *)
| GroupText (raw : string).

Definition MatchObject := string → GroupLookup.

(** [ReError] stands for [re.error], which [re.search] raises on a pattern
    that does not compile. *)
Inductive Exn := IndexError | AttributeError | ReError.

Inductive result (A : Type) :=
| Ok (a : A)
| Raise (e : Exn).
Arguments Ok {A} a.
Arguments Raise {A} e.

(** [re.search(pat, text, flags)]: a match object, [None], or an
    exception. *)
Definition RegexEngine := string → string → RegexFlag → result (option MatchObject).

(* ================================================================== *)
(** ** Graph store *)

Definition Time := nat.

Record RecordNode := {
  record_id : string;
  description : string;
  row_index : nat;
  source_file : string;
  rec_created_at : Time;
  rec_updated_at : Time;
}.

(** The label next to [:Entity]. *)
Inductive EntityLabel := Person | Organization | Location.

Global Instance EntityLabel_eq_dec : EqDecision EntityLabel.
Proof. solve_decision. Defined.

(** The [entity_type] property each merge pattern pairs with its label. *)
Definition entity_type (l : EntityLabel) : string :=
  match l with
  | Person => "PERSON"
  | Organization => "ORG"
  | Location => "GPE"
  end.

Record EntityNode := {
  label : EntityLabel;
  canonical_text : string;
  (** the string valued properties other than the two key properties;
      a property set to null is absent *)
  props : gmap string string;
  created_at : Time;
  updated_at : Time;
}.

Inductive NodeRef :=
| RecordRef (i : nat)
| EntityRef (i : nat).

Global Instance NodeRef_eq_dec : EqDecision NodeRef.
Proof. solve_decision. Defined.

Record Edge := {
  src : NodeRef;
  rel_type : string;
  dst : NodeRef;
  source : option string;
  first_seen : option Time;
  last_seen : option Time;
}.

Record Graph := {
  records : list RecordNode;
  entities : list EntityNode;
  edges : list Edge;
  clock : Time;
}.

Definition empty_graph : Graph :=
  {| records := []; entities := []; edges := []; clock := 0 |}.

(** [MERGE] on one list of candidates: when some element matches the
    pattern the [ON MATCH] update is applied to every match, otherwise the
    pattern is created with its [ON CREATE] settings. *)
Definition merge {A} (matches : A → bool) (on_create : A) (on_match : A → A)
    (l : list A) : list A :=
  if existsb matches l
  then (λ x, if matches x then on_match x else x) <$> l
  else l ++ [on_create].

(** Positions of the nodes a [MATCH] clause binds. *)
Fixpoint match_from {A} (p : A → bool) (i : nat) (l : list A) : list nat :=
  match l with
  | [] => []
  | x :: l' => if p x then i :: match_from p (S i) l' else match_from p (S i) l'
  end.

Definition match_ids {A} (p : A → bool) (l : list A) : list nat :=
  match_from p 0 l.

(** [SET n.k = v]: a null value removes the property. *)
Definition set_prop (k : string) (v : option string) (m : gmap string string)
    : gmap string string :=
  match v with
  | Some s => <[k:=s]> m
  | None => delete k m
  end.

Definition coalesce (a b : option string) : option string :=
  match a with
  | Some _ => a
  | None => b
  end.

Definition is_record (rid : string) (r : RecordNode) : bool :=
  bool_decide (record_id r = rid).

Definition is_entity (l : EntityLabel) (name : string) (e : EntityNode) : bool :=
  bool_decide (label e = l ∧ canonical_text e = name).

Definition is_edge (s : NodeRef) (t : string) (d : NodeRef) (e : Edge) : bool :=
  bool_decide (src e = s ∧ rel_type e = t ∧ dst e = d).

Definition touch_record (desc : string) (now : Time) (r : RecordNode) : RecordNode :=
  {| record_id := record_id r; description := desc; row_index := row_index r;
     source_file := source_file r; rec_created_at := rec_created_at r;
     rec_updated_at := now |}.

Definition STRUCTURED_TEXT : string := "structured_text".

(** The properties an entity's [ON CREATE SET] writes. *)
Definition create_props (name : string) (attrs : list string)
    (params : string → option string) : gmap string string :=
  set_prop "source" (Some STRUCTURED_TEXT)
    (foldl (λ pr a, set_prop a (params a) pr) (set_prop "name" (Some name) ∅) attrs).

(** The properties after an entity's [ON MATCH SET]:
    [p.a = coalesce(p.a, $a)] for each listed attribute. *)
Definition coalesce_props (attrs : list string) (params : string → option string)
    (pr : gmap string string) : gmap string string :=
  foldl (λ pr a, set_prop a (coalesce (pr !! a) (params a)) pr) pr attrs.

Definition touch_entity (attrs : list string) (params : string → option string)
    (now : Time) (e : EntityNode) : EntityNode :=
  {| label := label e; canonical_text := canonical_text e;
     props := coalesce_props attrs params (props e);
     created_at := created_at e; updated_at := now |}.

(** The shared shape of the three entity statements:
    [MERGE (n:Entity:<label> {entity_type: .., canonical_text: $name})]. *)
Definition merge_entity (l : EntityLabel) (name : string) (attrs : list string)
    (params : string → option string) (g : Graph) : Graph :=
  let now := clock g in
  {| records := records g;
     entities :=
       merge (is_entity l name)
         {| label := l; canonical_text := name;
            props := create_props name attrs params;
            created_at := now; updated_at := now |}
         (touch_entity attrs params now)
         (entities g);
     edges := edges g;
     clock := S now |}.

Definition touch_edge (now : Time) (e : Edge) : Edge :=
  {| src := src e; rel_type := rel_type e; dst := dst e; source := source e;
     first_seen := first_seen e; last_seen := Some now |}.

(** The relationship [ON CREATE SET r.source, r.first_seen, r.last_seen]
    leaves behind for one bound pair. *)
Definition stamped_edge (now : Time) (t : string) (row : nat * nat) : Edge :=
  {| src := EntityRef row.1; rel_type := t; dst := EntityRef row.2;
     source := Some STRUCTURED_TEXT; first_seen := Some now; last_seen := Some now |}.

(** [MERGE (a)-[r:T]->(b) ON CREATE SET r.source, r.first_seen, r.last_seen
    ON MATCH SET r.last_seen] for one bound pair. *)
Definition merge_stamped_edge (now : Time) (t : string) (es : list Edge)
    (row : nat * nat) : list Edge :=
  merge (is_edge (EntityRef row.1) t (EntityRef row.2))
    (stamped_edge now t row) (touch_edge now) es.

(** The relationship a bare [MERGE (r)-[:DESCRIBES]->(p)] creates. *)
Definition bare_describes (row : nat * nat) : Edge :=
  {| src := RecordRef row.1; rel_type := "DESCRIBES"; dst := EntityRef row.2;
     source := None; first_seen := None; last_seen := None |}.

(** [MERGE (r)-[:DESCRIBES]->(p)] for one bound pair: no properties are
    set on either branch. *)
Definition merge_describes (es : list Edge) (row : nat * nat) : list Edge :=
  merge (is_edge (RecordRef row.1) "DESCRIBES" (EntityRef row.2))
    (bare_describes row) id es.

(** Some row binds the end points of [e], a relationship of type [t]. *)
Definition row_of_stamped (t : string) (rows : list (nat * nat)) (e : Edge) : bool :=
  existsb (λ row, is_edge (EntityRef row.1) t (EntityRef row.2) e) rows.

(** The rows two [MATCH] clauses produce. *)
Definition match_rows (xs ys : list nat) : list (nat * nat) :=
  x ← xs; y ← ys; [(x, y)].

Definition PERSON_ATTRS : list string :=
  [ "dob"; "citizenship"; "place_of_birth"; "phone_number"; "address";
    "passport_number"; "flight_number"; "departure_location";
    "arrival_location"; "arrest_location"; "arrival_date"; "departure_date";
    "date_generic"; "money"; "license_plate"; "drivers_license" ].

Definition ORG_ATTRS : list string := [ "address" ].

(** [raw.strip().strip(QUOTE_SEP)]: the cleaning [extract_fields] applies
    to a captured text. *)
Definition clean_capture (raw : string) : string :=
  py_strip_chars QUOTE_SEP (py_strip raw).

Section Pipeline.

Variable rules : RuleSet.
Variable re_search : RegexEngine.

(** *** Field extraction *)

(** The inner loop of [extract_fields] over one field's patterns. *)
Fixpoint search_patterns (text : string) (patterns : list string)
    : result (option string) :=
  match patterns with
  | [] => Ok None
  | pat :: rest =>
      match re_search pat text IGNORECASE with
      | Raise e => Raise e
      | Ok None => search_patterns text rest
      | Ok (Some m) =>
          match m "value" with
          | NoSuchGroup => Raise IndexError
          | GroupNone => Raise AttributeError
          | GroupText raw =>
              let val := clean_capture raw in
              if nonempty val then Ok (Some val) else search_patterns text rest
          end
      end
  end.

(** The loop over one group's fields. *)
Fixpoint extract_group (text : string) (group_cfg : list (string * list string))
    (group_out : gmap string string) : result (gmap string string) :=
  match group_cfg with
  | [] => Ok group_out
  | (field_name, patterns) :: rest =>
      match search_patterns text patterns with
      | Raise e => Raise e
      | Ok None => extract_group text rest group_out
      | Ok (Some value_found) =>
          extract_group text rest (<[field_name := value_found]> group_out)
      end
  end.

Fixpoint extract_groups (text : string)
    (cfg : list (string * list (string * list string)))
    (res : gmap string (gmap string string))
    : result (gmap string (gmap string string)) :=
  match cfg with
  | [] => Ok res
  | (group_name, group_cfg) :: rest =>
      match extract_group text group_cfg ∅ with
      | Raise e => Raise e
      | Ok group_out => extract_groups text rest (<[group_name := group_out]> res)
      end
  end.

Definition extract_fields (text : string) : result (gmap string (gmap string string)) :=
  extract_groups text (FIELD_PATTERNS rules)
    (<["person" := ∅]> (<["organization" := ∅]> ∅)).

(** *** Graph upserts *)

Definition upsert_record (rid : string) (row : nat) (desc : string) (g : Graph)
    : Graph :=
  let now := clock g in
  {| records :=
       merge (is_record rid)
         {| record_id := rid; description := desc; row_index := row;
            source_file := SOURCE_NAME rules;
            rec_created_at := now; rec_updated_at := now |}
         (touch_record desc now)
         (records g);
     entities := entities g;
     edges := edges g;
     clock := S now |}.

Definition field_param (fields : gmap string string) (a : string) : option string :=
  clean_str (fields !! a).

Definition upsert_person (person_fields : gmap string string) (g : Graph)
    : Graph * option string :=
  match clean_str (person_fields !! "name") with
  | None => (g, None)
  | Some name =>
      (merge_entity Person name PERSON_ATTRS (field_param person_fields) g,
       Some name)
  end.

Definition upsert_organization (org_fields : gmap string string) (g : Graph)
    : Graph * option string :=
  match clean_str (org_fields !! "name") with
  | None => (g, None)
  | Some name =>
      (merge_entity Organization name ORG_ATTRS (field_param org_fields) g,
       Some name)
  end.

Definition upsert_location (name : string) (g : Graph) : Graph :=
  if nonempty name then merge_entity Location name [] (λ _, None) g else g.

Definition connect_record_to_person (rid person_name : string) (g : Graph) : Graph :=
  let rows := match_rows (match_ids (is_record rid) (records g))
                         (match_ids (is_entity Person person_name) (entities g)) in
  {| records := records g;
     entities := entities g;
     edges := foldl merge_describes (edges g) rows;
     clock := S (clock g) |}.

(** One statement matching a person and a target entity and merging a
    stamped relationship of type [t] between them. *)
Definition connect_entities (pname : string) (l : EntityLabel) (oname t : string)
    (g : Graph) : Graph :=
  let rows := match_rows (match_ids (is_entity Person pname) (entities g))
                         (match_ids (is_entity l oname) (entities g)) in
  {| records := records g;
     entities := entities g;
     edges := foldl (merge_stamped_edge (clock g) t) (edges g) rows;
     clock := S (clock g) |}.

Definition connect_person_to_org (person_name org_name : string) (g : Graph) : Graph :=
  connect_entities person_name Organization org_name "ASSOCIATED_WITH_ORG" g.

Definition connect_location (person_name : string) (person_fields : gmap string string)
    (g : Graph) (entry : string * string) : Graph :=
  match clean_str (person_fields !! entry.1) with
  | None => g
  | Some loc_name =>
      connect_entities person_name Location loc_name entry.2
        (upsert_location loc_name g)
  end.

Definition connect_person_to_locations (person_name : string)
    (person_fields : gmap string string) (g : Graph) : Graph :=
  foldl (connect_location person_name person_fields) g (LOCATION_REL_MAP rules).

(** *** Main loop *)

Definition dict_nonempty {V} (m : gmap string V) : bool :=
  negb (bool_decide (m = ∅)).

Definition record_id_of (idx : nat) : string :=
  RECORD_ID_PREFIX rules +:+ pretty (idx + 1).

(** What the loop body does with the extracted fields of one record. *)
Definition bind_fields (rid : string) (person_fields org_fields : gmap string string)
    (g : Graph) : Graph :=
  let '(g1, person_name) :=
    if dict_nonempty person_fields then upsert_person person_fields g else (g, None) in
  let '(g2, org_name) :=
    if dict_nonempty org_fields then upsert_organization org_fields g1 else (g1, None) in
  match person_name with
  | None => g2
  | Some pn =>
      let g3 := connect_record_to_person rid pn g2 in
      let g4 := connect_person_to_locations pn person_fields g3 in
      match org_name with
      | None => g4
      | Some on => connect_person_to_org pn on g4
      end
  end.

(** The loop body for one row: the graph afterwards, and the exception
    that ended the run there, if any. *)
Definition process_row (idx : nat) (cell : string) (g : Graph) : Graph * option Exn :=
  match clean_str (Some cell) with
  | None => (g, None)
  | Some desc =>
      let rid := record_id_of idx in
      let g1 := upsert_record rid (idx + 1) desc g in
      match extract_fields desc with
      | Raise e => (g1, Some e)
      | Ok fields =>
          let person_fields := default ∅ (fields !! "person") in
          let org_fields := default ∅ (fields !! "organization") in
          (bind_fields rid person_fields org_fields g1, None)
      end
  end.

Fixpoint process_rows (df : list (nat * string)) (g : Graph) : Graph * option Exn :=
  match df with
  | [] => (g, None)
  | (idx, cell) :: rest =>
      match process_row idx cell g with
      | (g', None) => process_rows rest g'
      | (g', Some e) => (g', Some e)
      end
  end.

End Pipeline.

(** [load_descriptions]: the sheet's rows numbered from 0, rows with a
    missing description dropped, labels kept. *)
Fixpoint number_rows (i : nat) (sheet : list (option string)) : list (nat * string) :=
  match sheet with
  | [] => []
  | None :: rest => number_rows (S i) rest
  | Some d :: rest => (i, d) :: number_rows (S i) rest
  end.

Definition load_descriptions (sheet : list (option string)) : list (nat * string) :=
  number_rows 0 sheet.

Definition main (rules : RuleSet) (re_search : RegexEngine)
    (sheet : list (option string)) (g : Graph) : Graph * option Exn :=
  process_rows rules re_search (load_descriptions sheet) g.

(* ================================================================== *)
(** ** Vocabulary for the properties of relationships *)

(** The end points of [e] are a node matching the first pattern and a
    node matching the second. *)
Definition binds (p q : EntityNode → bool) (g : Graph) (e : Edge) : Prop :=
  ∃ i j, src e = EntityRef i ∧ dst e = EntityRef j
         ∧ i ∈ match_ids p (entities g) ∧ j ∈ match_ids q (entities g).

(** The create/match policy of a stamped relationship statement of type
    [t] that ran at [now] and took the relationships [es] to [es']: a
    relationship it created carries the provenance tag and both stamps;
    one that was already there keeps everything but [last_seen], which is
    set to [now] exactly when the statement observed it again. *)
Definition stamp_policy (now : Time) (t : string) (observed : Edge → Prop)
    (es es' : list Edge) : Prop :=
  (∀ k e', es' !! k = Some e' → length es ≤ k →
     rel_type e' = t ∧ observed e'
     ∧ source e' = Some STRUCTURED_TEXT
     ∧ first_seen e' = Some now ∧ last_seen e' = Some now)
  ∧ (∀ k e, es !! k = Some e →
       ∃ e', es' !! k = Some e'
         ∧ src e' = src e ∧ rel_type e' = rel_type e ∧ dst e' = dst e
         ∧ source e' = source e ∧ first_seen e' = first_seen e
         ∧ (rel_type e = t ∧ observed e → last_seen e' = Some now)
         ∧ (¬ (rel_type e = t ∧ observed e) → last_seen e' = last_seen e)).

(* ================================================================== *)
(** ** Vocabulary for the properties of extraction *)

(** The loop moves past [pat] without a value: it does not match, or its
    capture is empty once cleaned. *)
Definition passed_over (re_search : RegexEngine) (text pat : string) : Prop :=
  re_search pat text IGNORECASE = Ok None
  ∨ ∃ m raw, re_search pat text IGNORECASE = Ok (Some m)
             ∧ m "value" = GroupText raw ∧ nonempty (clean_capture raw) = false.

(** Every pattern of the rules that matches [text] captures a text in its
    group [value]. *)
Definition matches_carry_value (re_search : RegexEngine) (rules : RuleSet)
    (text : string) : Prop :=
  ∀ g cfg f pats pat m,
    (g, cfg) ∈ FIELD_PATTERNS rules → (f, pats) ∈ cfg → pat ∈ pats →
    re_search pat text IGNORECASE = Ok (Some m) → ∃ raw, m "value" = GroupText raw.

(** No search of a pattern of the rules in [text] raises. *)
Definition searches_return (re_search : RegexEngine) (rules : RuleSet)
    (text : string) : Prop :=
  ∀ g cfg f pats pat,
    (g, cfg) ∈ FIELD_PATTERNS rules → (f, pats) ∈ cfg → pat ∈ pats →
    ∃ r, re_search pat text IGNORECASE = Ok r.

(* ================================================================== *)
(** ** Vocabulary for the properties of the store *)

(** The pair the uniqueness constraint of [ensure_schema] is declared on. *)
Definition entity_key (e : EntityNode) : string * string :=
  (entity_type (label e), canonical_text e).

(** The stores the program's statements can produce from the empty one. *)
Inductive reachable (rules : RuleSet) : Graph → Prop :=
| reach_empty : reachable rules empty_graph
| reach_record rid row desc g :
    reachable rules g → reachable rules (upsert_record rules rid row desc g)
| reach_person fields g :
    reachable rules g → reachable rules (upsert_person fields g).1
| reach_organization fields g :
    reachable rules g → reachable rules (upsert_organization fields g).1
| reach_location name g :
    reachable rules g → reachable rules (upsert_location name g)
| reach_describes rid pname g :
    reachable rules g → reachable rules (connect_record_to_person rid pname g)
| reach_associated pname oname g :
    reachable rules g → reachable rules (connect_person_to_org pname oname g)
| reach_located pname loc t g :
    reachable rules g → reachable rules (connect_entities pname Location loc t g).

(** [g'] is a later state of [g]: every node and relationship of [g] is
    still at its position with its identity, entity properties are only
    added, and the clock has not gone back. *)
Definition extends (g g' : Graph) : Prop :=
  (∀ i r, records g !! i = Some r →
     ∃ r', records g' !! i = Some r' ∧ record_id r' = record_id r)
  ∧ (∀ i e, entities g !! i = Some e →
       ∃ e', entities g' !! i = Some e'
         ∧ label e' = label e ∧ canonical_text e' = canonical_text e
         ∧ props e ⊆ props e')
  ∧ (∀ k e, edges g !! k = Some e →
       ∃ e', edges g' !! k = Some e'
         ∧ src e' = src e ∧ rel_type e' = rel_type e ∧ dst e' = dst e
         ∧ source e' = source e ∧ first_seen e' = first_seen e)
  ∧ clock g ≤ clock g'.

Definition has_record (rid : string) (g : Graph) : Prop :=
  ∃ i r, records g !! i = Some r ∧ record_id r = rid.

Definition has_entity (l : EntityLabel) (name : string) (g : Graph) : Prop :=
  ∃ i e, entities g !! i = Some e ∧ label e = l ∧ canonical_text e = name.

(** The entity node at position [i] has the given label and text. *)
Definition entity_at (g : Graph) (i : nat) (l : EntityLabel) (name : string) : Prop :=
  ∃ e, entities g !! i = Some e ∧ label e = l ∧ canonical_text e = name.

Definition record_at (g : Graph) (i : nat) (rid : string) : Prop :=
  ∃ r, records g !! i = Some r ∧ record_id r = rid.

Definition has_edge (s : NodeRef) (t : string) (d : NodeRef) (g : Graph) : Prop :=
  ∃ k e, edges g !! k = Some e ∧ src e = s ∧ rel_type e = t ∧ dst e = d.

(** The relationship [e] ends at an entity node with label [l]. *)
Definition points_to (l : EntityLabel) (g : Graph) (e : Edge) : Prop :=
  ∃ j n, dst e = EntityRef j ∧ entities g !! j = Some n ∧ label n = l.

(** Number of entity nodes with the given label and canonical text. *)
Definition count_entities (l : EntityLabel) (name : string) (g : Graph) : nat :=
  length (match_ids (is_entity l name) (entities g)).

(** The person identity the loop body resolves for a cell, when it gets
    that far. *)
Definition resolved_person (rules : RuleSet) (re_search : RegexEngine)
    (cell : string) : option string :=
  match clean_str (Some cell) with
  | None => None
  | Some desc =>
      match extract_fields rules re_search desc with
      | Raise _ => None
      | Ok fields => clean_str (default ∅ (fields !! "person") !! "name")
      end
  end.

(* ================================================================== *)
(** ** Vocabulary for the properties of a second run *)

Definition erase_record (r : RecordNode) : RecordNode :=
  {| record_id := record_id r; description := description r;
     row_index := row_index r; source_file := source_file r;
     rec_created_at := rec_created_at r; rec_updated_at := 0 |}.

Definition erase_entity (e : EntityNode) : EntityNode :=
  {| label := label e; canonical_text := canonical_text e; props := props e;
     created_at := created_at e; updated_at := 0 |}.

Definition erase_edge (e : Edge) : Edge :=
  {| src := src e; rel_type := rel_type e; dst := dst e; source := source e;
     first_seen := first_seen e; last_seen := (λ _, 0) <$> last_seen e |}.

(** The store with every [updated_at] and [last_seen] value and the clock
    blanked: two stores with the same image differ in those values only. *)
Definition erase (g : Graph) : Graph :=
  {| records := erase_record <$> records g;
     entities := erase_entity <$> entities g;
     edges := erase_edge <$> edges g;
     clock := 0 |}.

(** The statements [write] is called with. *)
Inductive Stmt :=
| SRecord (rid : string) (row : nat) (desc : string)
| SEntity (l : EntityLabel) (name : string) (attrs : list string)
    (params : string → option string)
| SDescribes (rid pname : string)
| SConnect (pname : string) (l : EntityLabel) (oname t : string).

Definition exec (rules : RuleSet) (g : Graph) (s : Stmt) : Graph :=
  match s with
  | SRecord rid row desc => upsert_record rules rid row desc g
  | SEntity l name attrs params => merge_entity l name attrs params g
  | SDescribes rid pname => connect_record_to_person rid pname g
  | SConnect pname l oname t => connect_entities pname l oname t g
  end.

(** The statements the loop body issues for given fields, in order. *)
Definition entity_stmts (l : EntityLabel) (attrs : list string)
    (fields : gmap string string) : list Stmt :=
  match clean_str (fields !! "name") with
  | None => []
  | Some name => [SEntity l name attrs (field_param fields)]
  end.

Definition location_stmts (pname : string) (fields : gmap string string)
    (entry : string * string) : list Stmt :=
  match clean_str (fields !! entry.1) with
  | None => []
  | Some loc => [SEntity Location loc [] (λ _, None); SConnect pname Location loc entry.2]
  end.

Definition bind_stmts (rules : RuleSet) (rid : string)
    (pfs ofs : gmap string string) : list Stmt :=
  match clean_str (pfs !! "name") with
  | None => entity_stmts Organization ORG_ATTRS ofs
  | Some pn =>
      SEntity Person pn PERSON_ATTRS (field_param pfs)
      :: entity_stmts Organization ORG_ATTRS ofs
      ++ SDescribes rid pn
      :: (LOCATION_REL_MAP rules ≫= location_stmts pn pfs)
      ++ match clean_str (ofs !! "name") with
         | None => []
         | Some onm => [SConnect pn Organization onm "ASSOCIATED_WITH_ORG"]
         end
  end.

Definition row_stmts (rules : RuleSet) (re_search : RegexEngine)
    (idx : nat) (cell : string) : list Stmt * option Exn :=
  match clean_str (Some cell) with
  | None => ([], None)
  | Some desc =>
      let rid := record_id_of rules idx in
      match extract_fields rules re_search desc with
      | Raise e => ([SRecord rid (idx + 1) desc], Some e)
      | Ok fields =>
          (SRecord rid (idx + 1) desc
             :: bind_stmts rules rid (default ∅ (fields !! "person"))
                  (default ∅ (fields !! "organization")),
           None)
      end
  end.

Fixpoint rows_stmts (rules : RuleSet) (re_search : RegexEngine)
    (df : list (nat * string)) : list Stmt * option Exn :=
  match df with
  | [] => ([], None)
  | (idx, cell) :: rest =>
      match row_stmts rules re_search idx cell with
      | (ss, None) =>
          let '(ss', e) := rows_stmts rules re_search rest in (ss ++ ss', e)
      | (ss, Some e) => (ss, Some e)
      end
  end.

Definition is_record_stmt (s : Stmt) : bool :=
  match s with SRecord _ _ _ => true | _ => false end.

(** What a statement needs in the store to find its nodes. *)
Definition ready (s : Stmt) (g : Graph) : Prop :=
  match s with
  | SRecord _ _ _ | SEntity _ _ _ _ => True
  | SDescribes rid pn => has_record rid g ∧ has_entity Person pn g
  | SConnect pn l onm _ => has_entity Person pn g ∧ has_entity l onm g
  end.

(** The store already holds everything the statement would write, stamps
    apart. *)
Definition absorbed (s : Stmt) (g : Graph) : Prop :=
  match s with
  | SRecord rid _ desc =>
      has_record rid g
      ∧ ∀ r, r ∈ records g → record_id r = rid → description r = desc
  | SEntity l name attrs params =>
      has_entity l name g
      ∧ ∀ e, e ∈ entities g → label e = l → canonical_text e = name →
             ∀ a, a ∈ attrs → is_Some (params a) → is_Some (props e !! a)
  | SDescribes rid pn =>
      has_record rid g ∧ has_entity Person pn g
      ∧ ∀ ir ip, record_at g ir rid → entity_at g ip Person pn →
                 has_edge (RecordRef ir) "DESCRIBES" (EntityRef ip) g
  | SConnect pn l onm t =>
      has_entity Person pn g ∧ has_entity l onm g
      ∧ ∀ ip io, entity_at g ip Person pn → entity_at g io l onm →
                 has_edge (EntityRef ip) t (EntityRef io) g
  end.

(** Two statements never write different descriptions to one record. *)
Definition compatible (s s' : Stmt) : Prop :=
  match s, s' with
  | SRecord rid _ desc, SRecord rid' _ desc' => rid = rid' → desc = desc'
  | _, _ => True
  end.

(** The nodes a statement needs were upserted by the statements [seen]. *)
Definition requires (seen : list Stmt) (s : Stmt) : Prop :=
  match s with
  | SRecord _ _ _ | SEntity _ _ _ _ => True
  | SDescribes rid pn =>
      (∃ row desc, SRecord rid row desc ∈ seen)
      ∧ (∃ attrs params, SEntity Person pn attrs params ∈ seen)
  | SConnect pn l onm _ =>
      (∃ attrs params, SEntity Person pn attrs params ∈ seen)
      ∧ (∃ attrs params, SEntity l onm attrs params ∈ seen)
  end.

Fixpoint ordered (seen : list Stmt) (ss : list Stmt) : Prop :=
  match ss with
  | [] => True
  | s :: ss' => requires seen s ∧ ordered (s :: seen) ss'
  end.

(** Relationships between entities always carry a [last_seen]. *)
Definition stamped_edges (g : Graph) : Prop :=
  ∀ e i, e ∈ edges g → src e = EntityRef i → is_Some (last_seen e).

(* ================================================================== *)
(** ** A small regex engine for concrete runs

    [re.search] restricted to three pattern shapes, with [LIT] a literal made
    of letters, digits, spaces, colons and underscores:
    - [LIT] followed by the named group [value] over one or more characters
      other than a semicolon: the leftmost place where [LIT], compared
      without regard to case, is followed by such a character; the group
      captures from there up to the next semicolon or the end of the text;
    - [LIT] alone: the leftmost occurrence, with no group named [value];
    - [LIT] followed by an opening parenthesis that is never closed: the
      pattern does not compile and the search raises [re.error].
    Other patterns are outside the fragment and never match here. *)

Definition lower (c : ascii) : ascii :=
  let n := nat_of_ascii c in
  if ((65 <=? n)%nat && (n <=? 90)%nat) then ascii_of_nat (n + 32) else c.

Definition is_literal_char (c : ascii) : bool :=
  let n := nat_of_ascii (lower c) in
  ((97 <=? n)%nat && (n <=? 122)%nat) || ((48 <=? n)%nat && (n <=? 58)%nat)
  || (n =? 32)%nat || (n =? 95)%nat.

Fixpoint all_literal (s : string) : bool :=
  match s with
  | EmptyString => true
  | String c s' => is_literal_char c && all_literal s'
  end.

(** When [text] starts with [lit] up to case: the rest of [text]. *)
Fixpoint after_prefix (lit text : string) : option string :=
  match lit, text with
  | EmptyString, _ => Some text
  | String _ _, EmptyString => None
  | String a lit', String b text' =>
      if Ascii.eqb (lower a) (lower b) then after_prefix lit' text' else None
  end.

Fixpoint upto_semicolon (s : string) : string :=
  match s with
  | EmptyString => EmptyString
  | String c s' => if Ascii.eqb c ";" then EmptyString else String c (upto_semicolon s')
  end.

(** Leftmost occurrence of [lit] whose continuation satisfies [ok]. *)
Fixpoint find_after (ok : string → bool) (lit text : string) : option string :=
  let here :=
    match after_prefix lit text with
    | Some rest => if ok rest then Some rest else None
    | None => None
    end in
  match here with
  | Some rest => Some rest
  | None =>
      match text with
      | EmptyString => None
      | String _ text' => find_after ok lit text'
      end
  end.

Definition VALUE_GROUP : string := "(?P<value>[^;]+)".

(** The [LIT] of a pattern ending in [VALUE_GROUP]. *)
Fixpoint literal_of (pat : string) : option string :=
  if String.eqb pat VALUE_GROUP then Some EmptyString
  else match pat with
       | EmptyString => None
       | String c pat' => String c <$> literal_of pat'
       end.

Definition UNCLOSED_GROUP : string := "(".

(** The [LIT] of a pattern ending in [UNCLOSED_GROUP]. *)
Fixpoint unclosed_literal_of (pat : string) : option string :=
  if String.eqb pat UNCLOSED_GROUP then Some EmptyString
  else match pat with
       | EmptyString => None
       | String c pat' => String c <$> unclosed_literal_of pat'
       end.

Definition mini_search : RegexEngine := λ pat text _,
  if all_literal pat then
    match find_after (λ _, true) pat text with
    | Some _ => Ok (Some (λ _, NoSuchGroup))
    | None => Ok None
    end
  else
    match literal_of pat with
    | Some lit =>
        if all_literal lit then
          match find_after (λ rest, nonempty (upto_semicolon rest)) lit text with
          | Some rest =>
              Ok (Some (λ name, if String.eqb name "value"
                                then GroupText (upto_semicolon rest) else NoSuchGroup))
          | None => Ok None
          end
        else Ok None
    | None =>
        match unclosed_literal_of pat with
        | Some lit => if all_literal lit then Raise ReError else Ok None
        | None => Ok None
        end
    end.

(* ================================================================== *)
(** ** Example rule sets and sheets *)

Definition demo_rules : RuleSet :=
  {| RECORD_ID_PREFIX := "DESC_";
     SOURCE_NAME := "descriptions_only.xlsx";
     FIELD_PATTERNS :=
       [ ("person",
           [ ("name", ["NAME:(?P<value>[^;]+)"]);
             ("dob", ["DOB:(?P<value>[^;]+)"]);
             ("citizenship", ["Citizenship:(?P<value>[^;]+)"]);
             ("departure_location", ["Departure:(?P<value>[^;]+)"]) ]);
         ("organization",
           [ ("name", ["ORG:(?P<value>[^;]+)"]);
             ("address", ["ORG ADDRESS:(?P<value>[^;]+)"]) ]) ];
     LOCATION_REL_MAP := [ ("departure_location", "DEPARTED_FROM") ] |}.

Definition jane_sheet : list (option string) :=
  [ Some "NAME: Jane Roe; Citizenship: USA; Departure: JFK" ].

(** The graph after the one-row sheet. *)
Definition jane_graph : Graph :=
  (main demo_rules mini_search jane_sheet empty_graph).1.

(** The person node of [jane_graph]. *)
Definition jane_node : EntityNode :=
  {| label := Person; canonical_text := "Jane Roe";
     props := list_to_map [ ("name", "Jane Roe"); ("citizenship", "USA");
                            ("departure_location", "JFK");
                            ("source", "structured_text") ];
     created_at := 1; updated_at := 1 |}.

(** Fields of a later record naming the same person with another
    citizenship and a date of birth. *)
Definition jane_again : gmap string string :=
  list_to_map [ ("name", " Jane Roe "); ("citizenship", "Canada");
                ("dob", "1980-01-01") ].

(** The store once the record and the person of the one-row sheet are
    upserted, before any relationship statement. *)
Definition jane_nodes : Graph :=
  (upsert_person (list_to_map [ ("name", "Jane Roe"); ("citizenship", "USA") ])
     (upsert_record demo_rules "DESC_1" 1
        "NAME: Jane Roe; Citizenship: USA; Departure: JFK" empty_graph)).1.

(** Two patterns for the person's name; on the text below the first one
    matches with a blank capture. *)
Definition alias_rules : RuleSet :=
  {| RECORD_ID_PREFIX := "DESC_";
     SOURCE_NAME := "descriptions_only.xlsx";
     FIELD_PATTERNS :=
       [ ("person", [ ("name", [ "NAME:(?P<value>[^;]+)"; "ALIAS:(?P<value>[^;]+)" ]) ]) ];
     LOCATION_REL_MAP := [] |}.

(** Both patterns capture a name on this text. *)
Definition both_names_text : string := "NAME: Ann; ALIAS: Bob".

(** A pattern for the person's name without the group [value]. *)
Definition ungrouped_rules : RuleSet :=
  {| RECORD_ID_PREFIX := "DESC_";
     SOURCE_NAME := "descriptions_only.xlsx";
     FIELD_PATTERNS := [ ("person", [ ("name", [ "NAME:" ]) ]) ];
     LOCATION_REL_MAP := [] |}.

(** The date of birth has a pattern that does not compile; it stands
    after the person's name. *)
Definition unclosed_rules : RuleSet :=
  {| RECORD_ID_PREFIX := "DESC_";
     SOURCE_NAME := "descriptions_only.xlsx";
     FIELD_PATTERNS :=
       [ ("person", [ ("name", [ "NAME:(?P<value>[^;]+)" ]); ("dob", [ "DOB:(" ]) ]) ];
     LOCATION_REL_MAP := [] |}.

(** Two rows naming the same person. *)
Definition john_sheet : list (option string) :=
  [ Some "NAME: John Doe; DOB: 1980-01-01";
    None;
    Some "Name:  John Doe ; Citizenship: USA" ].





(* ================================================================== *)
(** ** Vocabulary for the properties of strings *)

Fixpoint all_chars (p : ascii → bool) (s : string) : bool :=
  match s with
  | EmptyString => true
  | String c s' => p c && all_chars p s'
  end.

(** The first character of [s] satisfies [p]. *)
Definition starts_with (p : ascii → bool) (s : string) : bool :=
  match s with
  | EmptyString => false
  | String c _ => p c
  end.

(** The last character of [s] satisfies [p]. *)
Fixpoint ends_with (p : ascii → bool) (s : string) : bool :=
  match s with
  | EmptyString => false
  | String c s' =>
      match s' with
      | EmptyString => p c
      | String _ _ => ends_with p s'
      end
  end.

(* ================================================================== *)
(** ** A pattern shape with an optional group

    [re.search] on one more shape: [LIT] followed by the named group
    [value] made optional.  The leftmost occurrence of [LIT] matches; the
    group captures the characters up to the next semicolon when there is
    at least one, and otherwise takes no part in the match.  Patterns of
    other shapes are handed to [mini_search]. *)

Definition OPTIONAL_VALUE_GROUP : string := "(?P<value>[^;]+)?".

Fixpoint optional_literal_of (pat : string) : option string :=
  if String.eqb pat OPTIONAL_VALUE_GROUP then Some EmptyString
  else match pat with
       | EmptyString => None
       | String c pat' => String c <$> optional_literal_of pat'
       end.

Definition optional_search : RegexEngine := λ pat text flags,
  match optional_literal_of pat with
  | Some lit =>
      if all_literal lit then
        match find_after (λ _, true) lit text with
        | Some rest =>
            let cap := upto_semicolon rest in
            Ok (Some (λ name,
                        if String.eqb name "value"
                        then (if nonempty cap then GroupText cap else GroupNone)
                        else NoSuchGroup))
        | None => Ok None
        end
      else Ok None
  | None => mini_search pat text flags
  end.

(** The person's name with an optional value group. *)
Definition optional_rules : RuleSet :=
  {| RECORD_ID_PREFIX := "DESC_";
     SOURCE_NAME := "descriptions_only.xlsx";
     FIELD_PATTERNS := [ ("person", [ ("name", [ "NAME:(?P<value>[^;]+)?" ]) ]) ];
     LOCATION_REL_MAP := [] |}.

(* ================================================================== *)
(** ** Loading the sheet from a file *)

(** The exceptions of loading, by class: the two [load_descriptions]
    raises itself, and [OtherError what] for any other class that can come
    out of [pd.read_excel]. *)
Inductive LoadExn :=
| FileNotFoundError
| ValueError
| OtherError (what : string).

(** What [pd.read_excel] finds in the file: the columns by name, each with
    its cells from the first data row on; a cell left empty is [None]. *)
Definition Workbook := list (string * list (option string)).

Fixpoint column (name : string) (wb : Workbook) : option (list (option string)) :=
  match wb with
  | [] => None
  | (c, cells) :: wb' => if String.eqb c name then Some cells else column name wb'
  end.

(** What is at the path: nothing, a file [pd.read_excel] fails on with
    the given exception (which can be a [ValueError] of its own), or a
    file it reads as a workbook. *)
Inductive ExcelFile :=
| Missing
| Unreadable (e : LoadExn)
| Readable (wb : Workbook).

(** [load_descriptions] with its two checks and the call of
    [pd.read_excel] between them, whose exceptions it does not handle. *)
Definition load_descriptions_file (file : ExcelFile)
    : LoadExn + list (nat * string) :=
  match file with
  | Missing => inl FileNotFoundError
  | Unreadable e => inl e
  | Readable wb =>
      match column "description" wb with
      | None => inl ValueError
      | Some cells => inr (load_descriptions cells)
      end
  end.

(** The rows the loop does not skip, with their cleaned descriptions. *)
Definition described_rows (df : list (nat * string)) : list (nat * string) :=
  omap (λ row, (λ desc, (row.1, desc)) <$> clean_str (Some row.2)) df.

(** The fields of a Record node the record upsert writes once. *)
Definition record_fields (r : RecordNode) : string * nat * string * string :=
  (record_id r, row_index r, description r, source_file r).

(* ================================================================== *)
(** ** Vocabulary for the invariants of the store *)

(** What a relationship [MERGE] matches on. *)
Definition edge_key (e : Edge) : NodeRef * string * NodeRef :=
  (src e, rel_type e, dst e).


(** Everything of [g] that no statement of the program rewrites is still
    in [g'] at its place: nodes and relationships keep their positions;
    a record keeps its identifier, row index, source file and creation
    instant; an entity keeps its label, canonical text and creation
    instant and every property it has, with its value; a relationship
    keeps its ends, type, provenance and first-seen instant. *)
Definition kept_by (g g' : Graph) : Prop :=
  (∀ i r, records g !! i = Some r →
     ∃ r', records g' !! i = Some r'
       ∧ record_id r' = record_id r ∧ row_index r' = row_index r
       ∧ source_file r' = source_file r
       ∧ rec_created_at r' = rec_created_at r)
  ∧ (∀ i e, entities g !! i = Some e →
       ∃ e', entities g' !! i = Some e'
         ∧ label e' = label e ∧ canonical_text e' = canonical_text e
         ∧ created_at e' = created_at e
         ∧ props e ⊆ props e')
  ∧ (∀ k e, edges g !! k = Some e →
       ∃ e', edges g' !! k = Some e'
         ∧ src e' = src e ∧ rel_type e' = rel_type e ∧ dst e' = dst e
         ∧ source e' = source e ∧ first_seen e' = first_seen e).

(** What every entity node holds about its own identity: its [name]
    property is its canonical text, its provenance tag is set, the
    canonical text is not empty and, for a Person or an Organization, has
    no whitespace at either end. *)
Definition entity_identified (e : EntityNode) : Prop :=
  props e !! "name" = Some (canonical_text e)
  ∧ props e !! "source" = Some STRUCTURED_TEXT
  ∧ nonempty (canonical_text e) = true
  ∧ (label e ≠ Location →
     starts_with is_space (canonical_text e) = false
     ∧ ends_with is_space (canonical_text e) = false).

(* ================================================================== *)
(** ** Vocabulary for the values a run gives a person *)

(** The cleaned value of attribute [a] the row offers to the person named
    [name]: one value when the row resolves that name, none otherwise. *)
Definition offered_value (rules : RuleSet) (re_search : RegexEngine)
    (name a : string) (row : nat * string) : list (option string) :=
  match clean_str (Some row.2) with
  | None => []
  | Some desc =>
      match extract_fields rules re_search desc with
      | Raise _ => []
      | Ok fields =>
          let pfs : gmap string string := default ∅ (fields !! "person") in
          if decide (clean_str (pfs !! "name") = Some name)
          then [clean_str (pfs !! a)] else []
      end
  end.

(** The first value of a list of optional values that is there. *)
Definition first_value (vs : list (option string)) : option string :=
  foldl coalesce None vs.

(** The values the entity statements of a sequence offer for attribute
    [a] of the node with the given label and name. *)
Definition stmt_values (l : EntityLabel) (name a : string) (s : Stmt)
    : list (option string) :=
  match s with
  | SEntity l' name' _ params =>
      if decide (l' = l ∧ name' = name) then [params a] else []
  | _ => []
  end.

(** Every statement on the given label lists attribute [a]. *)
Definition lists_attr (l : EntityLabel) (a : string) (s : Stmt) : Prop :=
  match s with
  | SEntity l' _ attrs _ => l' = l → a ∈ attrs
  | _ => True
  end.

(** All nodes with the given identity hold [v] for [a], and [v] is
    [None] as long as there is no such node. *)
Definition holds_value (l : EntityLabel) (name a : string)
    (g : Graph) (v : option string) : Prop :=
  (∀ e, e ∈ entities g → label e = l → canonical_text e = name → props e !! a = v)
  ∧ (¬ has_entity l name g → v = None).



(** Three rows naming the same person, with two dates of birth and two
    citizenships among them. *)
Definition offers_sheet : list (option string) :=
  [ Some "NAME: John Doe; Citizenship: USA";
    Some "NAME: John Doe; DOB: 1980-01-01; Citizenship: CAN";
    Some "NAME: John Doe; DOB: 1990-02-02" ].

(** The person node after the three rows. *)
Definition offers_node : EntityNode :=
  {| label := Person; canonical_text := "John Doe";
     props := list_to_map [ ("name", "John Doe"); ("citizenship", "USA");
                            ("dob", "1980-01-01");
                            ("source", "structured_text") ];
     created_at := 1; updated_at := 7 |}.

(* ================================================================== *)
(** ** Properties of the helpers *)

Lemma set_prop_lookup k v (m : gmap string string) a :
  set_prop k v m !! a = if decide (k = a) then v else m !! a.
Proof.
  destruct v as [s|]; simpl.
  - rewrite lookup_insert. by case_decide.
  - rewrite lookup_delete. by case_decide.
Qed.

Lemma coalesce_twice u v : coalesce (coalesce u v) v = coalesce u v.
Proof. by destruct u, v. Qed.

Lemma coalesce_props_cons x attrs params pr :
  coalesce_props (x :: attrs) params pr
  = coalesce_props attrs params (set_prop x (coalesce (pr !! x) (params x)) pr).
Proof. reflexivity. Qed.

Lemma coalesce_props_lookup attrs params (pr : gmap string string) a :
  coalesce_props attrs params pr !! a
  = if decide (a ∈ attrs) then coalesce (pr !! a) (params a) else pr !! a.
Proof.
  revert pr. induction attrs as [|x attrs IH]; intros pr.
  - by rewrite decide_False by apply not_elem_of_nil.
  - rewrite coalesce_props_cons, IH, set_prop_lookup.
    destruct (decide (x = a)) as [->|Hne].
    + rewrite coalesce_twice.
      rewrite (decide_True (P := a ∈ a :: attrs)) by apply list_elem_of_here.
      by case_decide.
    + destruct (decide (a ∈ attrs)) as [Hin|Hnin].
      * by rewrite decide_True by (by apply list_elem_of_further).
      * rewrite decide_False; [done|].
        intros [?|?]%elem_of_cons; congruence.
Qed.

(** *** [merge] *)

Section Merge.
Context {A : Type}.
Implicit Types (m : A → bool) (c : A) (f : A → A) (l : list A).

Lemma existsb_false_all m l x : existsb m l = false → x ∈ l → m x = false.
Proof.
  induction l as [|y l IH]; simpl; intros Hex Hin.
  - by apply elem_of_nil in Hin.
  - apply orb_false_iff in Hex as [Hy Hl].
    apply elem_of_cons in Hin as [->|Hin]; auto.
Qed.

Lemma existsb_true_some m l : existsb m l = true → ∃ x, x ∈ l ∧ m x = true.
Proof.
  induction l as [|y l IH]; simpl; [done|].
  intros [Hy|Hl]%orb_true_iff.
  - exists y. split; [left|done].
  - destruct (IH Hl) as (x & Hin & Hx). exists x. split; [by right|done].
Qed.

Lemma existsb_of_elem m l x : x ∈ l → m x = true → existsb m l = true.
Proof.
  intros Hin Hx. destruct (existsb m l) eqn:Hex; [done|].
  by rewrite (existsb_false_all _ _ _ Hex Hin) in Hx.
Qed.

Lemma merge_matched m c f l :
  existsb m l = true → merge m c f l = (λ x, if m x then f x else x) <$> l.
Proof. intros H. unfold merge. by rewrite H. Qed.

Lemma merge_created m c f l :
  existsb m l = false → merge m c f l = l ++ [c].
Proof. intros H. unfold merge. by rewrite H. Qed.

Lemma merge_lookup m c f l i x :
  l !! i = Some x → merge m c f l !! i = Some (if m x then f x else x).
Proof.
  intros Hi. unfold merge. destruct (existsb m l) eqn:Hex.
  - by rewrite list_lookup_fmap, Hi.
  - rewrite lookup_app_l by (by eapply lookup_lt_Some).
    rewrite Hi. f_equal.
    by rewrite (existsb_false_all m l x Hex) by (by eapply list_elem_of_lookup_2).
Qed.

Lemma merge_lookup_inv m c f l i y :
  merge m c f l !! i = Some y →
  (∃ x, l !! i = Some x ∧ y = if m x then f x else x)
  ∨ (existsb m l = false ∧ i = length l ∧ y = c).
Proof.
  unfold merge. destruct (existsb m l) eqn:Hex.
  - rewrite list_lookup_fmap. destruct (l !! i) as [x|] eqn:Hi; simpl; [|done].
    intros [= <-]. left. by exists x.
  - intros Hy. destruct (decide (i < length l)) as [Hlt|Hge].
    + rewrite lookup_app_l in Hy by done. left. exists y. split; [done|].
      by rewrite (existsb_false_all m l y Hex) by (by eapply list_elem_of_lookup_2).
    + rewrite lookup_app_r in Hy by lia. right.
      destruct (i - length l) as [|k] eqn:Hk; simpl in Hy; [|done].
      split; [done|]. split; [lia|congruence].
Qed.

Lemma merge_length m c f l :
  length (merge m c f l) = if existsb m l then length l else S (length l).
Proof.
  unfold merge. destruct (existsb m l).
  - by rewrite length_fmap.
  - rewrite length_app. simpl. lia.
Qed.

Lemma merge_length_le m c f l : length l ≤ length (merge m c f l).
Proof. rewrite merge_length. destruct (existsb m l); lia. Qed.

End Merge.

(** *** [match_ids] *)

Lemma elem_of_match_from {A} (p : A → bool) i (l : list A) j :
  j ∈ match_from p i l ↔ i ≤ j ∧ ∃ x, l !! (j - i) = Some x ∧ p x = true.
Proof.
  revert i. induction l as [|y l IH]; intros i; simpl.
  - split; [by intros ?%elem_of_nil|]. by intros (_ & x & ? & _).
  - assert (Hstep : j ∈ match_from p (S i) l ↔
                    S i ≤ j ∧ ∃ x, (y :: l) !! (j - i) = Some x ∧ p x = true).
    { rewrite IH. split.
      - intros (Hle & x & Hx & Hp). split; [done|]. exists x. split; [|done].
        replace (j - i) with (S (j - S i)) by lia. done.
      - intros (Hle & x & Hx & Hp). split; [done|]. exists x. split; [|done].
        replace (j - i) with (S (j - S i)) in Hx by lia. done. }
    destruct (p y) eqn:Hy.
    + rewrite elem_of_cons, Hstep. split.
      * intros [->|(Hle & x & Hx & Hp)].
        -- split; [done|]. exists y. by rewrite Nat.sub_diag.
        -- split; [lia|]. by exists x.
      * intros (Hle & x & Hx & Hp).
        destruct (decide (j = i)) as [->|Hne]; [by left|].
        right. split; [lia|]. by exists x.
    + rewrite Hstep. split.
      * intros (Hle & x & Hx & Hp). split; [lia|]. by exists x.
      * intros (Hle & x & Hx & Hp).
        destruct (decide (j = i)) as [->|Hne].
        -- rewrite Nat.sub_diag in Hx. simpl in Hx. congruence.
        -- split; [lia|]. by exists x.
Qed.

Lemma elem_of_match_ids {A} (p : A → bool) (l : list A) j :
  j ∈ match_ids p l ↔ ∃ x, l !! j = Some x ∧ p x = true.
Proof.
  unfold match_ids. rewrite elem_of_match_from, Nat.sub_0_r.
  split; [by intros [_ ?]|]. intros ?. split; [lia|done].
Qed.

Lemma elem_of_match_rows xs ys x y :
  (x, y) ∈ match_rows xs ys ↔ x ∈ xs ∧ y ∈ ys.
Proof.
  unfold match_rows. rewrite list_elem_of_bind. split.
  - intros (x' & Hin & Hx). apply list_elem_of_bind in Hin as (y' & Hin & Hy).
    apply list_elem_of_singleton in Hin. by simplify_eq.
  - intros [Hx Hy]. exists x. split; [|done].
    apply list_elem_of_bind. exists y. split; [|done]. by apply list_elem_of_singleton.
Qed.

(** *** Relationship merges over the matched rows *)

Lemma is_edge_touch s t d now e : is_edge s t d (touch_edge now e) = is_edge s t d e.
Proof. reflexivity. Qed.

Lemma touch_edge_twice now e : touch_edge now (touch_edge now e) = touch_edge now e.
Proof. reflexivity. Qed.

Lemma touch_stamped_edge now t row :
  touch_edge now (stamped_edge now t row) = stamped_edge now t row.
Proof. reflexivity. Qed.

Lemma foldl_stamped_old now t rows : ∀ es k e,
  es !! k = Some e →
  foldl (merge_stamped_edge now t) es rows !! k
  = Some (if row_of_stamped t rows e then touch_edge now e else e).
Proof.
  induction rows as [|row rows IH]; intros es k e Hk; simpl; [done|].
  erewrite IH; last first.
  { unfold merge_stamped_edge. by apply merge_lookup. }
  f_equal. unfold row_of_stamped.
  destruct (is_edge (EntityRef row.1) t (EntityRef row.2) e) eqn:Hrow; simpl.
  - replace (existsb _ rows) with
      (existsb (λ row0, is_edge (EntityRef row0.1) t (EntityRef row0.2) e) rows)
      by reflexivity.
    by destruct (existsb _ rows).
  - done.
Qed.

Lemma foldl_stamped_length now t rows : ∀ es,
  length es ≤ length (foldl (merge_stamped_edge now t) es rows).
Proof.
  induction rows as [|row rows IH]; intros es; simpl; [done|].
  etrans; [|apply IH]. apply merge_length_le.
Qed.

Lemma foldl_stamped_new now t rows : ∀ es k e',
  foldl (merge_stamped_edge now t) es rows !! k = Some e' →
  length es ≤ k →
  ∃ row, row ∈ rows ∧ e' = stamped_edge now t row.
Proof.
  induction rows as [|row rows IH]; intros es k e' Hk Hle; simpl in Hk.
  - apply lookup_lt_Some in Hk. lia.
  - set (es1 := merge_stamped_edge now t es row) in *.
    destruct (decide (length es1 ≤ k)) as [Hge|Hlt].
    + destruct (IH es1 k e' Hk Hge) as (r & Hin & ->).
      exists r. split; [by right|done].
    + destruct (lookup_lt_is_Some_2 es1 k) as [e1 He1]; [lia|].
      rewrite (foldl_stamped_old _ _ _ _ _ _ He1) in Hk.
      unfold es1, merge_stamped_edge in He1.
      apply merge_lookup_inv in He1 as [(x & Hx & _)|(_ & _ & ->)].
      { apply lookup_lt_Some in Hx. lia. }
      exists row. split; [left|].
      destruct (row_of_stamped t rows (stamped_edge now t row));
        rewrite ?touch_stamped_edge in Hk; congruence.
Qed.

Lemma foldl_describes_old rows : ∀ es k e,
  es !! k = Some e → foldl merge_describes es rows !! k = Some e.
Proof.
  induction rows as [|row rows IH]; intros es k e Hk; simpl; [done|].
  apply IH. unfold merge_describes.
  erewrite merge_lookup by done. by destruct (is_edge _ _ _ e).
Qed.

Lemma foldl_describes_length rows : ∀ es,
  length es ≤ length (foldl merge_describes es rows).
Proof.
  induction rows as [|row rows IH]; intros es; simpl; [done|].
  etrans; [|apply IH]. apply merge_length_le.
Qed.

Lemma foldl_describes_new rows : ∀ es k e',
  foldl merge_describes es rows !! k = Some e' →
  length es ≤ k →
  ∃ row, row ∈ rows ∧ e' = bare_describes row.
Proof.
  induction rows as [|row rows IH]; intros es k e' Hk Hle; simpl in Hk.
  - apply lookup_lt_Some in Hk. lia.
  - set (es1 := merge_describes es row) in *.
    destruct (decide (length es1 ≤ k)) as [Hge|Hlt].
    + destruct (IH es1 k e' Hk Hge) as (r & Hin & ->).
      exists r. split; [by right|done].
    + destruct (lookup_lt_is_Some_2 es1 k) as [e1 He1]; [lia|].
      rewrite (foldl_describes_old _ _ _ _ He1) in Hk.
      unfold es1, merge_describes in He1.
      apply merge_lookup_inv in He1 as [(x & Hx & _)|(_ & _ & ->)].
      { apply lookup_lt_Some in Hx. lia. }
      exists row. split; [left|congruence].
Qed.

(* ================================================================== *)
(** ** Record upsert *)

Lemma upsert_record_frame rules rid row desc g :
  entities (upsert_record rules rid row desc g) = entities g
  ∧ edges (upsert_record rules rid row desc g) = edges g
  ∧ clock (upsert_record rules rid row desc g) = S (clock g).
Proof. done. Qed.

Lemma upsert_record_on_create rules rid row desc g :
  (∀ r, r ∈ records g → record_id r ≠ rid) →
  records (upsert_record rules rid row desc g)
  = records g ++ [ {| record_id := rid; description := desc; row_index := row;
                      source_file := SOURCE_NAME rules;
                      rec_created_at := clock g; rec_updated_at := clock g |} ].
Proof.
  intros Hno. unfold upsert_record; simpl. apply merge_created.
  destruct (existsb (is_record rid) (records g)) eqn:Hex; [|done].
  apply existsb_true_some in Hex as (r & Hin & Hr).
  apply bool_decide_eq_true in Hr. by destruct (Hno r Hin).
Qed.

(** C7: when [upsert_record] matches an existing record by [record_id],
    the description and [updated_at] are overwritten with the incoming
    text and the statement's instant, while [record_id], [row_index],
    [source_file] and [created_at] keep their stored values; no record is
    added and the other records are left as they were. *)
Theorem upsert_record_on_match rules rid row desc g i r :
  records g !! i = Some r →
  record_id r = rid →
  let g' := upsert_record rules rid row desc g in
  length (records g') = length (records g)
  ∧ (∃ r', records g' !! i = Some r'
       ∧ description r' = desc
       ∧ rec_updated_at r' = clock g
       ∧ record_id r' = record_id r
       ∧ row_index r' = row_index r
       ∧ source_file r' = source_file r
       ∧ rec_created_at r' = rec_created_at r)
  ∧ (∀ j r0, records g !! j = Some r0 → record_id r0 ≠ rid →
       records g' !! j = Some r0).
Proof.
  intros Hi Hid g'. unfold g', upsert_record; simpl.
  assert (Hm : is_record rid r = true) by (by apply bool_decide_eq_true).
  assert (Hex : existsb (is_record rid) (records g) = true).
  { eapply existsb_of_elem; [by eapply list_elem_of_lookup_2|done]. }
  split; [|split].
  - by rewrite merge_length, Hex.
  - exists (touch_record desc (clock g) r). split; [|done].
    erewrite merge_lookup by done. by rewrite Hm.
  - intros j r0 Hj Hne. erewrite merge_lookup by done.
    unfold is_record. by rewrite bool_decide_eq_false_2.
Qed.

Lemma upsert_record_on_match_witness :
  let g' := upsert_record demo_rules "DESC_1" 9 "NAME: J. Roe" jane_graph in
  length (records g') = 1
  ∧ ∃ r', records g' !! 0 = Some r'
      ∧ description r' = "NAME: J. Roe" ∧ rec_updated_at r' = 5
      ∧ row_index r' = 1 ∧ source_file r' = "descriptions_only.xlsx"
      ∧ rec_created_at r' = 0.
Proof.
  destruct (upsert_record_on_match demo_rules "DESC_1" 9 "NAME: J. Roe" jane_graph 0
              {| record_id := "DESC_1";
                 description := "NAME: Jane Roe; Citizenship: USA; Departure: JFK";
                 row_index := 1; source_file := "descriptions_only.xlsx";
                 rec_created_at := 0; rec_updated_at := 0 |})
    as (Hlen & (r' & Hr' & Hd & Hu & _ & Hrow & Hsrc & Hc) & _).
  - vm_compute. reflexivity.
  - reflexivity.
  - split; [exact Hlen|]. exists r'. repeat split; assumption.
Defined.

(* ================================================================== *)
(** ** Entity upserts *)

Lemma merge_entity_frame l name attrs params g :
  records (merge_entity l name attrs params g) = records g
  ∧ edges (merge_entity l name attrs params g) = edges g
  ∧ clock (merge_entity l name attrs params g) = S (clock g).
Proof. done. Qed.

Lemma merge_entity_on_match l name attrs params g i e :
  entities g !! i = Some e →
  label e = l → canonical_text e = name →
  entities (merge_entity l name attrs params g) !! i
  = Some (touch_entity attrs params (clock g) e)
  ∧ length (entities (merge_entity l name attrs params g)) = length (entities g).
Proof.
  intros Hi Hl Hn. unfold merge_entity; simpl.
  assert (Hm : is_entity l name e = true) by (by apply bool_decide_eq_true).
  split.
  - erewrite merge_lookup by done. by rewrite Hm.
  - rewrite merge_length.
    by erewrite existsb_of_elem; [|by eapply list_elem_of_lookup_2|done].
Qed.

Lemma coalesce_keeps attrs params (pr : gmap string string) a v :
  pr !! a = Some v → coalesce_props attrs params pr !! a = Some v.
Proof.
  intros Ha. rewrite coalesce_props_lookup, Ha. by case_decide.
Qed.

Lemma coalesce_writes_unset attrs params (pr : gmap string string) a :
  coalesce_props attrs params pr !! a ≠ pr !! a →
  pr !! a = None ∧ a ∈ attrs ∧ coalesce_props attrs params pr !! a = params a.
Proof.
  rewrite coalesce_props_lookup. case_decide; [|done].
  destruct (pr !! a) eqn:Ha; simpl; [done|]. by intros _.
Qed.

Lemma merge_entity_updated_before l name attrs params g :
  (∀ e, e ∈ entities g → updated_at e < clock g) →
  ∀ e, e ∈ entities (merge_entity l name attrs params g) →
       updated_at e < clock (merge_entity l name attrs params g).
Proof.
  intros Hinv e He. apply list_elem_of_lookup in He as [i Hi]. simpl in *.
  apply merge_lookup_inv in Hi as [(x & Hx & ->)|(_ & _ & ->)]; [|simpl; lia].
  destruct (is_entity l name x); simpl; [lia|].
  apply list_elem_of_lookup_2 in Hx. apply Hinv in Hx. lia.
Qed.

(** In a reachable store every entity was last updated before the
    store's current instant. *)
Lemma reachable_updated_before_clock rules g :
  reachable rules g → ∀ e, e ∈ entities g → updated_at e < clock g.
Proof.
  induction 1 as [|rid row desc g _ IH|fields g _ IH|fields g _ IH|name g _ IH
                  |rid pn g _ IH|pn onm g _ IH|pn loc t g _ IH].
  - intros e He. by apply elem_of_nil in He.
  - intros e He. simpl in *. apply IH in He. lia.
  - unfold upsert_person. destruct (clean_str _); [|done].
    by apply merge_entity_updated_before.
  - unfold upsert_organization. destruct (clean_str _); [|done].
    by apply merge_entity_updated_before.
  - unfold upsert_location. destruct (nonempty _); [|done].
    by apply merge_entity_updated_before.
  - intros e He. simpl in *. apply IH in He. lia.
  - intros e He. simpl in *. apply IH in He. lia.
  - intros e He. simpl in *. apply IH in He. lia.
Qed.

(** C2: when a Person or Organization upsert matches an existing node by
    identity, every property the node already holds keeps its stored
    value whatever the incoming fields carry; a property changes only
    when it was unset, it is one of the statement's attributes and it
    then receives the incoming cleaned value; [updated_at] becomes the
    instant of the statement, which in a reachable store is later than
    the stored one, and the store's clock moves past it. *)
Theorem coalesce_on_match fields g i e name :
  clean_str (fields !! "name") = Some name →
  entities g !! i = Some e →
  canonical_text e = name →
  label e = Person ∨ label e = Organization →
  let g' := if decide (label e = Person)
            then (upsert_person fields g).1
            else (upsert_organization fields g).1 in
  let attrs := if decide (label e = Person) then PERSON_ATTRS else ORG_ATTRS in
  ∃ e', entities g' !! i = Some e'
    ∧ label e' = label e ∧ canonical_text e' = canonical_text e
    ∧ created_at e' = created_at e
    ∧ (∀ a v, props e !! a = Some v → props e' !! a = Some v)
    ∧ (∀ a, props e' !! a ≠ props e !! a →
         props e !! a = None ∧ a ∈ attrs
         ∧ props e' !! a = clean_str (fields !! a))
    ∧ updated_at e' = clock g
    ∧ (∀ rules, reachable rules g → updated_at e < updated_at e')
    ∧ clock g < clock g'
    ∧ length (entities g') = length (entities g).
Proof.
  intros Hname Hi Hn Hl g' attrs.
  assert (Hg' : g' = merge_entity (label e) name attrs (field_param fields) g).
  { unfold g', attrs, upsert_person, upsert_organization. rewrite Hname.
    destruct Hl as [Hl|Hl]; rewrite Hl; by case_decide. }
  destruct (merge_entity_on_match (label e) name attrs (field_param fields) g i e)
    as [He' Hlen]; [done..|].
  exists (touch_entity attrs (field_param fields) (clock g) e).
  rewrite Hg'. split; [done|]. do 3 (split; [done|]).
  split; [|split; [|split; [done|split; [|split; [simpl; lia|done]]]]].
  - intros a v. apply coalesce_keeps.
  - intros a. apply coalesce_writes_unset.
  - intros rules Hr. simpl.
    apply (reachable_updated_before_clock rules g Hr).
    by eapply list_elem_of_lookup_2.
Qed.

Lemma coalesce_on_match_witness :
  ∃ e', entities (upsert_person jane_again jane_graph).1 !! 0 = Some e'
    ∧ props e' !! "citizenship" = Some "USA"
    ∧ updated_at e' = 5.
Proof.
  destruct (coalesce_on_match jane_again jane_graph 0 jane_node "Jane Roe")
    as (e' & He' & _ & _ & _ & Hkeep & _ & Hupd & _ & _).
  - vm_compute. reflexivity.
  - vm_compute. reflexivity.
  - reflexivity.
  - left. reflexivity.
  - exists e'. split; [exact He'|]. split; [|exact Hupd].
    apply Hkeep. vm_compute. reflexivity.
Defined.

(* ================================================================== *)
(** ** Relationship upserts *)

Lemma row_of_stamped_spec t rows e :
  row_of_stamped t rows e = true
  ↔ rel_type e = t ∧ ∃ i j, (i, j) ∈ rows ∧ src e = EntityRef i ∧ dst e = EntityRef j.
Proof.
  unfold row_of_stamped. split.
  - intros ([i j] & Hin & Hrow)%existsb_true_some.
    apply bool_decide_eq_true in Hrow as (Hs & Ht & Hd). simpl in *.
    split; [done|]. by exists i, j.
  - intros (Ht & i & j & Hin & Hs & Hd).
    apply (existsb_of_elem _ _ (i, j)); [done|].
    by apply bool_decide_eq_true.
Qed.

Lemma connect_entities_frame pname l oname t g :
  records (connect_entities pname l oname t g) = records g
  ∧ entities (connect_entities pname l oname t g) = entities g
  ∧ clock (connect_entities pname l oname t g) = S (clock g).
Proof. done. Qed.

Lemma connect_entities_policy pname l oname t g :
  stamp_policy (clock g) t
    (binds (is_entity Person pname) (is_entity l oname) g)
    (edges g) (edges (connect_entities pname l oname t g)).
Proof.
  unfold connect_entities; simpl.
  set (rows := match_rows _ _).
  assert (Hobs : ∀ e, row_of_stamped t rows e = true
            ↔ rel_type e = t ∧ binds (is_entity Person pname) (is_entity l oname) g e).
  { intros e. rewrite row_of_stamped_spec. unfold binds, rows. split.
    - intros (Ht & i & j & Hin & Hs & Hd). split; [done|].
      apply elem_of_match_rows in Hin as [??]. by exists i, j.
    - intros (Ht & i & j & Hs & Hd & Hi & Hj). split; [done|].
      exists i, j. by rewrite elem_of_match_rows. }
  split.
  - intros k e' Hk Hle.
    destruct (foldl_stamped_new _ _ _ _ _ _ Hk Hle) as ([i j] & Hin & ->).
    assert (Hrow : row_of_stamped t rows (stamped_edge (clock g) t (i, j)) = true).
    { apply row_of_stamped_spec. split; [done|]. by exists i, j. }
    apply Hobs in Hrow as [_ Hb]. done.
  - intros k e Hk.
    rewrite (foldl_stamped_old _ _ _ _ _ _ Hk).
    destruct (row_of_stamped t rows e) eqn:Hrow.
    + exists (touch_edge (clock g) e). do 6 (split; [done|]). split; [done|].
      intros Hn. destruct Hn. by apply Hobs.
    + exists e. do 6 (split; [done|]). split; [|done].
      intros Ho%Hobs. congruence.
Qed.

Lemma connect_record_to_person_frame rid pname g :
  records (connect_record_to_person rid pname g) = records g
  ∧ entities (connect_record_to_person rid pname g) = entities g
  ∧ clock (connect_record_to_person rid pname g) = S (clock g).
Proof. done. Qed.

Lemma connect_record_to_person_old rid pname g k e :
  edges g !! k = Some e → edges (connect_record_to_person rid pname g) !! k = Some e.
Proof. apply foldl_describes_old. Qed.

Lemma connect_record_to_person_new rid pname g k e' :
  edges (connect_record_to_person rid pname g) !! k = Some e' →
  length (edges g) ≤ k →
  ∃ i j, e' = bare_describes (i, j)
    ∧ i ∈ match_ids (is_record rid) (records g)
    ∧ j ∈ match_ids (is_entity Person pname) (entities g).
Proof.
  intros Hk Hle.
  destruct (foldl_describes_new _ _ _ _ Hk Hle) as ([i j] & Hin & ->).
  apply elem_of_match_rows in Hin as [??]. by exists i, j.
Qed.

Lemma upsert_location_nonempty name g :
  nonempty name = true →
  upsert_location name g = merge_entity Location name [] (λ _, None) g.
Proof. intros H. unfold upsert_location. by rewrite H. Qed.

Lemma clean_str_nonempty v s : clean_str v = Some s → nonempty s = true.
Proof.
  destruct v as [v|]; simpl; [|done].
  destruct (nonempty (py_strip v)) eqn:Hne; [|done]. by intros [= <-].
Qed.

(** C5 (as the code has it): the Person→Organization statement and every
    Person→Location statement follow the create/match stamp policy: a
    created relationship gets [source], [first_seen] and [last_seen], a
    re-observed one only has [last_seen] set to the statement's instant,
    and all others are untouched.  The Record→Person statement is a bare
    merge: the relationship it creates carries no property, and the ones
    already present are left exactly as they were. *)
Theorem edge_stamp_policy :
  (∀ person_name org_name g,
      stamp_policy (clock g) "ASSOCIATED_WITH_ORG"
        (binds (is_entity Person person_name) (is_entity Organization org_name) g)
        (edges g) (edges (connect_person_to_org person_name org_name g)))
  ∧ (∀ person_name person_fields field_key rel loc_name g,
      clean_str (person_fields !! field_key) = Some loc_name →
      let g1 := upsert_location loc_name g in
      stamp_policy (clock g1) rel
        (binds (is_entity Person person_name) (is_entity Location loc_name) g1)
        (edges g)
        (edges (connect_location person_name person_fields g (field_key, rel))))
  ∧ (∀ rid person_name g,
      let g' := connect_record_to_person rid person_name g in
      (∀ k e, edges g !! k = Some e → edges g' !! k = Some e)
      ∧ (∀ k e', edges g' !! k = Some e' → length (edges g) ≤ k →
           rel_type e' = "DESCRIBES"
           ∧ source e' = None ∧ first_seen e' = None ∧ last_seen e' = None)).
Proof.
  split; [|split].
  - intros. apply connect_entities_policy.
  - intros pn pf fk rel loc g Hloc g1. unfold connect_location; simpl.
    rewrite Hloc. fold g1.
    replace (edges g) with (edges g1); [apply connect_entities_policy|].
    unfold g1, upsert_location. by destruct (nonempty loc).
  - intros rid pn g g'. split.
    + intros k e. apply connect_record_to_person_old.
    + intros k e' Hk Hle.
      by destruct (connect_record_to_person_new _ _ _ _ _ Hk Hle) as (i & j & -> & _).
Qed.

Lemma edge_stamp_policy_witness :
  let fields : gmap string string :=
    list_to_map [ ("name", "Jane Roe"); ("departure_location", "JFK") ] in
  let g1 := upsert_location "JFK" jane_nodes in
  stamp_policy (clock g1) "DEPARTED_FROM"
    (binds (is_entity Person "Jane Roe") (is_entity Location "JFK") g1)
    (edges jane_nodes)
    (edges (connect_location "Jane Roe" fields jane_nodes
              ("departure_location", "DEPARTED_FROM"))).
Proof.
  destruct edge_stamp_policy as (_ & Hloc & _).
  apply (Hloc "Jane Roe"
           (list_to_map [ ("name", "Jane Roe"); ("departure_location", "JFK") ])
           "departure_location" "DEPARTED_FROM" "JFK" jane_nodes).
  vm_compute. reflexivity.
Defined.

(** The Record→Person relationship created for the one-row sheet carries
    no [source], [first_seen] or [last_seen], and observing it again does
    not give it a [last_seen]. *)
Lemma describes_edge_not_stamped :
  let g := jane_nodes in
  let g' := connect_record_to_person "DESC_1" "Jane Roe" g in
  let g'' := connect_record_to_person "DESC_1" "Jane Roe" g' in
  ¬ (∀ k e', edges g' !! k = Some e' → length (edges g) ≤ k →
       source e' = Some STRUCTURED_TEXT
       ∧ first_seen e' = Some (clock g) ∧ last_seen e' = Some (clock g))
  ∧ ¬ (∀ k e', edges g'' !! k = Some e' → last_seen e' = Some (clock g')).
Proof.
  split.
  - intros H. specialize (H 0 (bare_describes (0, 0)) eq_refl (le_n 0)).
    destruct H as [H _]. discriminate H.
  - intros H. specialize (H 0 (bare_describes (0, 0)) eq_refl). discriminate H.
Qed.

(* ================================================================== *)
(** ** Field extraction *)

Section Extraction.
Variable re_search : RegexEngine.
Variable text : string.

Lemma search_patterns_passed_over pre rest :
  Forall (passed_over re_search text) pre →
  search_patterns re_search text (pre ++ rest) = search_patterns re_search text rest.
Proof.
  induction 1 as [|pat pre Hpat _ IH]; simpl; [done|].
  destruct Hpat as [->|(m & raw & -> & -> & Hblank)]; [done|].
  fold (clean_capture raw). by rewrite Hblank.
Qed.

Lemma search_patterns_no_raise pats :
  (∀ pat, pat ∈ pats → ∃ r, re_search pat text IGNORECASE = Ok r) →
  (∀ pat m, pat ∈ pats → re_search pat text IGNORECASE = Ok (Some m) →
            ∃ raw, m "value" = GroupText raw) →
  ∃ v, search_patterns re_search text pats = Ok v.
Proof.
  induction pats as [|pat pats IH]; intros Hret Hall; simpl; [by eexists|].
  destruct IH as [v Hv].
  { intros p Hin. apply Hret. by right. }
  { intros p m Hin. apply Hall. by right. }
  destruct (Hret pat) as [r Hr]; [left|]. rewrite Hr.
  destruct r as [m|]; [|by eexists].
  destruct (Hall pat m) as [raw ->]; [left|done|].
  destruct (nonempty _); by eexists.
Qed.

(** The fields of one group: a field's value is what its pattern loop
    found, and a field whose loop found nothing keeps its entry of the
    accumulator. *)
Lemma extract_group_lookup cfg : ∀ acc out,
  extract_group re_search text cfg acc = Ok out →
  NoDup cfg.*1 →
  (∀ f pats, (f, pats) ∈ cfg →
     ∃ v, search_patterns re_search text pats = Ok v
          ∧ out !! f = match v with Some x => Some x | None => acc !! f end)
  ∧ (∀ f, f ∉ cfg.*1 → out !! f = acc !! f).
Proof.
  induction cfg as [|[f0 pats0] cfg IH]; intros acc out Hout Hnd; simpl in *.
  - injection Hout as <-. split; [|done]. by intros f pats ?%elem_of_nil.
  - apply NoDup_cons in Hnd as [Hf0 Hnd].
    destruct (search_patterns re_search text pats0) as [v0|e] eqn:Hs0; [|done].
    set (acc1 := match v0 with Some x => <[f0:=x]> acc | None => acc end).
    assert (Hout1 : extract_group re_search text cfg acc1 = Ok out).
    { unfold acc1. by destruct v0. }
    destruct (IH acc1 out Hout1 Hnd) as [Hin Hnot].
    assert (Hacc1 : ∀ f, f ≠ f0 → acc1 !! f = acc !! f).
    { intros f Hne. unfold acc1. destruct v0; [|done]. by rewrite lookup_insert_ne. }
    split.
    + intros f pats [Heq|Hmem]%elem_of_cons.
      * injection Heq as -> ->. exists v0. split; [done|].
        rewrite (Hnot f0 Hf0). unfold acc1. destruct v0; [|done].
        by rewrite lookup_insert_eq.
      * destruct (Hin f pats Hmem) as (v & Hv & Hlook). exists v. split; [done|].
        rewrite Hlook. destruct v; [done|]. apply Hacc1. intros ->.
        apply Hf0. apply list_elem_of_fmap. by exists (f0, pats).
    + intros f Hnotin. apply not_elem_of_cons in Hnotin as [Hne Hnotin].
      rewrite (Hnot f Hnotin). by apply Hacc1.
Qed.

Lemma extract_groups_lookup cfg : ∀ res fields,
  extract_groups re_search text cfg res = Ok fields →
  NoDup cfg.*1 →
  (∀ g gcfg, (g, gcfg) ∈ cfg →
     ∃ out, extract_group re_search text gcfg ∅ = Ok out ∧ fields !! g = Some out)
  ∧ (∀ g, g ∉ cfg.*1 → fields !! g = res !! g).
Proof.
  induction cfg as [|[g0 gcfg0] cfg IH]; intros res fields Hout Hnd; simpl in *.
  - injection Hout as <-. split; [|done]. by intros g gcfg ?%elem_of_nil.
  - apply NoDup_cons in Hnd as [Hg0 Hnd].
    destruct (extract_group re_search text gcfg0 ∅) as [out0|e] eqn:Hg; [|done].
    destruct (IH _ _ Hout Hnd) as [Hin Hnot]. split.
    + intros g gcfg [Heq|Hmem]%elem_of_cons.
      * injection Heq as -> ->. exists out0. split; [done|].
        by rewrite (Hnot g0 Hg0), lookup_insert_eq.
      * by apply Hin.
    + intros g Hnotin. apply not_elem_of_cons in Hnotin as [Hne Hnotin].
      by rewrite (Hnot g Hnotin), lookup_insert_ne.
Qed.

Lemma extract_group_no_raise cfg : ∀ acc,
  (∀ f pats, (f, pats) ∈ cfg → ∃ v, search_patterns re_search text pats = Ok v) →
  ∃ out, extract_group re_search text cfg acc = Ok out.
Proof.
  induction cfg as [|[f0 pats0] cfg IH]; intros acc Hall; simpl; [by eexists|].
  destruct (Hall f0 pats0) as [v0 ->]; [left|].
  destruct v0; apply IH; intros f pats Hin; apply (Hall f pats); by right.
Qed.

Lemma extract_groups_no_raise cfg : ∀ res,
  (∀ g gcfg, (g, gcfg) ∈ cfg → ∃ out, extract_group re_search text gcfg ∅ = Ok out) →
  ∃ fields, extract_groups re_search text cfg res = Ok fields.
Proof.
  induction cfg as [|[g0 gcfg0] cfg IH]; intros res Hall; simpl; [by eexists|].
  destruct (Hall g0 gcfg0) as [out0 ->]; [left|].
  apply IH. intros g gcfg Hin. apply (Hall g gcfg). by right.
Qed.

(** An exception raised by a field's loop leaves [extract_group] at once
    when the fields before it went through. *)
Lemma extract_group_raise pre f pats post e : ∀ acc,
  Forall (λ fp, ∃ v, search_patterns re_search text fp.2 = Ok v) pre →
  search_patterns re_search text pats = Raise e →
  extract_group re_search text (pre ++ (f, pats) :: post) acc = Raise e.
Proof.
  intros acc Hpre Hraise. revert acc.
  induction Hpre as [|[f0 pats0] pre [v0 Hv0] _ IH]; intros acc; simpl in *.
  - by rewrite Hraise.
  - rewrite Hv0. destruct v0; apply IH.
Qed.

Lemma extract_groups_raise pre g gcfg post e : ∀ res,
  Forall (λ gc, ∃ out, extract_group re_search text gc.2 ∅ = Ok out) pre →
  extract_group re_search text gcfg ∅ = Raise e →
  extract_groups re_search text (pre ++ (g, gcfg) :: post) res = Raise e.
Proof.
  intros res Hpre Hraise. revert res.
  induction Hpre as [|[g0 gcfg0] pre [out0 Hout0] _ IH]; intros res; simpl in *.
  - by rewrite Hraise.
  - rewrite Hout0. apply IH.
Qed.

End Extraction.



(** C10: a pattern that the loop reaches, that matches the text and that
    has no group named [value] makes [extract_fields] raise [IndexError]
    instead of leaving the field absent; extraction is sure to return a
    result when no search raises and every matching pattern captures a
    text in its group [value]; and the rules with the ungrouped name
    pattern raise on a text naming a person. *)
Theorem missing_value_group_raises :
  (∀ re_search rules text gpre g fpre f pre pat post fpost gpost m,
      FIELD_PATTERNS rules
      = gpre ++ (g, fpre ++ (f, pre ++ pat :: post) :: fpost) :: gpost →
      Forall (λ gc, ∃ out, extract_group re_search text gc.2 ∅ = Ok out) gpre →
      Forall (λ fp, ∃ v, search_patterns re_search text fp.2 = Ok v) fpre →
      Forall (passed_over re_search text) pre →
      re_search pat text IGNORECASE = Ok (Some m) →
      m "value" = NoSuchGroup →
      extract_fields rules re_search text = Raise IndexError)
  ∧ (∀ re_search rules text,
      searches_return re_search rules text →
      matches_carry_value re_search rules text →
      ∃ fields, extract_fields rules re_search text = Ok fields)
  ∧ extract_fields ungrouped_rules mini_search "NAME: Bob" = Raise IndexError.
Proof.
  split; [|split].
  - intros re rules text gpre g fpre f pre pat post fpost gpost m
           Hcfg Hgpre Hfpre Hpre Hm Hgroup.
    unfold extract_fields. rewrite Hcfg.
    apply extract_groups_raise; [done|].
    apply extract_group_raise; [done|].
    rewrite search_patterns_passed_over by done. simpl. by rewrite Hm, Hgroup.
  - intros re rules text Hret Hall. unfold extract_fields.
    apply extract_groups_no_raise. intros g gcfg Hg.
    apply extract_group_no_raise. intros f pats Hf.
    apply search_patterns_no_raise.
    + intros pat Hpat. by eapply Hret.
    + intros pat m Hpat Hm. by eapply Hall.
  - vm_compute. reflexivity.
Qed.

Lemma missing_value_group_raises_witness :
  extract_fields ungrouped_rules mini_search "NAME: Bob; DOB: 1980-01-01"
  = Raise IndexError
  ∧ ∃ fields, extract_fields demo_rules mini_search
                "NAME: Jane Roe; Citizenship: USA; Departure: JFK" = Ok fields.
Proof.
  destruct missing_value_group_raises as (Hraise & Hreturn & _). split.
  - apply (Hraise mini_search ungrouped_rules "NAME: Bob; DOB: 1980-01-01"
             [] "person" [] "name" [] "NAME:" [] [] [] (λ _, NoSuchGroup)).
    + reflexivity.
    + constructor.
    + constructor.
    + constructor.
    + vm_compute. reflexivity.
    + reflexivity.
  - apply (Hreturn mini_search demo_rules
             "NAME: Jane Roe; Citizenship: USA; Departure: JFK").
    + intros g cfg f pats pat Hg Hf Hpat.
      destruct (mini_search pat "NAME: Jane Roe; Citizenship: USA; Departure: JFK"
                  IGNORECASE) as [r|e] eqn:Hs; [by exists r|].
      exfalso. revert Hs. clear - Hg Hf Hpat.
      repeat (apply elem_of_cons in Hg as [Hg|Hg]; [injection Hg as -> ->|]);
        try (by apply elem_of_nil in Hg);
        repeat (apply elem_of_cons in Hf as [Hf|Hf]; [injection Hf as -> ->|]);
        try (by apply elem_of_nil in Hf);
        repeat (apply elem_of_cons in Hpat as [->|Hpat]);
        try (by apply elem_of_nil in Hpat); vm_compute; discriminate.
    + intros g cfg f pats pat m Hg Hf Hpat Hm.
      repeat (apply elem_of_cons in Hg as [Hg|Hg]; [injection Hg as -> ->|]);
        try (by apply elem_of_nil in Hg);
        repeat (apply elem_of_cons in Hf as [Hf|Hf]; [injection Hf as -> ->|]);
        try (by apply elem_of_nil in Hf);
        repeat (apply elem_of_cons in Hpat as [->|Hpat]);
        try (by apply elem_of_nil in Hpat);
        vm_compute in Hm; try discriminate Hm;
        injection Hm as <-; eexists; reflexivity.
Defined.

(* ================================================================== *)
(** ** How the store evolves *)

Lemma extends_refl g : extends g g.
Proof.
  repeat split; try done.
  - intros i r Hi. by exists r.
  - intros i e Hi. by exists e.
  - intros k e Hk. by exists e.
Qed.

Lemma extends_trans g1 g2 g3 : extends g1 g2 → extends g2 g3 → extends g1 g3.
Proof.
  intros (Hr1 & He1 & Hd1 & Hc1) (Hr2 & He2 & Hd2 & Hc2). repeat split.
  - intros i r Hi. destruct (Hr1 i r Hi) as (r' & Hi' & Hid).
    destruct (Hr2 i r' Hi') as (r'' & Hi'' & Hid'). exists r''. split; [done|congruence].
  - intros i e Hi. destruct (He1 i e Hi) as (e' & Hi' & Hl & Hn & Hp).
    destruct (He2 i e' Hi') as (e'' & Hi'' & Hl' & Hn' & Hp').
    exists e''. repeat split; [done|congruence|congruence|by etrans].
  - intros k e Hk. destruct (Hd1 k e Hk) as (e' & Hk' & Hs & Ht & Hd & Hso & Hfs).
    destruct (Hd2 k e' Hk') as (e'' & Hk'' & Hs' & Ht' & Hd' & Hso' & Hfs').
    exists e''. repeat split; [done|congruence..].
  - lia.
Qed.

Lemma coalesce_props_subseteq attrs params (pr : gmap string string) :
  pr ⊆ coalesce_props attrs params pr.
Proof.
  apply map_subseteq_spec. intros a v. apply coalesce_keeps.
Qed.

Lemma upsert_record_extends rules rid row desc g :
  extends g (upsert_record rules rid row desc g).
Proof.
  split; [|split; [|split]]; simpl; [|by eauto|by eauto 10|lia].
  intros i r Hi. eexists. split; [by apply merge_lookup|].
  by destruct (is_record rid r).
Qed.

Lemma merge_entity_extends l name attrs params g :
  extends g (merge_entity l name attrs params g).
Proof.
  split; [|split; [|split]]; simpl; [by eauto| |by eauto 10|lia].
  intros i e Hi. eexists. split; [by apply merge_lookup|].
  destruct (is_entity l name e); [|done]. simpl.
  split; [done|]. split; [done|]. apply coalesce_props_subseteq.
Qed.

Lemma upsert_person_extends fields g : extends g (upsert_person fields g).1.
Proof.
  unfold upsert_person. destruct (clean_str _); simpl;
    [apply merge_entity_extends|apply extends_refl].
Qed.

Lemma upsert_organization_extends fields g : extends g (upsert_organization fields g).1.
Proof.
  unfold upsert_organization. destruct (clean_str _); simpl;
    [apply merge_entity_extends|apply extends_refl].
Qed.

Lemma upsert_location_extends name g : extends g (upsert_location name g).
Proof.
  unfold upsert_location. destruct (nonempty name);
    [apply merge_entity_extends|apply extends_refl].
Qed.

Lemma connect_entities_extends pname l oname t g :
  extends g (connect_entities pname l oname t g).
Proof.
  split; [|split; [|split]]; simpl; [by eauto|by eauto| |lia].
  intros k e Hk. eexists. split; [by apply foldl_stamped_old|].
  by destruct (row_of_stamped _ _ e).
Qed.

Lemma connect_record_to_person_extends rid pname g :
  extends g (connect_record_to_person rid pname g).
Proof.
  split; [|split; [|split]]; simpl; [by eauto|by eauto| |lia].
  intros k e Hk. exists e. split; [by apply foldl_describes_old|done].
Qed.

Lemma connect_location_extends pname fields g entry :
  extends g (connect_location pname fields g entry).
Proof.
  unfold connect_location. destruct (clean_str _); [|apply extends_refl].
  eapply extends_trans; [apply upsert_location_extends|apply connect_entities_extends].
Qed.

Lemma connect_locations_extends pname fields map : ∀ g,
  extends g (foldl (connect_location pname fields) g map).
Proof.
  induction map as [|entry map IH]; intros g; simpl; [apply extends_refl|].
  eapply extends_trans; [apply connect_location_extends|apply IH].
Qed.

Lemma connect_person_to_locations_extends rules pname fields g :
  extends g (connect_person_to_locations rules pname fields g).
Proof. apply connect_locations_extends. Qed.

Lemma bind_fields_extends rules rid pf ofs g :
  extends g (bind_fields rules rid pf ofs g).
Proof.
  unfold bind_fields.
  set (s1 := if dict_nonempty pf then upsert_person pf g else (g, None)).
  assert (H1 : extends g s1.1).
  { unfold s1. destruct (dict_nonempty pf);
      [apply upsert_person_extends|apply extends_refl]. }
  destruct s1 as [g1 pn]. simpl in H1.
  set (s2 := if dict_nonempty ofs then upsert_organization ofs g1 else (g1, None)).
  assert (H2 : extends g1 s2.1).
  { unfold s2. destruct (dict_nonempty ofs);
      [apply upsert_organization_extends|apply extends_refl]. }
  destruct s2 as [g2 onm]. simpl in H2.
  assert (H12 : extends g g2) by (by eapply extends_trans).
  destruct pn as [pn|]; [|done].
  assert (H4 : extends g (connect_person_to_locations rules pn pf
                            (connect_record_to_person rid pn g2))).
  { eapply extends_trans; [exact H12|].
    eapply extends_trans; [apply connect_record_to_person_extends|].
    apply connect_person_to_locations_extends. }
  destruct onm as [onm|]; [|done].
  eapply extends_trans; [exact H4|apply connect_entities_extends].
Qed.

Lemma process_row_extends rules re idx cell g :
  extends g (process_row rules re idx cell g).1.
Proof.
  unfold process_row. destruct (clean_str (Some cell)) as [desc|]; [|apply extends_refl].
  destruct (extract_fields rules re desc) as [fields|e]; simpl.
  - eapply extends_trans; [apply upsert_record_extends|apply bind_fields_extends].
  - apply upsert_record_extends.
Qed.

Lemma process_rows_extends rules re df : ∀ g,
  extends g (process_rows rules re df g).1.
Proof.
  induction df as [|[idx cell] df IH]; intros g; simpl; [apply extends_refl|].
  pose proof (process_row_extends rules re idx cell g) as Hrow.
  destruct (process_row rules re idx cell g) as [g' [e|]]; simpl in *; [done|].
  eapply extends_trans; [exact Hrow|apply IH].
Qed.

(* ================================================================== *)
(** ** Identity uniqueness *)

Lemma entity_type_inj l1 l2 : entity_type l1 = entity_type l2 → l1 = l2.
Proof. by destruct l1, l2. Qed.

Lemma is_entity_key l name e :
  is_entity l name e = true ↔ entity_key e = (entity_type l, name).
Proof.
  unfold is_entity, entity_key. rewrite bool_decide_eq_true. split.
  - by intros [-> ->].
  - intros [= Ht Hn]. split; [by apply entity_type_inj|done].
Qed.

Lemma merge_NoDup_key {A K} (k : A → K) (key : K) m c f (l : list A) :
  (∀ x, m x = true ↔ k x = key) →
  k c = key →
  (∀ x, k (f x) = k x) →
  NoDup (k <$> l) → NoDup (k <$> merge m c f l).
Proof.
  intros Hm Hc Hf Hnd. unfold merge. destruct (existsb m l) eqn:Hex.
  - rewrite <- list_fmap_compose.
    erewrite list_fmap_ext; [exact Hnd|].
    intros i x _. simpl. by destruct (m x).
  - rewrite fmap_app. apply NoDup_app. split; [done|]. split.
    + intros y Hy [->|[]%elem_of_nil]%elem_of_cons.
      apply list_elem_of_fmap in Hy as (x & Hkx & Hin).
      rewrite Hc in Hkx. symmetry in Hkx. apply Hm in Hkx.
      by rewrite (existsb_false_all m l x Hex Hin) in Hkx.
    + apply NoDup_singleton.
Qed.

Lemma merge_entity_unique l name attrs params g :
  NoDup (entity_key <$> entities g) →
  NoDup (entity_key <$> entities (merge_entity l name attrs params g)).
Proof.
  intros Hnd. unfold merge_entity; simpl.
  apply (merge_NoDup_key entity_key (entity_type l, name)); try done.
  apply is_entity_key.
Qed.

Lemma reachable_unique rules g :
  reachable rules g → NoDup (entity_key <$> entities g).
Proof.
  induction 1 as [|rid row desc g _ IH|fields g _ IH|fields g _ IH|name g _ IH
                  |rid pn g _ IH|pn onm g _ IH|pn loc t g _ IH]; simpl; try done.
  - apply NoDup_nil_2.
  - unfold upsert_person. destruct (clean_str _); [|done].
    by apply merge_entity_unique.
  - unfold upsert_organization. destruct (clean_str _); [|done].
    by apply merge_entity_unique.
  - unfold upsert_location. destruct (nonempty name); [|done].
    by apply merge_entity_unique.
Qed.

Lemma match_from_none {A} (p : A → bool) (l : list A) : ∀ i,
  (∀ x, x ∈ l → p x = false) → match_from p i l = [].
Proof.
  induction l as [|y l IH]; intros i Hall; simpl; [done|].
  rewrite (Hall y) by left. apply IH. intros x Hx. apply Hall. by right.
Qed.

Lemma match_from_unique {A K} (k : A → K) (key : K) (p : A → bool) (l : list A) :
  (∀ x, p x = true ↔ k x = key) →
  ∀ i, NoDup (k <$> l) → length (match_from p i l) ≤ 1.
Proof.
  intros Hp. induction l as [|y l IH]; intros i Hnd; [simpl; lia|].
  rewrite fmap_cons in Hnd. apply NoDup_cons in Hnd as [Hy Hnd].
  cbn [match_from]. destruct (p y) eqn:Hpy; [|by apply IH].
  rewrite match_from_none; [simpl; lia|].
  intros x Hx. destruct (p x) eqn:Hpx; [|done].
  destruct Hy. apply Hp in Hpy, Hpx. rewrite Hpy, <- Hpx.
  apply list_elem_of_fmap. by exists x.
Qed.

Lemma match_ids_unique {A K} (k : A → K) (key : K) (p : A → bool) (l : list A) :
  (∀ x, p x = true ↔ k x = key) →
  NoDup (k <$> l) → length (match_ids p l) ≤ 1.
Proof. intros Hp Hnd. by apply (match_from_unique k key). Qed.

Lemma count_entities_pos l name g : has_entity l name g → 0 < count_entities l name g.
Proof.
  intros (i & e & Hi & Hl & Hn). unfold count_entities.
  assert (Hin : i ∈ match_ids (is_entity l name) (entities g)).
  { apply elem_of_match_ids. exists e. split; [done|]. by apply bool_decide_eq_true. }
  destruct (match_ids _ _); [by apply elem_of_nil in Hin|simpl; lia].
Qed.

Lemma count_entities_one rules l name g :
  reachable rules g → has_entity l name g → count_entities l name g = 1.
Proof.
  intros Hr Hhas. apply count_entities_pos in Hhas.
  pose proof (match_ids_unique entity_key (entity_type l, name) (is_entity l name)
                (entities g) (is_entity_key l name) (reachable_unique _ _ Hr)) as Hle.
  unfold count_entities in *. lia.
Qed.

Lemma has_entity_extends l name g g' :
  extends g g' → has_entity l name g → has_entity l name g'.
Proof.
  intros (_ & He & _) (i & e & Hi & Hl & Hn).
  destruct (He i e Hi) as (e' & Hi' & Hl' & Hn' & _).
  exists i, e'. split; [done|]. split; congruence.
Qed.

Lemma has_record_extends rid g g' :
  extends g g' → has_record rid g → has_record rid g'.
Proof.
  intros (Hr & _) (i & r & Hi & Hid).
  destruct (Hr i r Hi) as (r' & Hi' & Hid').
  exists i, r'. split; [done|congruence].
Qed.

Lemma merge_has {A} (m : A → bool) c f (l : list A) :
  m c = true → (∀ x, m x = true → m (f x) = true) →
  ∃ i y, merge m c f l !! i = Some y ∧ m y = true.
Proof.
  intros Hc Hf. destruct (existsb m l) eqn:Hex.
  - apply existsb_true_some in Hex as (x & Hin & Hx).
    apply list_elem_of_lookup in Hin as [i Hi].
    exists i, (f x). split; [|by apply Hf].
    erewrite merge_lookup by done. by rewrite Hx.
  - exists (length l), c. split; [|done].
    rewrite merge_created by done. by rewrite lookup_app_r, Nat.sub_diag by lia.
Qed.

Lemma merge_entity_has l name attrs params g :
  has_entity l name (merge_entity l name attrs params g).
Proof.
  destruct (merge_has (is_entity l name)
              {| label := l; canonical_text := name;
                 props := create_props name attrs params;
                 created_at := clock g; updated_at := clock g |}
              (touch_entity attrs params (clock g)) (entities g))
    as (i & e & Hi & He); [by apply bool_decide_eq_true|done|].
  apply bool_decide_eq_true in He as [??]. by exists i, e.
Qed.

Lemma upsert_record_has rules rid row desc g :
  has_record rid (upsert_record rules rid row desc g).
Proof.
  destruct (merge_has (is_record rid)
              {| record_id := rid; description := desc; row_index := row;
                 source_file := SOURCE_NAME rules;
                 rec_created_at := clock g; rec_updated_at := clock g |}
              (touch_record desc (clock g)) (records g))
    as (i & r & Hi & Hr); [by apply bool_decide_eq_true|done|].
  apply bool_decide_eq_true in Hr. by exists i, r.
Qed.

(** *** The loop body stays within the reachable stores *)

Lemma reachable_locations rules pname fields map : ∀ g,
  reachable rules g → reachable rules (foldl (connect_location pname fields) g map).
Proof.
  induction map as [|entry map IH]; intros g Hr; simpl; [done|].
  apply IH. unfold connect_location. destruct (clean_str _); [|done].
  by apply reach_located, reach_location.
Qed.

Lemma reachable_bind_fields rules rid pfs ofs g :
  reachable rules g → reachable rules (bind_fields rules rid pfs ofs g).
Proof.
  intros Hr. unfold bind_fields.
  set (s1 := if dict_nonempty pfs then upsert_person pfs g else (g, None)).
  assert (H1 : reachable rules s1.1).
  { unfold s1. destruct (dict_nonempty pfs); [by apply reach_person|done]. }
  destruct s1 as [g1 pn]. simpl in H1.
  set (s2 := if dict_nonempty ofs then upsert_organization ofs g1 else (g1, None)).
  assert (H2 : reachable rules s2.1).
  { unfold s2. destruct (dict_nonempty ofs); [by apply reach_organization|done]. }
  destruct s2 as [g2 onm]. simpl in H2.
  destruct pn as [pn|]; [|done].
  assert (H4 : reachable rules (connect_person_to_locations rules pn pfs
                                  (connect_record_to_person rid pn g2))).
  { apply reachable_locations. by apply reach_describes. }
  destruct onm as [onm|]; [|done]. by apply reach_associated.
Qed.

Lemma reachable_process_row rules re idx cell g :
  reachable rules g → reachable rules (process_row rules re idx cell g).1.
Proof.
  intros Hr. unfold process_row. destruct (clean_str (Some cell)) as [desc|]; [|done].
  destruct (extract_fields rules re desc) as [fields|e]; simpl.
  - by apply reachable_bind_fields, reach_record.
  - by apply reach_record.
Qed.

Lemma reachable_process_rows rules re df : ∀ g,
  reachable rules g → reachable rules (process_rows rules re df g).1.
Proof.
  induction df as [|[idx cell] df IH]; intros g Hr; simpl; [done|].
  pose proof (reachable_process_row rules re idx cell g Hr) as Hrow.
  destruct (process_row rules re idx cell g) as [g' [e|]]; simpl in *; [done|].
  by apply IH.
Qed.

(* ================================================================== *)
(** ** The loop body, case by case *)

Lemma dict_nonempty_lookup {V} (m : gmap string V) k v :
  m !! k = Some v → dict_nonempty m = true.
Proof.
  intros Hk. unfold dict_nonempty. apply negb_true_iff, bool_decide_eq_false.
  intros ->. by rewrite lookup_empty in Hk.
Qed.

Lemma clean_str_Some_inv v s : clean_str v = Some s → ∃ raw, v = Some raw.
Proof. destruct v; [by eexists|done]. Qed.

Lemma upsert_organization_empty g : upsert_organization ∅ g = (g, None).
Proof. unfold upsert_organization. by rewrite lookup_empty. Qed.

Lemma upsert_organization_guard ofs g :
  (if dict_nonempty ofs then upsert_organization ofs g else (g, None))
  = upsert_organization ofs g.
Proof.
  unfold dict_nonempty. case_bool_decide as Hemp; simpl; [|done].
  subst ofs. by rewrite upsert_organization_empty.
Qed.

Lemma upsert_person_guard pfs g :
  (if dict_nonempty pfs then upsert_person pfs g else (g, None))
  = upsert_person pfs g.
Proof.
  unfold dict_nonempty. case_bool_decide as Hemp; simpl; [|done].
  subst pfs. unfold upsert_person. by rewrite lookup_empty.
Qed.

(** With a resolved person the body runs every statement in order. *)
Lemma bind_fields_resolved rules rid pfs ofs g pn :
  clean_str (pfs !! "name") = Some pn →
  bind_fields rules rid pfs ofs g
  = let g1 := merge_entity Person pn PERSON_ATTRS (field_param pfs) g in
    let s2 := upsert_organization ofs g1 in
    let g4 := connect_person_to_locations rules pn pfs
                (connect_record_to_person rid pn s2.1) in
    match s2.2 with
    | None => g4
    | Some onm => connect_person_to_org pn onm g4
    end.
Proof.
  intros Hpn. unfold bind_fields.
  rewrite upsert_person_guard. unfold upsert_person at 1. rewrite Hpn.
  rewrite upsert_organization_guard. simpl.
  by destruct (upsert_organization ofs _) as [g2 [onm|]].
Qed.

(** Without one only the organization statement runs. *)
Lemma bind_fields_unresolved rules rid pfs ofs g :
  clean_str (pfs !! "name") = None →
  bind_fields rules rid pfs ofs g = (upsert_organization ofs g).1.
Proof.
  intros Hpn. unfold bind_fields.
  rewrite upsert_person_guard. unfold upsert_person at 1. rewrite Hpn.
  rewrite upsert_organization_guard.
  by destruct (upsert_organization ofs g) as [g2 [onm|]].
Qed.

Lemma bind_fields_has_person rules rid pfs ofs g pn :
  clean_str (pfs !! "name") = Some pn →
  has_entity Person pn (bind_fields rules rid pfs ofs g).
Proof.
  intros Hpn. rewrite (bind_fields_resolved _ _ _ _ _ _ Hpn). cbv zeta.
  set (g1 := merge_entity Person pn PERSON_ATTRS (field_param pfs) g).
  assert (H1 : has_entity Person pn g1) by apply merge_entity_has.
  set (s2 := upsert_organization ofs g1).
  assert (H4 : has_entity Person pn
                 (connect_person_to_locations rules pn pfs
                    (connect_record_to_person rid pn s2.1))).
  { eapply has_entity_extends; [|exact H1].
    eapply extends_trans; [apply upsert_organization_extends|].
    eapply extends_trans; [apply connect_record_to_person_extends|].
    apply connect_person_to_locations_extends. }
  destruct (s2.2); [|done].
  eapply has_entity_extends; [apply connect_entities_extends|done].
Qed.

Lemma process_row_resolved rules re idx cell g pn :
  resolved_person rules re cell = Some pn →
  has_entity Person pn (process_row rules re idx cell g).1
  ∧ (process_row rules re idx cell g).2 = None.
Proof.
  unfold resolved_person, process_row.
  destruct (clean_str (Some cell)) as [desc|]; [|done].
  destruct (extract_fields rules re desc) as [fields|e]; [|done].
  intros Hpn. simpl. split; [|done]. by apply bind_fields_has_person.
Qed.

Lemma process_rows_resolved rules re df : ∀ g g' idx cell pn,
  process_rows rules re df g = (g', None) →
  (idx, cell) ∈ df →
  resolved_person rules re cell = Some pn →
  has_entity Person pn g'.
Proof.
  induction df as [|[idx0 cell0] df IH]; intros g g' idx cell pn Hrun Hin Hpn.
  - by apply elem_of_nil in Hin.
  - simpl in Hrun.
    destruct (process_row rules re idx0 cell0 g) as [g1 [e|]] eqn:Hrow; [done|].
    apply elem_of_cons in Hin as [[= -> ->]|Hin]; [|by eapply IH].
    destruct (process_row_resolved rules re idx0 cell0 g pn Hpn) as [Hhas _].
    rewrite Hrow in Hhas. simpl in Hhas.
    eapply has_entity_extends; [|exact Hhas].
    pose proof (process_rows_extends rules re df g1) as Hext.
    by rewrite Hrun in Hext.
Qed.

Lemma elem_of_number_rows sheet : ∀ k i cell,
  sheet !! i = Some (Some cell) → (k + i, cell) ∈ number_rows k sheet.
Proof.
  induction sheet as [|c sheet IH]; intros k i cell Hi; [done|].
  destruct i as [|i]; simpl in Hi.
  - injection Hi as ->. simpl. rewrite Nat.add_0_r. left.
  - replace (k + S i) with (S k + i) by lia.
    destruct c; simpl; [right|]; exact (IH (S k) i cell Hi).
Qed.

(** C3: in every store the program's statements can reach, no two entity
    nodes share the pair of [entity_type] and [canonical_text]; a person
    upsert leaves exactly one Person node with the resolved name whatever
    the other fields are; and after a run that went through the sheet, two
    distinct rows resolving the same person name have produced exactly
    one Person node with that name. *)
Theorem canonical_identity_unique rules :
  (∀ g, reachable rules g → NoDup (entity_key <$> entities g))
  ∧ (∀ g fields name,
      reachable rules g →
      clean_str (fields !! "name") = Some name →
      count_entities Person name (upsert_person fields g).1 = 1)
  ∧ (∀ re_search sheet g i j cell_i cell_j name,
      main rules re_search sheet empty_graph = (g, None) →
      i ≠ j →
      sheet !! i = Some (Some cell_i) →
      sheet !! j = Some (Some cell_j) →
      resolved_person rules re_search cell_i = Some name →
      resolved_person rules re_search cell_j = Some name →
      reachable rules g ∧ count_entities Person name g = 1).
Proof.
  split; [|split].
  - apply reachable_unique.
  - intros g fields name Hr Hname.
    apply (count_entities_one rules); [by apply reach_person|].
    unfold upsert_person. rewrite Hname. apply merge_entity_has.
  - intros re sheet g i j ci cj name Hmain _ Hi _ Hni _.
    assert (Hr : reachable rules g).
    { pose proof (reachable_process_rows rules re (load_descriptions sheet)
                    empty_graph (reach_empty rules)) as Hr.
      unfold main in Hmain. by rewrite Hmain in Hr. }
    split; [done|]. apply (count_entities_one rules); [done|].
    eapply process_rows_resolved; [exact Hmain| |exact Hni].
    apply (elem_of_number_rows sheet 0 i ci Hi).
Qed.

Lemma canonical_identity_unique_witness :
  count_entities Person "John Doe"
    (main demo_rules mini_search john_sheet empty_graph).1 = 1.
Proof.
  destruct (canonical_identity_unique demo_rules) as (_ & _ & Hrows).
  refine (proj2 (Hrows mini_search john_sheet
                   (main demo_rules mini_search john_sheet empty_graph).1
                   0 2 "NAME: John Doe; DOB: 1980-01-01"
                   "Name:  John Doe ; Citizenship: USA" "John Doe" _ _ _ _ _ _)).
  - vm_compute. reflexivity.
  - discriminate.
  - reflexivity.
  - reflexivity.
  - vm_compute. reflexivity.
  - vm_compute. reflexivity.
Defined.

(* ================================================================== *)
(** ** Records without a person name *)

Lemma merge_entity_other_label l name attrs params g i e :
  entities (merge_entity l name attrs params g) !! i = Some e →
  label e ≠ l →
  entities g !! i = Some e.
Proof.
  unfold merge_entity; simpl. intros Hi Hl.
  apply merge_lookup_inv in Hi as [(x & Hx & ->)|(_ & _ & ->)]; [|done].
  destruct (is_entity l name x) eqn:Hm; [|done].
  apply bool_decide_eq_true in Hm as [Hlx _]. by destruct Hl.
Qed.

Lemma upsert_organization_frame ofs g :
  records (upsert_organization ofs g).1 = records g
  ∧ edges (upsert_organization ofs g).1 = edges g.
Proof. unfold upsert_organization. by destruct (clean_str _). Qed.

Lemma upsert_organization_persons ofs g i e :
  entities (upsert_organization ofs g).1 !! i = Some e →
  label e ≠ Organization →
  entities g !! i = Some e.
Proof.
  unfold upsert_organization. destruct (clean_str _); simpl; [|done].
  apply merge_entity_other_label.
Qed.

(** C6: when the person group of a record resolves no name, the loop body
    ends without an exception; what it did after the record upsert is the
    organization upsert alone, so the organization group is still
    processed; no relationship was created or changed; every Person node
    of the result was already there, unchanged; and the run goes on with
    the following rows. *)
Theorem unnamed_person_skipped rules re_search idx cell desc fields g :
  clean_str (Some cell) = Some desc →
  extract_fields rules re_search desc = Ok fields →
  clean_str (default ∅ (fields !! "person") !! "name") = None →
  let g1 := upsert_record rules (record_id_of rules idx) (idx + 1) desc g in
  let g' := (process_row rules re_search idx cell g).1 in
  (process_row rules re_search idx cell g).2 = None
  ∧ g' = (upsert_organization (default ∅ (fields !! "organization")) g1).1
  ∧ edges g' = edges g
  ∧ (∀ i e, entities g' !! i = Some e → label e = Person → entities g !! i = Some e)
  ∧ (∀ rest, process_rows rules re_search ((idx, cell) :: rest) g
             = process_rows rules re_search rest g').
Proof.
  intros Hdesc Hfields Hname g1 g'.
  assert (Hrow : process_row rules re_search idx cell g
                 = ((upsert_organization (default ∅ (fields !! "organization")) g1).1,
                    None)).
  { unfold process_row. rewrite Hdesc, Hfields.
    by rewrite bind_fields_unresolved. }
  unfold g'. rewrite Hrow. simpl.
  split; [done|]. split; [done|]. split; [|split].
  - by rewrite (proj2 (upsert_organization_frame _ _)).
  - intros i e Hi Hl.
    apply upsert_organization_persons in Hi; [done|]. by rewrite Hl.
  - intros rest. by rewrite Hrow.
Qed.

Lemma unnamed_person_skipped_witness :
  let g' := (process_row demo_rules mini_search 3 "ORG: Acme Corp; DOB: 1980-01-01"
               jane_graph).1 in
  edges g' = edges jane_graph
  ∧ ∀ i e, entities g' !! i = Some e → label e = Person →
           entities jane_graph !! i = Some e.
Proof.
  destruct (unnamed_person_skipped demo_rules mini_search 3
              "ORG: Acme Corp; DOB: 1980-01-01" "ORG: Acme Corp; DOB: 1980-01-01"
              (<["organization" := {["name" := "Acme Corp"]}]>
                 (<["person" := {["dob" := "1980-01-01"]}]> ∅))
              jane_graph)
    as (_ & _ & Hedges & Hpersons & _).
  - vm_compute. reflexivity.
  - vm_compute. reflexivity.
  - vm_compute. reflexivity.
  - split; [exact Hedges|exact Hpersons].
Defined.

(* ================================================================== *)
(** ** Location relationships *)

Lemma entity_at_extends g g' i l name :
  extends g g' → entity_at g i l name → entity_at g' i l name.
Proof.
  intros (_ & He & _) (e & Hi & Hl & Hn).
  destruct (He i e Hi) as (e' & Hi' & Hl' & Hn' & _).
  exists e'. split; [done|]. split; congruence.
Qed.

Lemma record_at_extends g g' i rid :
  extends g g' → record_at g i rid → record_at g' i rid.
Proof.
  intros (Hr & _) (r & Hi & Hid).
  destruct (Hr i r Hi) as (r' & Hi' & Hid'). exists r'. split; [done|congruence].
Qed.

Lemma has_edge_extends g g' s t d :
  extends g g' → has_edge s t d g → has_edge s t d g'.
Proof.
  intros (_ & _ & Hd & _) (k & e & Hk & Hs & Ht & Hdst).
  destruct (Hd k e Hk) as (e' & Hk' & Hs' & Ht' & Hd' & _).
  exists k, e'. split; [done|]. repeat split; congruence.
Qed.

Lemma match_ids_entity_at g i l name :
  i ∈ match_ids (is_entity l name) (entities g) ↔ entity_at g i l name.
Proof.
  rewrite elem_of_match_ids. unfold entity_at, is_entity.
  split; intros (e & Hi & He); exists e; split; try done.
  - by apply bool_decide_eq_true in He.
  - by apply bool_decide_eq_true.
Qed.

Lemma match_ids_record_at g i rid :
  i ∈ match_ids (is_record rid) (records g) ↔ record_at g i rid.
Proof.
  rewrite elem_of_match_ids. unfold record_at, is_record.
  split; intros (r & Hi & Hr); exists r; split; try done.
  - by apply bool_decide_eq_true in Hr.
  - by apply bool_decide_eq_true.
Qed.

Lemma foldl_stamped_has now t rows : ∀ es row,
  row ∈ rows →
  ∃ k e, foldl (merge_stamped_edge now t) es rows !! k = Some e
         ∧ src e = EntityRef row.1 ∧ rel_type e = t ∧ dst e = EntityRef row.2
         ∧ last_seen e = Some now.
Proof.
  induction rows as [|row0 rows IH]; intros es row Hin.
  - by apply elem_of_nil in Hin.
  - apply elem_of_cons in Hin as [->|Hin]; [|by apply IH]. simpl.
    destruct (merge_has (is_edge (EntityRef row0.1) t (EntityRef row0.2))
                (stamped_edge now t row0) (touch_edge now) es)
      as (k & e & Hk & He); [by apply bool_decide_eq_true|done|].
    assert (Hseen : last_seen e = Some now).
    { apply merge_lookup_inv in Hk as [(x & _ & ->)|(_ & _ & ->)]; [|done].
      destruct (is_edge _ _ _ x) eqn:Hx; [done|].
      unfold is_edge in He, Hx. congruence. }
    apply bool_decide_eq_true in He as (Hs & Ht & Hd).
    exists k. eexists. split; [by apply foldl_stamped_old|].
    by destruct (row_of_stamped t rows e).
Qed.

Lemma foldl_describes_has rows : ∀ es row,
  row ∈ rows →
  ∃ k e, foldl merge_describes es rows !! k = Some e
         ∧ src e = RecordRef row.1 ∧ rel_type e = "DESCRIBES"
         ∧ dst e = EntityRef row.2.
Proof.
  induction rows as [|row0 rows IH]; intros es row Hin.
  - by apply elem_of_nil in Hin.
  - apply elem_of_cons in Hin as [->|Hin]; [|by apply IH]. simpl.
    destruct (merge_has (is_edge (RecordRef row0.1) "DESCRIBES" (EntityRef row0.2))
                (bare_describes row0) id es)
      as (k & e & Hk & He); [by apply bool_decide_eq_true|done|].
    apply bool_decide_eq_true in He as (Hs & Ht & Hd).
    exists k, e. split; [by apply foldl_describes_old|done].
Qed.

(** The relationship statement finds its two nodes and leaves the
    relationship between them, seen at the statement's instant. *)
Lemma connect_entities_has pname l oname t g ip io :
  entity_at g ip Person pname → entity_at g io l oname →
  ∃ k e, edges (connect_entities pname l oname t g) !! k = Some e
         ∧ src e = EntityRef ip ∧ rel_type e = t ∧ dst e = EntityRef io
         ∧ last_seen e = Some (clock g).
Proof.
  intros Hp Ho. unfold connect_entities; simpl.
  apply (foldl_stamped_has _ _ _ _ (ip, io)).
  apply elem_of_match_rows. by rewrite !match_ids_entity_at.
Qed.

Lemma connect_record_to_person_has rid pname g ir ip :
  record_at g ir rid → entity_at g ip Person pname →
  has_edge (RecordRef ir) "DESCRIBES" (EntityRef ip)
    (connect_record_to_person rid pname g).
Proof.
  intros Hr Hp. unfold connect_record_to_person, has_edge; simpl.
  apply (foldl_describes_has _ _ (ir, ip)).
  apply elem_of_match_rows. by rewrite match_ids_record_at, match_ids_entity_at.
Qed.

Lemma connect_location_skip pname fields g entry :
  clean_str (fields !! entry.1) = None → connect_location pname fields g entry = g.
Proof. intros H. unfold connect_location. by rewrite H. Qed.

Lemma connect_location_valued pname fields g entry loc :
  clean_str (fields !! entry.1) = Some loc →
  connect_location pname fields g entry
  = connect_entities pname Location loc entry.2
      (merge_entity Location loc [] (λ _, None) g).
Proof.
  intros H. unfold connect_location. rewrite H.
  by rewrite upsert_location_nonempty by (by eapply clean_str_nonempty).
Qed.

Section Locations.
Variable pname : string.
Variable fields : gmap string string.

Lemma connect_locations_new_edges map : ∀ g k e,
  edges (foldl (connect_location pname fields) g map) !! k = Some e →
  length (edges g) ≤ k →
  ∃ field rel loc ip il,
    (field, rel) ∈ map ∧ clean_str (fields !! field) = Some loc
    ∧ rel_type e = rel ∧ src e = EntityRef ip ∧ dst e = EntityRef il
    ∧ entity_at (foldl (connect_location pname fields) g map) ip Person pname
    ∧ entity_at (foldl (connect_location pname fields) g map) il Location loc
    ∧ source e = Some STRUCTURED_TEXT.
Proof.
  induction map as [|[field rel] map IH]; intros g k e Hk Hle; simpl in *.
  - apply lookup_lt_Some in Hk. lia.
  - set (gs := (connect_location pname fields) g (field, rel)) in *.
    destruct (decide (length (edges gs) ≤ k)) as [Hge|Hlt].
    + destruct (IH gs k e Hk Hge) as (f & r & loc & ip & il & Hin & Hrest).
      exists f, r, loc, ip, il. split; [by right|done].
    + destruct (lookup_lt_is_Some_2 (edges gs) k) as [e1 He1]; [lia|].
      pose proof (connect_locations_extends pname fields map gs) as Hext.
      destruct (proj1 (proj2 (proj2 Hext)) k e1 He1)
        as (e' & He' & Hs & Ht & Hd & Hso & _).
      rewrite Hk in He'. injection He' as <-.
      destruct (clean_str (fields !! field)) as [loc|] eqn:Hloc.
      * unfold gs in He1. rewrite (connect_location_valued _ _ _ _ loc) in He1 by done.
        set (g1 := merge_entity Location loc [] (λ _, None) g) in *.
        destruct (connect_entities_policy pname Location loc rel g1) as [Hnew _].
        destruct (Hnew k e1 He1 Hle) as (Ht1 & (ip & il & Hs1 & Hd1 & Hip & Hil) & Hso1 & _).
        apply match_ids_entity_at in Hip, Hil.
        assert (Hext1 : extends g1 (foldl (connect_location pname fields) gs map)).
        { eapply extends_trans; [|exact Hext]. unfold gs.
          rewrite (connect_location_valued _ _ _ _ loc) by done.
          apply connect_entities_extends. }
        exists field, rel, loc, ip, il. split; [left|].
        split; [done|]. split; [congruence|]. split; [congruence|].
        split; [congruence|]. split; [by eapply entity_at_extends|].
        split; [by eapply entity_at_extends|congruence].
      * unfold gs in Hlt. rewrite connect_location_skip in Hlt by done. lia.
Qed.

Lemma connect_locations_new_entities map : ∀ g i e,
  entities (foldl (connect_location pname fields) g map) !! i = Some e →
  length (entities g) ≤ i →
  label e = Location
  ∧ ∃ field rel, (field, rel) ∈ map
                 ∧ clean_str (fields !! field) = Some (canonical_text e).
Proof.
  induction map as [|[field rel] map IH]; intros g i e Hi Hle; simpl in *.
  - apply lookup_lt_Some in Hi. lia.
  - set (gs := (connect_location pname fields) g (field, rel)) in *.
    destruct (decide (length (entities gs) ≤ i)) as [Hge|Hlt].
    + destruct (IH gs i e Hi Hge) as (Hl & f & r & Hin & Hrest).
      split; [done|]. exists f, r. split; [by right|done].
    + destruct (lookup_lt_is_Some_2 (entities gs) i) as [e1 He1]; [lia|].
      pose proof (connect_locations_extends pname fields map gs) as Hext.
      destruct (proj1 (proj2 Hext) i e1 He1) as (e' & He' & Hl & Hn & _).
      rewrite Hi in He'. injection He' as <-.
      destruct (clean_str (fields !! field)) as [loc|] eqn:Hloc.
      * unfold gs in He1. rewrite (connect_location_valued _ _ _ _ loc) in He1 by done.
        simpl in He1.
        apply merge_lookup_inv in He1 as [(x & Hx & _)|(_ & _ & ->)].
        { apply lookup_lt_Some in Hx. lia. }
        simpl in *. split; [done|]. exists field, rel. split; [left|congruence].
      * unfold gs in Hlt. rewrite connect_location_skip in Hlt by done. lia.
Qed.

Lemma connect_locations_other_entities map : ∀ g i e,
  entities g !! i = Some e →
  label e ≠ Location →
  entities (foldl (connect_location pname fields) g map) !! i = Some e.
Proof.
  induction map as [|[field rel] map IH]; intros g i e Hi Hl; simpl; [done|].
  apply IH; [|done]. unfold connect_location; simpl.
  destruct (clean_str (fields !! field)) as [loc|]; [|done].
  unfold upsert_location. destruct (nonempty loc); simpl; [|done].
  erewrite merge_lookup by done. unfold is_entity.
  rewrite bool_decide_eq_false_2; [done|]. by intros [? _].
Qed.


Lemma connect_locations_frame map : ∀ g,
  records (foldl (connect_location pname fields) g map) = records g.
Proof.
  induction map as [|entry map IH]; intros g; simpl; [done|].
  rewrite IH. unfold connect_location. destruct (clean_str _); [|done].
  simpl. unfold upsert_location. by destruct (nonempty _).
Qed.

End Locations.






(* ================================================================== *)
(** ** Organization binding *)

Lemma points_to_extends l g g' e :
  extends g g' → points_to l g e → points_to l g' e.
Proof.
  intros (_ & He & _) (j & n & Hd & Hj & Hl).
  destruct (He j n Hj) as (n' & Hj' & Hl' & _).
  exists j, n'. split; [done|]. split; [done|congruence].
Qed.

Lemma connect_entities_untouched pname l oname t g k e l' :
  edges g !! k = Some e →
  points_to l' g e → l' ≠ l →
  edges (connect_entities pname l oname t g) !! k = Some e.
Proof.
  intros Hk (j & n & Hd & Hj & Hl) Hne. unfold connect_entities; simpl.
  rewrite (foldl_stamped_old _ _ _ _ _ _ Hk).
  destruct (row_of_stamped t _ e) eqn:Hrow; [|done].
  apply row_of_stamped_spec in Hrow as (_ & i & j' & Hin & _ & Hd').
  apply elem_of_match_rows in Hin as [_ Hj'].
  apply match_ids_entity_at in Hj' as (n' & Hn' & Hl' & _).
  rewrite Hd in Hd'. injection Hd' as <-. congruence.
Qed.

Lemma connect_locations_untouched pname fields map l' : ∀ g k e,
  edges g !! k = Some e →
  points_to l' g e → l' ≠ Location →
  edges (foldl (connect_location pname fields) g map) !! k = Some e.
Proof.
  induction map as [|[field rel] map IH]; intros g k e Hk Hpt Hne; simpl; [done|].
  apply IH; [| |done].
  - unfold connect_location; simpl.
    destruct (clean_str (fields !! field)) as [loc|]; [|done].
    apply (connect_entities_untouched _ _ _ _ _ _ _ l'); [| |done].
    + unfold upsert_location. by destruct (nonempty loc).
    + eapply points_to_extends; [apply upsert_location_extends|done].
  - eapply points_to_extends; [apply connect_location_extends|done].
Qed.

Lemma upsert_organization_unresolved ofs g :
  clean_str (ofs !! "name") = None → upsert_organization ofs g = (g, None).
Proof. intros H. unfold upsert_organization. by rewrite H. Qed.

Lemma upsert_organization_resolved ofs g onm :
  clean_str (ofs !! "name") = Some onm →
  upsert_organization ofs g
  = (merge_entity Organization onm ORG_ATTRS (field_param ofs) g, Some onm).
Proof. intros H. unfold upsert_organization. by rewrite H. Qed.

Section OrgBinding.
Variable rules : RuleSet.
Variables (rid pn : string) (pfs ofs : gmap string string) (g : Graph).
Hypothesis Hpn : clean_str (pfs !! "name") = Some pn.

Lemma bind_fields_describes :
  has_record rid g →
  ∃ ir ip, record_at (bind_fields rules rid pfs ofs g) ir rid
           ∧ entity_at (bind_fields rules rid pfs ofs g) ip Person pn
           ∧ has_edge (RecordRef ir) "DESCRIBES" (EntityRef ip)
               (bind_fields rules rid pfs ofs g).
Proof using Hpn.
  intros (ir & r & Hir & Hrid).
  rewrite (bind_fields_resolved _ _ _ _ _ _ Hpn). cbv zeta.
  set (g1 := merge_entity Person pn PERSON_ATTRS (field_param pfs) g).
  set (s2 := upsert_organization ofs g1).
  assert (H12 : extends g s2.1).
  { eapply extends_trans; [apply merge_entity_extends|].
    apply upsert_organization_extends. }
  assert (Hrec : record_at s2.1 ir rid).
  { eapply record_at_extends; [exact H12|]. by exists r. }
  destruct (merge_entity_has Person pn PERSON_ATTRS (field_param pfs) g)
    as (ip & ep & Hip & Hlp & Hnp).
  assert (Hper : entity_at s2.1 ip Person pn).
  { eapply entity_at_extends; [apply upsert_organization_extends|]. by exists ep. }
  set (g3 := connect_record_to_person rid pn s2.1).
  assert (Hedge : has_edge (RecordRef ir) "DESCRIBES" (EntityRef ip) g3)
    by (by apply connect_record_to_person_has).
  assert (H3 : extends s2.1 g3) by apply connect_record_to_person_extends.
  set (g4 := connect_person_to_locations rules pn pfs g3).
  assert (H4 : extends g3 g4) by apply connect_person_to_locations_extends.
  assert (Hfin : ∀ gf, extends g4 gf →
            ∃ ir ip, record_at gf ir rid ∧ entity_at gf ip Person pn
                     ∧ has_edge (RecordRef ir) "DESCRIBES" (EntityRef ip) gf).
  { intros gf Hf.
    assert (H3f : extends g3 gf) by (by eapply extends_trans).
    assert (H2f : extends s2.1 gf) by (by eapply extends_trans).
    exists ir, ip. split; [by apply (record_at_extends s2.1 gf)|].
    split; [by apply (entity_at_extends s2.1 gf)|by apply (has_edge_extends g3 gf)]. }
  destruct (s2.2); apply Hfin; [apply connect_entities_extends|apply extends_refl].
Qed.

Lemma bind_fields_without_org :
  clean_str (ofs !! "name") = None →
  let g' := bind_fields rules rid pfs ofs g in
  (∀ i e, entities g' !! i = Some e → label e = Organization →
          entities g !! i = Some e)
  ∧ (∀ k e, edges g' !! k = Some e → length (edges g) ≤ k →
            ¬ points_to Organization g' e)
  ∧ (∀ k e, edges g !! k = Some e → points_to Organization g e →
            edges g' !! k = Some e).
Proof using Hpn.
  intros Hon g'.
  set (g1 := merge_entity Person pn PERSON_ATTRS (field_param pfs) g).
  assert (Hg' : g' = connect_person_to_locations rules pn pfs
                       (connect_record_to_person rid pn g1)).
  { unfold g'. rewrite (bind_fields_resolved _ _ _ _ _ _ Hpn). cbv zeta.
    by rewrite upsert_organization_unresolved. }
  set (g3 := connect_record_to_person rid pn g1) in *.
  assert (H34 : extends g3 g').
  { rewrite Hg'. apply connect_person_to_locations_extends. }
  split; [|split].
  - intros i e Hi Hl.
    destruct (decide (length (entities g3) ≤ i)) as [Hge|Hlt].
    + rewrite Hg' in Hi.
      destruct (connect_locations_new_entities _ _ _ _ _ _ Hi Hge) as [Hloc _].
      congruence.
    + destruct (lookup_lt_is_Some_2 (entities g3) i) as [e1 He1]; [lia|].
      destruct (proj1 (proj2 H34) i e1 He1) as (e' & He' & Hl' & _).
      rewrite Hi in He'. injection He' as <-.
      assert (He1' : entities g' !! i = Some e1).
      { rewrite Hg'. apply connect_locations_other_entities; [done|]. congruence. }
      rewrite Hi in He1'. injection He1' as ->.
      apply (merge_entity_other_label Person pn PERSON_ATTRS (field_param pfs)); [done|].
      congruence.
  - intros k e Hk Hle (j & n & Hd & Hj & Hl).
    destruct (decide (length (edges g3) ≤ k)) as [Hge|Hlt].
    + rewrite Hg' in Hk.
      destruct (connect_locations_new_edges _ _ _ _ _ _ Hk Hge)
        as (f & r & loc & ip & il & _ & _ & _ & _ & Hd' & _ & (n' & Hn' & Hl' & _) & _).
      assert (Hn'' : entities g' !! il = Some n') by (rewrite Hg'; exact Hn').
      rewrite Hd in Hd'. injection Hd' as <-. congruence.
    + destruct (lookup_lt_is_Some_2 (edges g3) k) as [e1 He1]; [lia|].
      destruct (proj1 (proj2 (proj2 H34)) k e1 He1) as (e' & He' & _ & _ & Hd' & _).
      rewrite Hk in He'. injection He' as <-.
      destruct (connect_record_to_person_new rid pn g1 k e1 He1 Hle)
        as (i0 & j0 & -> & _ & Hj0).
      apply match_ids_entity_at in Hj0.
      assert (Hat : entity_at g' j0 Person pn).
      { eapply entity_at_extends; [|exact Hj0].
        eapply extends_trans; [apply connect_record_to_person_extends|exact H34]. }
      destruct Hat as (n' & Hn' & Hl' & _).
      simpl in Hd'. rewrite Hd in Hd'. injection Hd' as <-. congruence.
  - intros k e Hk Hpt. rewrite Hg'.
    apply (connect_locations_untouched _ _ _ Organization); [|  |done].
    + by apply connect_record_to_person_old.
    + eapply points_to_extends; [|exact Hpt].
      eapply extends_trans; [apply merge_entity_extends|].
      apply connect_record_to_person_extends.
Qed.

Lemma bind_fields_with_org onm :
  clean_str (ofs !! "name") = Some onm →
  let g' := bind_fields rules rid pfs ofs g in
  ∃ ip io k e,
    entity_at g' ip Person pn ∧ entity_at g' io Organization onm
    ∧ edges g' !! k = Some e
    ∧ src e = EntityRef ip ∧ rel_type e = "ASSOCIATED_WITH_ORG"
    ∧ dst e = EntityRef io
    ∧ S (default 0 (last_seen e)) = clock g'.
Proof using Hpn.
  intros Hon g'.
  set (g1 := merge_entity Person pn PERSON_ATTRS (field_param pfs) g).
  set (g2 := merge_entity Organization onm ORG_ATTRS (field_param ofs) g1).
  set (g4 := connect_person_to_locations rules pn pfs
               (connect_record_to_person rid pn g2)).
  assert (Hg' : g' = connect_person_to_org pn onm g4).
  { unfold g'. rewrite (bind_fields_resolved _ _ _ _ _ _ Hpn). cbv zeta.
    by rewrite (upsert_organization_resolved _ _ onm). }
  assert (H24 : extends g2 g4).
  { eapply extends_trans; [apply connect_record_to_person_extends|].
    apply connect_person_to_locations_extends. }
  destruct (merge_entity_has Person pn PERSON_ATTRS (field_param pfs) g)
    as (ip & ep & Hip & Hlp & Hnp).
  destruct (merge_entity_has Organization onm ORG_ATTRS (field_param ofs) g1)
    as (io & eo & Hio & Hlo & Hno).
  assert (Hp4 : entity_at g4 ip Person pn).
  { eapply entity_at_extends; [exact H24|].
    eapply entity_at_extends; [apply merge_entity_extends|]. by exists ep. }
  assert (Ho4 : entity_at g4 io Organization onm).
  { eapply entity_at_extends; [exact H24|]. by exists eo. }
  destruct (connect_entities_has pn Organization onm "ASSOCIATED_WITH_ORG" g4 ip io Hp4 Ho4)
    as (k & e & Hk & Hs & Ht & Hd & Hseen).
  exists ip, io, k, e. rewrite Hg'.
  split; [by eapply entity_at_extends; [apply connect_entities_extends|]|].
  split; [by eapply entity_at_extends; [apply connect_entities_extends|]|].
  do 4 (split; [done|]). by rewrite Hseen.
Qed.

End OrgBinding.

(** C9: for a row whose fields were extracted: when a person name is
    resolved, the Person node and the Record→Person relationship are in
    the store afterwards; when moreover no organization name is resolved
    (in particular when no organization field was extracted), every
    Organization node of the result was already there unchanged, no
    created relationship ends at an Organization node and the existing
    ones ending there are untouched; when both names are resolved the
    associated-with relationship from the Person to the Organization is
    in the store, last seen at the row's final statement; and when no
    person name is resolved no relationship is created or changed. *)
Theorem organization_binding rules re_search idx cell desc fields g :
  clean_str (Some cell) = Some desc →
  extract_fields rules re_search desc = Ok fields →
  let pfs : gmap string string := default ∅ (fields !! "person") in
  let ofs : gmap string string := default ∅ (fields !! "organization") in
  let g' := (process_row rules re_search idx cell g).1 in
  (∀ pn, clean_str (pfs !! "name") = Some pn →
     ∃ ir ip, record_at g' ir (record_id_of rules idx)
              ∧ entity_at g' ip Person pn
              ∧ has_edge (RecordRef ir) "DESCRIBES" (EntityRef ip) g')
  ∧ (∀ pn, clean_str (pfs !! "name") = Some pn →
       clean_str (ofs !! "name") = None →
       (∀ i e, entities g' !! i = Some e → label e = Organization →
               entities g !! i = Some e)
       ∧ (∀ k e, edges g' !! k = Some e → length (edges g) ≤ k →
                 ¬ points_to Organization g' e)
       ∧ (∀ k e, edges g !! k = Some e → points_to Organization g e →
                 edges g' !! k = Some e))
  ∧ (∀ pn onm, clean_str (pfs !! "name") = Some pn →
       clean_str (ofs !! "name") = Some onm →
       ∃ ip io k e,
         entity_at g' ip Person pn ∧ entity_at g' io Organization onm
         ∧ edges g' !! k = Some e
         ∧ src e = EntityRef ip ∧ rel_type e = "ASSOCIATED_WITH_ORG"
         ∧ dst e = EntityRef io
         ∧ S (default 0 (last_seen e)) = clock g')
  ∧ (clean_str (pfs !! "name") = None → edges g' = edges g).
Proof.
  intros Hdesc Hfields pfs ofs g'.
  set (rid := record_id_of rules idx).
  set (g0 := upsert_record rules rid (idx + 1) desc g).
  assert (Hg' : g' = bind_fields rules rid pfs ofs g0).
  { unfold g', process_row. by rewrite Hdesc, Hfields. }
  rewrite Hg'. split; [|split; [|split]].
  - intros pn Hpn. apply bind_fields_describes; [done|].
    apply upsert_record_has.
  - intros pn Hpn Hon.
    destruct (bind_fields_without_org rules rid pn pfs ofs g0 Hpn Hon)
      as (Horg & Hnew & Hold).
    split; [|split]; [exact Horg|exact Hnew|].
    intros k e Hk Hpt. apply Hold; [done|].
    eapply points_to_extends; [apply upsert_record_extends|done].
  - intros pn onm Hpn Hon. by apply bind_fields_with_org.
  - intros Hnone. rewrite bind_fields_unresolved by done.
    by rewrite (proj2 (upsert_organization_frame _ _)).
Qed.

Lemma organization_binding_witness :
  let g' := (process_row demo_rules mini_search 0
               "NAME: Jane Roe; Citizenship: USA; Departure: JFK" empty_graph).1 in
  (∃ ir ip, record_at g' ir "DESC_1" ∧ entity_at g' ip Person "Jane Roe"
            ∧ has_edge (RecordRef ir) "DESCRIBES" (EntityRef ip) g')
  ∧ (∀ i e, entities g' !! i = Some e → label e = Organization →
            entities empty_graph !! i = Some e).
Proof.
  intros g'.
  destruct (organization_binding demo_rules mini_search 0
              "NAME: Jane Roe; Citizenship: USA; Departure: JFK"
              "NAME: Jane Roe; Citizenship: USA; Departure: JFK"
              (<["organization" := ∅]>
                 (<["person" := list_to_map [ ("name", "Jane Roe");
                                              ("citizenship", "USA");
                                              ("departure_location", "JFK") ]]> ∅))
              empty_graph)
    as (Hdesc & Hnoorg & _ & _).
  - vm_compute. reflexivity.
  - vm_compute. reflexivity.
  - split.
    + apply (Hdesc "Jane Roe"). vm_compute. reflexivity.
    + apply (Hnoorg "Jane Roe"); vm_compute; reflexivity.
Defined.

(* ================================================================== *)
(** ** The loop as a sequence of statements *)

Section Statements.
Variable rules : RuleSet.
Variable re_search : RegexEngine.

Lemma exec_organization_stmts ofs g :
  foldl (exec rules) g (entity_stmts Organization ORG_ATTRS ofs)
  = (upsert_organization ofs g).1.
Proof.
  unfold entity_stmts, upsert_organization. by destruct (clean_str _).
Qed.

Lemma exec_location_stmts pn pfs map : ∀ g,
  foldl (exec rules) g (map ≫= location_stmts pn pfs)
  = foldl (connect_location pn pfs) g map.
Proof.
  induction map as [|entry map IH]; intros g; [done|].
  rewrite bind_cons, foldl_app, IH. simpl. f_equal.
  unfold location_stmts, connect_location.
  destruct (clean_str (pfs !! entry.1)) as [loc|] eqn:Hloc; [|done]. simpl.
  by rewrite upsert_location_nonempty by (by eapply clean_str_nonempty).
Qed.

Lemma exec_bind_stmts rid pfs ofs g :
  foldl (exec rules) g (bind_stmts rules rid pfs ofs)
  = bind_fields rules rid pfs ofs g.
Proof.
  unfold bind_stmts.
  destruct (clean_str (pfs !! "name")) as [pn|] eqn:Hpn.
  - rewrite (bind_fields_resolved _ _ _ _ _ _ Hpn). cbv zeta.
    cbn [foldl exec]. rewrite foldl_app, exec_organization_stmts.
    cbn [foldl exec]. rewrite foldl_app, exec_location_stmts.
    unfold connect_person_to_locations.
    destruct (clean_str (ofs !! "name")) as [onm|] eqn:Hon.
    + by rewrite !(upsert_organization_resolved _ _ onm).
    + by rewrite !upsert_organization_unresolved.
  - rewrite bind_fields_unresolved by done. apply exec_organization_stmts.
Qed.

Lemma exec_row_stmts idx cell g :
  process_row rules re_search idx cell g
  = (foldl (exec rules) g (row_stmts rules re_search idx cell).1,
     (row_stmts rules re_search idx cell).2).
Proof.
  unfold process_row, row_stmts.
  destruct (clean_str (Some cell)) as [desc|]; [|done].
  destruct (extract_fields rules re_search desc) as [fields|e]; [|done].
  simpl. by rewrite exec_bind_stmts.
Qed.

Lemma exec_rows_stmts df : ∀ g,
  process_rows rules re_search df g
  = (foldl (exec rules) g (rows_stmts rules re_search df).1,
     (rows_stmts rules re_search df).2).
Proof.
  induction df as [|[idx cell] df IH]; intros g; [done|].
  simpl. rewrite exec_row_stmts.
  destruct (row_stmts rules re_search idx cell) as [ss [e|]]; simpl; [done|].
  rewrite IH. destruct (rows_stmts rules re_search df) as [ss' e']. simpl.
  by rewrite foldl_app.
Qed.

End Statements.

(* ================================================================== *)
(** ** A statement the store has absorbed changes stamps only *)

Lemma fmap_merge_absorbed {A B} (er : A → B) m c f (l : list A) :
  existsb m l = true →
  (∀ x, x ∈ l → m x = true → er (f x) = er x) →
  er <$> merge m c f l = er <$> l.
Proof.
  intros Hex Hsame. rewrite merge_matched by done.
  rewrite <- list_fmap_compose. apply list_fmap_ext.
  intros i x Hi. simpl. destruct (m x) eqn:Hm; [|done].
  apply Hsame; [by eapply list_elem_of_lookup_2|done].
Qed.

Lemma has_record_existsb rid g :
  has_record rid g → existsb (is_record rid) (records g) = true.
Proof.
  intros (i & r & Hi & Hid).
  eapply existsb_of_elem; [by eapply list_elem_of_lookup_2|].
  by apply bool_decide_eq_true.
Qed.

Lemma has_entity_existsb l name g :
  has_entity l name g → existsb (is_entity l name) (entities g) = true.
Proof.
  intros (i & e & Hi & Hl & Hn).
  eapply existsb_of_elem; [by eapply list_elem_of_lookup_2|].
  by apply bool_decide_eq_true.
Qed.

Lemma has_edge_existsb s t d g :
  has_edge s t d g → existsb (is_edge s t d) (edges g) = true.
Proof.
  intros (k & e & Hk & Hs & Ht & Hd).
  eapply existsb_of_elem; [by eapply list_elem_of_lookup_2|].
  by apply bool_decide_eq_true.
Qed.

Lemma coalesce_props_saturated attrs params (pr : gmap string string) :
  (∀ a, a ∈ attrs → is_Some (params a) → is_Some (pr !! a)) →
  coalesce_props attrs params pr = pr.
Proof.
  intros Hsat. apply map_eq. intros a. rewrite coalesce_props_lookup.
  case_decide as Hin; [|done].
  destruct (pr !! a) as [v|] eqn:Hpr; [done|]. simpl.
  destruct (params a) as [w|] eqn:Hw; [|done].
  destruct (Hsat a Hin) as [v Hv]; [by eexists|]. congruence.
Qed.

Lemma foldl_describes_absorbed rows : ∀ es,
  (∀ row, row ∈ rows →
     existsb (is_edge (RecordRef row.1) "DESCRIBES" (EntityRef row.2)) es = true) →
  foldl merge_describes es rows = es.
Proof.
  induction rows as [|row rows IH]; intros es Hall; simpl; [done|].
  assert (Hrow : merge_describes es row = es).
  { unfold merge_describes. rewrite merge_matched by (apply Hall; left).
    rewrite <- (list_fmap_id es) at 2. apply list_fmap_ext.
    intros i x _. by destruct (is_edge _ _ _ x). }
  rewrite Hrow. apply IH. intros r Hr. apply Hall. by right.
Qed.

Lemma existsb_fmap_key {A} (m : A → bool) (h : A → A) (l : list A) :
  (∀ x, m (h x) = m x) → existsb m (h <$> l) = existsb m l.
Proof.
  intros Hkey. induction l as [|x l IH]; [done|].
  rewrite fmap_cons. cbn [existsb]. by rewrite Hkey, IH.
Qed.

Lemma foldl_stamped_absorbed_length now t rows : ∀ es,
  (∀ row, row ∈ rows →
     existsb (is_edge (EntityRef row.1) t (EntityRef row.2)) es = true) →
  length (foldl (merge_stamped_edge now t) es rows) = length es.
Proof.
  induction rows as [|row rows IH]; intros es Hall; simpl; [done|].
  assert (Hex : existsb (is_edge (EntityRef row.1) t (EntityRef row.2)) es = true)
    by (apply Hall; left).
  rewrite IH.
  - unfold merge_stamped_edge. by rewrite merge_length, Hex.
  - intros r Hr. unfold merge_stamped_edge. rewrite merge_matched by done.
    rewrite existsb_fmap_key; [apply Hall; by right|].
    intros x. by destruct (is_edge (EntityRef row.1) t (EntityRef row.2) x).
Qed.

Lemma erase_touch_edge now e :
  is_Some (last_seen e) → erase_edge (touch_edge now e) = erase_edge e.
Proof. intros [v Hv]. unfold erase_edge, touch_edge; simpl. by rewrite Hv. Qed.

Lemma foldl_stamped_absorbed now t rows es :
  (∀ row, row ∈ rows →
     existsb (is_edge (EntityRef row.1) t (EntityRef row.2)) es = true) →
  (∀ e i, e ∈ es → src e = EntityRef i → is_Some (last_seen e)) →
  erase_edge <$> foldl (merge_stamped_edge now t) es rows = erase_edge <$> es.
Proof.
  intros Hall Hstamped. apply list_eq. intros k.
  rewrite !list_lookup_fmap.
  destruct (es !! k) as [e|] eqn:Hk.
  - rewrite (foldl_stamped_old _ _ _ _ _ _ Hk). simpl. f_equal.
    destruct (row_of_stamped t rows e) eqn:Hrow; [|done].
    apply row_of_stamped_spec in Hrow as (_ & i & j & _ & Hs & _).
    apply erase_touch_edge. eapply Hstamped; [|done].
    by eapply list_elem_of_lookup_2.
  - rewrite (lookup_ge_None_2 (foldl _ _ _)); [done|].
    rewrite foldl_stamped_absorbed_length by done. by apply lookup_ge_None.
Qed.

Section Absorb.
Variable rules : RuleSet.

Lemma absorbed_erase s g :
  stamped_edges g → absorbed s g → erase (exec rules g s) = erase g.
Proof.
  intros Hst Habs. destruct s as [rid row desc|l name attrs params|rid pn|pn l onm t];
    unfold erase; simpl; f_equal.
  - destruct Habs as [Hhas Hdesc].
    apply fmap_merge_absorbed; [by apply has_record_existsb|].
    intros r Hr Hm. apply bool_decide_eq_true in Hm.
    unfold erase_record, touch_record; simpl. by rewrite (Hdesc r Hr Hm).
  - destruct Habs as [Hhas Hsat].
    apply fmap_merge_absorbed; [by apply has_entity_existsb|].
    intros e He Hm. apply bool_decide_eq_true in Hm as [Hl Hn].
    unfold erase_entity, touch_entity; simpl.
    by rewrite coalesce_props_saturated by (by apply Hsat).
  - destruct Habs as (_ & _ & Hedges). f_equal.
    apply foldl_describes_absorbed. intros [ir ip] Hrow.
    apply elem_of_match_rows in Hrow as [Hir Hip].
    apply match_ids_record_at in Hir. apply match_ids_entity_at in Hip.
    by apply has_edge_existsb, Hedges.
  - destruct Habs as (_ & _ & Hedges).
    apply foldl_stamped_absorbed; [|exact Hst].
    intros [ip io] Hrow. apply elem_of_match_rows in Hrow as [Hip Hio].
    apply match_ids_entity_at in Hip, Hio.
    by apply has_edge_existsb, Hedges.
Qed.

End Absorb.

Lemma foldl_set_prop_lookup params attrs : ∀ (pr : gmap string string) a,
  foldl (λ pr a, set_prop a (params a) pr) pr attrs !! a
  = if decide (a ∈ attrs) then params a else pr !! a.
Proof.
  induction attrs as [|x attrs IH]; intros pr a.
  - by rewrite decide_False by apply not_elem_of_nil.
  - cbn [foldl]. rewrite IH, set_prop_lookup.
    destruct (decide (a ∈ attrs)) as [Hin|Hnin].
    + by rewrite decide_True by (by right).
    + destruct (decide (x = a)) as [->|Hne].
      * by rewrite decide_True by left.
      * rewrite decide_False; [done|]. intros [?|?]%elem_of_cons; congruence.
Qed.

Lemma create_props_saturated name attrs params a :
  a ∈ attrs → is_Some (params a) → is_Some (create_props name attrs params !! a).
Proof.
  intros Hin Hsome. unfold create_props.
  rewrite set_prop_lookup. case_decide; [by eexists|].
  by rewrite foldl_set_prop_lookup, decide_True.
Qed.

Section Absorption.
Variable rules : RuleSet.

(** A statement that found its nodes is absorbed by the store it leaves. *)
Lemma exec_absorbed s g : ready s g → absorbed s (exec rules g s).
Proof.
  destruct s as [rid row desc|l name attrs params|rid pn|pn l onm t]; simpl.
  - intros _. split; [apply upsert_record_has|].
    intros r Hr Hid. apply list_elem_of_lookup in Hr as [i Hi].
    simpl in Hi. apply merge_lookup_inv in Hi as [(x & Hx & ->)|(_ & _ & ->)]; [|done].
    destruct (is_record rid x) eqn:Hm; [done|].
    apply bool_decide_eq_false in Hm. by destruct Hm.
  - intros _. split; [apply merge_entity_has|].
    intros e He Hl Hn a Ha Hsome. apply list_elem_of_lookup in He as [i Hi].
    simpl in Hi. apply merge_lookup_inv in Hi as [(x & Hx & ->)|(_ & _ & ->)].
    + destruct (is_entity l name x) eqn:Hm.
      * simpl. rewrite coalesce_props_lookup, decide_True by done.
        destruct Hsome as [v ->]. destruct (props x !! a); by eexists.
      * apply bool_decide_eq_false in Hm. by destruct Hm.
    + simpl. by apply create_props_saturated.
  - intros [Hr Hp]. split; [done|]. split; [done|].
    intros ir ip Hir Hip. by apply connect_record_to_person_has.
  - intros [Hp Ho]. split; [done|]. split; [done|].
    intros ip io Hip Hio.
    destruct (connect_entities_has pn l onm t g ip io Hip Hio)
      as (k & e & Hk & Hs & Ht & Hd & _).
    by exists k, e.
Qed.

Lemma upsert_record_record_at_inv rid' row desc g rid i :
  has_record rid g →
  record_at (upsert_record rules rid' row desc g) i rid →
  record_at g i rid.
Proof.
  intros Hhas (r & Hi & Hid). simpl in Hi.
  apply merge_lookup_inv in Hi as [(x & Hx & ->)|(Hex & _ & ->)].
  - exists x. split; [done|]. by destruct (is_record rid' x).
  - simpl in Hid. subst rid'. by rewrite has_record_existsb in Hex.
Qed.

Lemma merge_entity_entity_at_inv l' name' attrs params g l name i :
  has_entity l name g →
  entity_at (merge_entity l' name' attrs params g) i l name →
  entity_at g i l name.
Proof.
  intros Hhas (e & Hi & Hl & Hn). simpl in Hi.
  apply merge_lookup_inv in Hi as [(x & Hx & ->)|(Hex & _ & ->)].
  - exists x. split; [done|]. by destruct (is_entity l' name' x).
  - simpl in Hl, Hn. subst l' name'. by rewrite has_entity_existsb in Hex.
Qed.

(** Later statements leave an absorbed statement absorbed. *)
Lemma absorbed_preserved s s' g :
  compatible s s' → absorbed s g → absorbed s (exec rules g s').
Proof.
  intros Hcompat Habs.
  destruct s' as [rid' row' desc'|l' name' attrs' params'|rid' pn'|pn' l' onm' t'].
  - (* a record upsert *)
    pose proof (upsert_record_extends rules rid' row' desc' g) as Hext.
    destruct s as [rid row desc|l name attrs params|rid pn|pn l onm t];
      simpl in Habs |- *.
    + destruct Habs as [Hhas Hdesc]. split; [by eapply has_record_extends|].
      intros r Hr Hid. apply list_elem_of_lookup in Hr as [i Hi].
      simpl in Hi. apply merge_lookup_inv in Hi as [(x & Hx & ->)|(_ & _ & ->)].
      * destruct (is_record rid' x) eqn:Hm.
        -- apply bool_decide_eq_true in Hm. simpl in *. symmetry. apply Hcompat.
           congruence.
        -- apply Hdesc; [by eapply list_elem_of_lookup_2|done].
      * simpl in *. symmetry. by apply Hcompat.
    + done.
    + destruct Habs as (Hr & Hp & Hedges).
      split; [by eapply has_record_extends|]. split; [done|].
      intros ir ip Hir Hip. apply upsert_record_record_at_inv in Hir; [|done].
      by apply Hedges.
    + done.
  - (* an entity upsert *)
    pose proof (merge_entity_extends l' name' attrs' params' g) as Hext.
    destruct s as [rid row desc|l name attrs params|rid pn|pn l onm t];
      simpl in Habs |- *.
    + done.
    + destruct Habs as [Hhas Hsat]. split; [by eapply has_entity_extends|].
      intros e He Hl Hn a Ha Hsome. apply list_elem_of_lookup in He as [i Hi].
      simpl in Hi. apply merge_lookup_inv in Hi as [(x & Hx & ->)|(Hex & _ & ->)].
      * assert (Hx' : is_Some (props x !! a)).
        { apply Hsat; [by eapply list_elem_of_lookup_2| | |done|done];
            by destruct (is_entity l' name' x). }
        destruct (is_entity l' name' x); [|done]. simpl.
        destruct Hx' as [v Hv]. exists v. by apply coalesce_keeps.
      * simpl in Hl, Hn. subst l' name'. by rewrite has_entity_existsb in Hex.
    + destruct Habs as (Hr & Hp & Hedges).
      split; [done|]. split; [by eapply has_entity_extends|].
      intros ir ip Hir Hip. apply merge_entity_entity_at_inv in Hip; [|done].
      by apply Hedges.
    + destruct Habs as (Hp & Ho & Hedges).
      split; [by eapply has_entity_extends|]. split; [by eapply has_entity_extends|].
      intros ip io Hip Hio.
      apply merge_entity_entity_at_inv in Hip; [|done].
      apply merge_entity_entity_at_inv in Hio; [|done].
      by apply Hedges.
  - (* the Record→Person statement *)
    pose proof (connect_record_to_person_extends rid' pn' g) as Hext.
    destruct s as [rid row desc|l name attrs params|rid pn|pn l onm t];
      simpl in Habs |- *; [done|done| |].
    + destruct Habs as (Hr & Hp & Hedges). split; [done|]. split; [done|].
      intros ir ip Hir Hip. eapply has_edge_extends; [exact Hext|]. by apply Hedges.
    + destruct Habs as (Hp & Ho & Hedges). split; [done|]. split; [done|].
      intros ip io Hip Hio. eapply has_edge_extends; [exact Hext|]. by apply Hedges.
  - (* a stamped relationship statement *)
    pose proof (connect_entities_extends pn' l' onm' t' g) as Hext.
    destruct s as [rid row desc|l name attrs params|rid pn|pn l onm t];
      simpl in Habs |- *; [done|done| |].
    + destruct Habs as (Hr & Hp & Hedges). split; [done|]. split; [done|].
      intros ir ip Hir Hip. eapply has_edge_extends; [exact Hext|]. by apply Hedges.
    + destruct Habs as (Hp & Ho & Hedges). split; [done|]. split; [done|].
      intros ip io Hip Hio. eapply has_edge_extends; [exact Hext|]. by apply Hedges.
Qed.

Lemma stamped_edges_exec s g : stamped_edges g → stamped_edges (exec rules g s).
Proof.
  intros Hst. destruct s as [rid row desc|l name attrs params|rid pn|pn l onm t];
    [done|done| |]; intros e i He Hsrc; apply list_elem_of_lookup in He as [k Hk].
  - change (edges (connect_record_to_person rid pn g) !! k = Some e) in Hk.
    destruct (decide (length (edges g) ≤ k)) as [Hge|Hlt].
    + destruct (connect_record_to_person_new _ _ _ _ _ Hk Hge) as (ir & ip & -> & _).
      discriminate Hsrc.
    + destruct (lookup_lt_is_Some_2 (edges g) k) as [e0 He0]; [lia|].
      rewrite (connect_record_to_person_old _ _ _ _ _ He0) in Hk.
      injection Hk as <-. eapply Hst; [by eapply list_elem_of_lookup_2|done].
  - simpl in Hk.
    destruct (decide (length (edges g) ≤ k)) as [Hge|Hlt].
    + destruct (foldl_stamped_new _ _ _ _ _ _ Hk Hge) as (row0 & _ & ->).
      by eexists.
    + destruct (lookup_lt_is_Some_2 (edges g) k) as [e0 He0]; [lia|].
      rewrite (foldl_stamped_old _ _ _ _ _ _ He0) in Hk. injection Hk as <-.
      destruct (row_of_stamped _ _ e0); [by eexists|].
      eapply Hst; [by eapply list_elem_of_lookup_2|done].
Qed.

Lemma stamped_edges_run ss : ∀ g,
  stamped_edges g → stamped_edges (foldl (exec rules) g ss).
Proof.
  induction ss as [|s ss IH]; intros g Hst; simpl; [done|].
  by apply IH, stamped_edges_exec.
Qed.

Lemma reachable_stamped_edges g : reachable rules g → stamped_edges g.
Proof.
  induction 1 as [|rid row desc g _ IH|fields g _ IH|fields g _ IH|name g _ IH
                  |rid pn g _ IH|pn onm g _ IH|pn loc t g _ IH].
  - intros e i He. by apply elem_of_nil in He.
  - done.
  - unfold upsert_person. by destruct (clean_str _).
  - unfold upsert_organization. by destruct (clean_str _).
  - unfold upsert_location. by destruct (nonempty _).
  - apply (stamped_edges_exec (SDescribes rid pn)). done.
  - apply (stamped_edges_exec (SConnect pn Organization onm "ASSOCIATED_WITH_ORG")). done.
  - apply (stamped_edges_exec (SConnect pn Location loc t)). done.
Qed.

End Absorption.

(* ================================================================== *)
(** ** Running a sequence of statements twice *)

Lemma elem_of_middle {A} (x a : A) (l1 l2 : list A) :
  x ∈ (a :: l1) ++ l2 ↔ x ∈ l1 ++ a :: l2.
Proof.
  rewrite <- app_comm_cons, elem_of_cons, !elem_of_app, elem_of_cons. tauto.
Qed.

Section Rerun.
Variable rules : RuleSet.

Lemma requires_ready seen s g :
  requires seen s → (∀ s0, s0 ∈ seen → absorbed s0 g) → ready s g.
Proof.
  intros Hreq Hseen.
  destruct s as [rid row desc|l name attrs params|rid pn|pn l onm t]; simpl; [done|done| |].
  - destruct Hreq as [(row & desc & Hr) (attrs & params & Hp)].
    split; [by destruct (Hseen _ Hr)|by destruct (Hseen _ Hp)].
  - destruct Hreq as [(attrs & params & Hp) (attrs' & params' & Ho)].
    split; [by destruct (Hseen _ Hp)|by destruct (Hseen _ Ho)].
Qed.

Lemma requires_mono seen seen' s :
  (∀ s0, s0 ∈ seen → s0 ∈ seen') → requires seen s → requires seen' s.
Proof.
  intros Hsub.
  destruct s as [rid row desc|l name attrs params|rid pn|pn l onm t]; simpl; [done|done| |].
  - intros [(row & desc & Hr) (attrs & params & Hp)]. split; eauto.
  - intros [(attrs & params & Hp) (attrs' & params' & Ho)]. split; eauto.
Qed.

Lemma ordered_mono ss : ∀ seen seen',
  (∀ s0, s0 ∈ seen → s0 ∈ seen') → ordered seen ss → ordered seen' ss.
Proof.
  induction ss as [|s ss IH]; intros seen seen' Hsub; simpl; [done|].
  intros [Hreq Hord]. split; [by eapply requires_mono|].
  eapply IH; [|exact Hord].
  intros s0 [->|Hin]%elem_of_cons; [left|right; auto].
Qed.

Lemma ordered_app ss1 : ∀ seen ss2,
  ordered seen ss1 → ordered (reverse ss1 ++ seen) ss2 → ordered seen (ss1 ++ ss2).
Proof.
  induction ss1 as [|s ss1 IH]; intros seen ss2 H1 H2; simpl in *; [done|].
  destruct H1 as [Hreq H1]. split; [done|]. apply IH; [done|].
  by rewrite reverse_cons, <- app_assoc in H2.
Qed.

(** After the run every statement of the sequence is absorbed. *)
Lemma run_absorbs ss : ∀ seen g,
  ordered seen ss →
  (∀ s s', s ∈ seen ++ ss → s' ∈ seen ++ ss → compatible s s') →
  (∀ s, s ∈ seen → absorbed s g) →
  ∀ s, s ∈ seen ++ ss → absorbed s (foldl (exec rules) g ss).
Proof.
  induction ss as [|s0 ss IH]; intros seen g Hord Hcompat Hseen s Hs.
  - rewrite app_nil_r in Hs. by apply Hseen.
  - destruct Hord as [Hreq Hord]. cbn [foldl].
    apply (IH (s0 :: seen)); [done| | |].
    + intros s1 s2 H1 H2. apply Hcompat; by apply elem_of_middle.
    + intros s1 [->|H1]%elem_of_cons.
      * apply exec_absorbed. by eapply requires_ready.
      * apply absorbed_preserved; [|by apply Hseen].
        apply Hcompat; apply elem_of_app; [by left|right; left].
    + by apply elem_of_middle.
Qed.

(** Running absorbed statements changes stamps only. *)
Lemma rerun_absorbed ss : ∀ (all : list Stmt) g,
  (∀ s, s ∈ ss → s ∈ all) →
  (∀ s s', s ∈ all → s' ∈ all → compatible s s') →
  stamped_edges g →
  (∀ s, s ∈ all → absorbed s g) →
  erase (foldl (exec rules) g ss) = erase g.
Proof.
  induction ss as [|s0 ss IH]; intros all g Hsub Hcompat Hst Habs; [done|].
  cbn [foldl]. rewrite (IH all).
  - apply absorbed_erase; [done|]. apply Habs, Hsub. left.
  - intros s Hs. apply Hsub. by right.
  - done.
  - by apply stamped_edges_exec.
  - intros s Hs. apply absorbed_preserved; [|by apply Habs].
    apply Hcompat; [done|]. apply Hsub. left.
Qed.

Lemma rerun_erase ss g :
  ordered [] ss →
  (∀ s s', s ∈ ss → s' ∈ ss → compatible s s') →
  stamped_edges g →
  erase (foldl (exec rules) (foldl (exec rules) g ss) ss)
  = erase (foldl (exec rules) g ss).
Proof.
  intros Hord Hcompat Hst.
  apply (rerun_absorbed ss ss); [done|done|by apply stamped_edges_run|].
  intros s Hs. apply (run_absorbs ss [] g); try done.
  intros s0 Hs0. by apply elem_of_nil in Hs0.
Qed.

End Rerun.

(* ================================================================== *)
(** ** The statements of a sheet *)

Lemma append_inj_r (p a b : string) : p +:+ a = p +:+ b → a = b.
Proof. induction p as [|c p IH]; simpl; [done|]. intros [= H]. by apply IH. Qed.

Lemma record_id_of_inj rules i j :
  record_id_of rules i = record_id_of rules j → i = j.
Proof.
  unfold record_id_of. intros H%append_inj_r.
  apply (inj pretty) in H. lia.
Qed.

Lemma number_rows_ge sheet : ∀ k idx cell,
  (idx, cell) ∈ number_rows k sheet → k ≤ idx.
Proof.
  induction sheet as [|c sheet IH]; intros k idx cell Hin; simpl in Hin.
  - by apply elem_of_nil in Hin.
  - destruct c as [d|].
    + apply elem_of_cons in Hin as [[= -> ->]|Hin]; [lia|].
      apply IH in Hin. lia.
    + apply IH in Hin. lia.
Qed.

Lemma number_rows_functional sheet : ∀ k idx c1 c2,
  (idx, c1) ∈ number_rows k sheet → (idx, c2) ∈ number_rows k sheet → c1 = c2.
Proof.
  induction sheet as [|c sheet IH]; intros k idx c1 c2 H1 H2; simpl in *.
  - by apply elem_of_nil in H1.
  - destruct c as [d|]; [|by eapply IH].
    apply elem_of_cons in H1 as [E1|H1]; apply elem_of_cons in H2 as [E2|H2].
    + congruence.
    + injection E1 as -> ->. apply number_rows_ge in H2. lia.
    + injection E2 as -> ->. apply number_rows_ge in H1. lia.
    + by eapply IH.
Qed.

Section SheetStatements.
Variable rules : RuleSet.
Variable re_search : RegexEngine.

Lemma ordered_entity_stmts seen l attrs fields :
  ordered seen (entity_stmts l attrs fields).
Proof. unfold entity_stmts. by destruct (clean_str _). Qed.

Lemma ordered_location_stmts pn pfs map : ∀ seen,
  (∃ attrs params, SEntity Person pn attrs params ∈ seen) →
  ordered seen (map ≫= location_stmts pn pfs).
Proof.
  induction map as [|entry map IH]; intros seen Hp; [done|].
  rewrite bind_cons. unfold location_stmts at 1.
  destruct (clean_str (pfs !! entry.1)) as [loc|]; [|by apply IH].
  destruct Hp as (attrs & params & Hp). simpl.
  split; [done|]. split.
  - split; [exists attrs, params; by right|].
    exists [], (λ _, None). left.
  - apply IH. exists attrs, params. by do 2 right.
Qed.

Lemma ordered_bind_stmts seen rid pfs ofs :
  (∃ row desc, SRecord rid row desc ∈ seen) →
  ordered seen (bind_stmts rules rid pfs ofs).
Proof.
  intros (row & desc & Hrec). unfold bind_stmts.
  destruct (clean_str (pfs !! "name")) as [pn|]; [|apply ordered_entity_stmts].
  set (person := SEntity Person pn PERSON_ATTRS (field_param pfs)).
  cbn [ordered]. split; [done|].
  apply ordered_app; [apply ordered_entity_stmts|].
  cbn [ordered]. split.
  { split.
    - exists row, desc. apply elem_of_app. right. by right.
    - exists PERSON_ATTRS, (field_param pfs). apply elem_of_app. right. left. }
  apply ordered_app.
  { apply ordered_location_stmts. exists PERSON_ATTRS, (field_param pfs).
    right. apply elem_of_app. right. left. }
  unfold entity_stmts.
  destruct (clean_str (ofs !! "name")) as [onm|]; [|done].
  cbn [ordered]. split; [|done]. split.
  - exists PERSON_ATTRS, (field_param pfs).
    apply elem_of_app. right. right. apply elem_of_app. right. left.
  - exists ORG_ATTRS, (field_param ofs).
    apply elem_of_app. right. right. apply elem_of_app. left.
    apply elem_of_reverse. left.
Qed.

Lemma ordered_row_stmts seen idx cell :
  ordered seen (row_stmts rules re_search idx cell).1.
Proof.
  unfold row_stmts. destruct (clean_str (Some cell)) as [desc|]; [|done].
  destruct (extract_fields rules re_search desc) as [fields|e]; [|done].
  cbn [fst ordered]. split; [done|].
  apply ordered_bind_stmts. eexists _, _. left.
Qed.

Lemma ordered_rows_stmts df : ∀ seen,
  ordered seen (rows_stmts rules re_search df).1.
Proof.
  induction df as [|[idx cell] df IH]; intros seen; [done|]. simpl.
  pose proof (ordered_row_stmts seen idx cell) as Hrow.
  destruct (row_stmts rules re_search idx cell) as [ss [e|]]; [done|].
  specialize (IH (reverse ss ++ seen)).
  destruct (rows_stmts rules re_search df) as [ss' e']. simpl in *.
  by apply ordered_app.
Qed.

Lemma bind_stmts_no_record rid pfs ofs s :
  s ∈ bind_stmts rules rid pfs ofs → is_record_stmt s = false.
Proof.
  assert (Hent : ∀ l attrs fields, s ∈ entity_stmts l attrs fields →
                                   is_record_stmt s = false).
  { intros l attrs fields. unfold entity_stmts.
    destruct (clean_str _); [|by intros ?%elem_of_nil].
    by intros ->%list_elem_of_singleton. }
  unfold bind_stmts. destruct (clean_str (pfs !! "name")) as [pn|]; [|apply Hent].
  intros [->|Hin]%elem_of_cons; [done|].
  apply elem_of_app in Hin as [Hin|Hin]; [by eapply Hent|].
  apply elem_of_cons in Hin as [->|Hin]; [done|].
  apply elem_of_app in Hin as [Hin|Hin].
  - apply list_elem_of_bind in Hin as (entry & Hin & _).
    unfold location_stmts in Hin.
    destruct (clean_str _); [|by apply elem_of_nil in Hin].
    apply elem_of_cons in Hin as [->|Hin]; [done|].
    by apply list_elem_of_singleton in Hin as ->.
  - destruct (clean_str (ofs !! "name")); [|by apply elem_of_nil in Hin].
    by apply list_elem_of_singleton in Hin as ->.
Qed.

Lemma row_stmts_record idx cell rid row desc :
  SRecord rid row desc ∈ (row_stmts rules re_search idx cell).1 →
  rid = record_id_of rules idx ∧ clean_str (Some cell) = Some desc.
Proof.
  unfold row_stmts. destruct (clean_str (Some cell)) as [d|]; [|by intros ?%elem_of_nil].
  destruct (extract_fields rules re_search d) as [fields|e]; cbn [fst].
  - intros [[= -> _ ->]|Hin]%elem_of_cons; [done|].
    by apply bind_stmts_no_record in Hin.
  - by intros [= -> _ ->]%list_elem_of_singleton.
Qed.

Lemma rows_stmts_record df : ∀ rid row desc,
  SRecord rid row desc ∈ (rows_stmts rules re_search df).1 →
  ∃ idx cell, (idx, cell) ∈ df ∧ rid = record_id_of rules idx
              ∧ clean_str (Some cell) = Some desc.
Proof.
  induction df as [|[idx cell] df IH]; intros rid row desc Hin.
  - by apply elem_of_nil in Hin.
  - simpl in Hin.
    pose proof (row_stmts_record idx cell rid row desc) as Hrow.
    destruct (row_stmts rules re_search idx cell) as [ss [e|]]; cbn [fst] in *.
    + destruct (Hrow Hin) as [? ?]. exists idx, cell. split; [left|done].
    + destruct (rows_stmts rules re_search df) as [ss' e'] eqn:Hrest.
      cbn [fst] in *. apply elem_of_app in Hin as [Hin|Hin].
      * destruct (Hrow Hin) as [? ?]. exists idx, cell. split; [left|done].
      * destruct (IH rid row desc Hin) as (i & c & Hic & Hrest').
        exists i, c. split; [by right|done].
Qed.

Lemma rows_stmts_compatible df s s' :
  (∀ idx c1 c2, (idx, c1) ∈ df → (idx, c2) ∈ df → c1 = c2) →
  s ∈ (rows_stmts rules re_search df).1 →
  s' ∈ (rows_stmts rules re_search df).1 →
  compatible s s'.
Proof.
  intros Hfun Hs Hs'.
  destruct s as [rid row desc| | |]; [|done..].
  destruct s' as [rid' row' desc'| | |]; [|done..].
  simpl. intros <-.
  apply rows_stmts_record in Hs as (i & c & Hic & Hi & Hc).
  apply rows_stmts_record in Hs' as (i' & c' & Hic' & Hi' & Hc').
  rewrite Hi in Hi'. apply record_id_of_inj in Hi'. subst i'.
  rewrite (Hfun i c c' Hic Hic') in Hc. congruence.
Qed.

End SheetStatements.

Lemma erase_lengths g g' :
  erase g = erase g' →
  length (records g) = length (records g')
  ∧ length (entities g) = length (entities g')
  ∧ length (edges g) = length (edges g').
Proof.
  intros H. split; [|split].
  - rewrite <- (length_fmap erase_record (records g)),
            <- (length_fmap erase_record (records g')).
    change (length (records (erase g)) = length (records (erase g'))). by rewrite H.
  - rewrite <- (length_fmap erase_entity (entities g)),
            <- (length_fmap erase_entity (entities g')).
    change (length (entities (erase g)) = length (entities (erase g'))). by rewrite H.
  - rewrite <- (length_fmap erase_edge (edges g)),
            <- (length_fmap erase_edge (edges g')).
    change (length (edges (erase g)) = length (edges (erase g'))). by rewrite H.
Qed.

(** C1: processing the whole sheet a second time, against the store the
    first run left, takes every node and relationship to itself up to its
    [updated_at] or [last_seen] value: the stores after one run and after
    two runs are equal once those values and the clock are blanked, so no
    Record, Entity or relationship is added and the three counts are the
    same; the second run also ends the way the first did. *)
Theorem rerun_idempotent rules re_search sheet g0 :
  reachable rules g0 →
  let run1 := main rules re_search sheet g0 in
  let run2 := main rules re_search sheet run1.1 in
  erase run2.1 = erase run1.1
  ∧ length (records run2.1) = length (records run1.1)
  ∧ length (entities run2.1) = length (entities run1.1)
  ∧ length (edges run2.1) = length (edges run1.1)
  ∧ run2.2 = run1.2.
Proof.
  intros Hreach run1 run2. unfold run2, run1, main.
  rewrite !exec_rows_stmts. cbn [fst snd].
  set (ss := (rows_stmts rules re_search (load_descriptions sheet)).1).
  assert (Herase : erase (foldl (exec rules) (foldl (exec rules) g0 ss) ss)
                   = erase (foldl (exec rules) g0 ss)).
  { apply rerun_erase.
    - apply ordered_rows_stmts.
    - intros s s'. apply rows_stmts_compatible.
      intros idx c1 c2. apply number_rows_functional.
    - by eapply reachable_stamped_edges. }
  split; [done|]. by destruct (erase_lengths _ _ Herase) as (? & ? & ?).
Qed.

Lemma rerun_idempotent_witness :
  let run1 := main demo_rules mini_search john_sheet empty_graph in
  let run2 := main demo_rules mini_search john_sheet run1.1 in
  erase run2.1 = erase run1.1
  ∧ length (entities run2.1) = length (entities run1.1).
Proof.
  destruct (rerun_idempotent demo_rules mini_search john_sheet empty_graph)
    as (Herase & _ & Hent & _).
  - apply reach_empty.
  - split; [exact Herase|exact Hent].
Defined.

(* ================================================================== *)
(** ** Stripping *)

Lemma append_nil_l (t : string) : EmptyString +:+ t = t.
Proof. reflexivity. Qed.

Lemma append_cons c (s t : string) : String c s +:+ t = String c (s +:+ t).
Proof. reflexivity. Qed.

Section Strip.
Variable p : ascii → bool.

Lemma all_chars_app s t : all_chars p (s +:+ t) = all_chars p s && all_chars p t.
Proof.
  induction s as [|c s IH]; [done|].
  rewrite append_cons. simpl. by rewrite IH, andb_assoc.
Qed.

Lemma lstrip_split s : ∃ pre, s = pre +:+ lstrip p s ∧ all_chars p pre = true.
Proof.
  induction s as [|c s (pre & Hs & Hpre)]; simpl.
  - by exists EmptyString.
  - destruct (p c) eqn:Hc.
    + exists (String c pre). rewrite append_cons. simpl. rewrite Hc, Hpre.
      split; [by f_equal|done].
    + by exists EmptyString.
Qed.

Lemma lstrip_starts s : starts_with p (lstrip p s) = false.
Proof.
  induction s as [|c s IH]; simpl; [done|]. by destruct (p c) eqn:Hc; simpl.
Qed.

Lemma rstrip_split s : ∃ post, s = rstrip p s +:+ post ∧ all_chars p post = true.
Proof.
  induction s as [|c s (post & Hs & Hpost)]; simpl.
  - by exists EmptyString.
  - destruct (rstrip p s) as [|d r] eqn:Hr.
    + rewrite append_nil_l in Hs. subst post. destruct (p c) eqn:Hc.
      * exists (String c s). simpl. by rewrite Hc, Hpost.
      * by exists s.
    + exists post. split; [|done]. rewrite append_cons. by rewrite Hs at 1.
Qed.

Lemma rstrip_ends s : ends_with p (rstrip p s) = false.
Proof.
  induction s as [|c s IH]; simpl; [done|].
  destruct (rstrip p s) as [|d r] eqn:Hr.
  - by destruct (p c) eqn:Hc; simpl.
  - done.
Qed.

Lemma rstrip_starts s : starts_with p s = false → starts_with p (rstrip p s) = false.
Proof.
  destruct s as [|c s]; simpl; [done|]. intros Hc.
  destruct (rstrip p s); [by rewrite Hc|done].
Qed.

Lemma lstrip_fixed s : starts_with p s = false → lstrip p s = s.
Proof. destruct s as [|c s]; simpl; [done|]. by intros ->. Qed.

Lemma rstrip_fixed s : ends_with p s = false → rstrip p s = s.
Proof.
  induction s as [|c s IH]; simpl; [done|].
  destruct s as [|d s].
  - simpl. by intros ->.
  - intros He. by rewrite (IH He).
Qed.

Lemma lstrip_empty s : lstrip p s = EmptyString ↔ all_chars p s = true.
Proof.
  induction s as [|c s IH]; simpl; [done|].
  destruct (p c); simpl; [done|]. split; discriminate.
Qed.

Lemma rstrip_empty s : rstrip p s = EmptyString ↔ all_chars p s = true.
Proof.
  induction s as [|c s IH]; simpl; [done|].
  destruct (rstrip p s) as [|d r].
  - destruct (p c); simpl; [|by split]. split; intros _; [by apply IH|done].
  - split; [discriminate|].
    intros [_ Hs]%andb_true_iff. apply IH in Hs. discriminate Hs.
Qed.

(** What [strip] returns: the text between a stripped prefix and a
    stripped suffix, with no strippable character at either end. *)
Lemma strip_with_split s :
  ∃ pre post, s = pre +:+ strip_with p s +:+ post
              ∧ all_chars p pre = true ∧ all_chars p post = true.
Proof.
  unfold strip_with.
  destruct (lstrip_split s) as (pre & Hs & Hpre).
  destruct (rstrip_split (lstrip p s)) as (post & Ht & Hpost).
  exists pre, post. split; [|done]. by rewrite <- Ht.
Qed.

Lemma strip_with_ends s :
  starts_with p (strip_with p s) = false ∧ ends_with p (strip_with p s) = false.
Proof.
  unfold strip_with. split; [|apply rstrip_ends].
  apply rstrip_starts, lstrip_starts.
Qed.

Lemma strip_with_idempotent s : strip_with p (strip_with p s) = strip_with p s.
Proof.
  destruct (strip_with_ends s) as [Hstart Hend].
  unfold strip_with at 1. by rewrite lstrip_fixed, rstrip_fixed.
Qed.

Lemma strip_with_empty s : strip_with p s = EmptyString ↔ all_chars p s = true.
Proof.
  unfold strip_with. rewrite rstrip_empty.
  destruct (lstrip_split s) as (pre & Hs & Hpre).
  rewrite Hs at 2. rewrite all_chars_app, Hpre. done.
Qed.

End Strip.

Lemma nonempty_false s : nonempty s = false ↔ s = EmptyString.
Proof. by destruct s. Qed.

(** X1: a value [clean_str] returns is the input without a leading and a
    trailing run of whitespace; it is not empty and neither starts nor
    ends with whitespace. *)
Theorem clean_str_result v r :
  clean_str v = Some r →
  ∃ raw pre post,
    v = Some raw ∧ raw = pre +:+ r +:+ post
    ∧ all_chars is_space pre = true ∧ all_chars is_space post = true
    ∧ nonempty r = true
    ∧ starts_with is_space r = false ∧ ends_with is_space r = false.
Proof.
  destruct v as [raw|]; simpl; [|done].
  destruct (nonempty (py_strip raw)) eqn:Hne; [|done]. intros [= <-].
  destruct (strip_with_split is_space raw) as (pre & post & Hraw & Hpre & Hpost).
  destruct (strip_with_ends is_space raw) as [Hstart Hend].
  exists raw, pre, post. done.
Qed.

Lemma clean_str_result_witness :
  ∃ raw pre post,
    Some "  Jane Roe " = Some raw ∧ raw = pre +:+ "Jane Roe" +:+ post
    ∧ all_chars is_space pre = true ∧ all_chars is_space post = true
    ∧ nonempty "Jane Roe" = true
    ∧ starts_with is_space "Jane Roe" = false
    ∧ ends_with is_space "Jane Roe" = false.
Proof.
  apply (clean_str_result (Some "  Jane Roe ") "Jane Roe").
  vm_compute. reflexivity.
Defined.

(** X2: [clean_str] returns [None] exactly on [None] and on a text made
    of whitespace only (the empty text included). *)
Theorem clean_str_none_iff_blank v :
  clean_str v = None ↔ v = None ∨ ∃ raw, v = Some raw ∧ all_chars is_space raw = true.
Proof.
  destruct v as [raw|]; simpl; [|by split; [left|]].
  destruct (nonempty (py_strip raw)) eqn:Hne; split.
  - done.
  - intros [?|(raw' & [= <-] & Hall)]; [done|].
    apply strip_with_empty in Hall. unfold py_strip in Hne.
    by rewrite Hall in Hne.
  - intros _. right. exists raw. split; [done|].
    apply strip_with_empty. by apply nonempty_false.
  - done.
Qed.

(** X3: cleaning a cleaned value changes nothing. *)
Theorem clean_str_idempotent v : clean_str (clean_str v) = clean_str v.
Proof.
  destruct v as [raw|]; simpl; [|done].
  destruct (nonempty (py_strip raw)) eqn:Hne; [|done]. simpl.
  unfold py_strip in *. by rewrite strip_with_idempotent, Hne.
Qed.

(* ================================================================== *)
(** ** What extraction returns *)

Section ExtractionResult.
Variable re_search : RegexEngine.
Variable text : string.

Lemma search_patterns_sound pats v :
  search_patterns re_search text pats = Ok (Some v) →
  nonempty v = true
  ∧ ∃ pat m raw, pat ∈ pats ∧ re_search pat text IGNORECASE = Ok (Some m)
                 ∧ m "value" = GroupText raw ∧ v = clean_capture raw.
Proof.
  induction pats as [|pat pats IH]; simpl; [done|].
  destruct (re_search pat text IGNORECASE) as [[m|]|e] eqn:Hm; [| |done].
  - destruct (m "value") as [| |raw] eqn:Hraw; [done|done|].
    destruct (nonempty (clean_capture raw)) eqn:Hne.
    + intros [= <-]. split; [done|]. exists pat, m, raw. split; [left|done].
    + intros Hrest. destruct (IH Hrest) as (Hv & p & m' & raw' & Hin & Hrest').
      split; [done|]. exists p, m', raw'. split; [by right|done].
  - intros Hrest. destruct (IH Hrest) as (Hv & p & m' & raw' & Hin & Hrest').
    split; [done|]. exists p, m', raw'. split; [by right|done].
Qed.

Lemma extract_group_sound cfg : ∀ acc out f v,
  extract_group re_search text cfg acc = Ok out →
  out !! f = Some v →
  acc !! f = Some v
  ∨ ∃ pats, (f, pats) ∈ cfg ∧ search_patterns re_search text pats = Ok (Some v).
Proof.
  induction cfg as [|[f0 pats0] cfg IH]; intros acc out f v Hout Hf; simpl in Hout.
  - injection Hout as <-. by left.
  - destruct (search_patterns re_search text pats0) as [[v0|]|e] eqn:Hs0; [| |done].
    + destruct (IH _ _ _ _ Hout Hf) as [Hacc|(pats & Hin & Hs)].
      * destruct (decide (f0 = f)) as [->|Hne].
        -- rewrite lookup_insert_eq in Hacc. injection Hacc as ->.
           right. exists pats0. split; [left|done].
        -- rewrite lookup_insert_ne in Hacc by done. by left.
      * right. exists pats. split; [by right|done].
    + destruct (IH _ _ _ _ Hout Hf) as [Hacc|(pats & Hin & Hs)]; [by left|].
      right. exists pats. split; [by right|done].
Qed.

Lemma extract_groups_sound cfg : ∀ res fields g out,
  extract_groups re_search text cfg res = Ok fields →
  fields !! g = Some out →
  res !! g = Some out
  ∨ ∃ gcfg, (g, gcfg) ∈ cfg ∧ extract_group re_search text gcfg ∅ = Ok out.
Proof.
  induction cfg as [|[g0 gcfg0] cfg IH]; intros res fields g out Hout Hg; simpl in Hout.
  - injection Hout as <-. by left.
  - destruct (extract_group re_search text gcfg0 ∅) as [out0|e] eqn:Hg0; [|done].
    destruct (IH _ _ _ _ Hout Hg) as [Hres|(gcfg & Hin & Hs)].
    + destruct (decide (g0 = g)) as [->|Hne].
      * rewrite lookup_insert_eq in Hres. injection Hres as ->.
        right. exists gcfg0. split; [left|done].
      * rewrite lookup_insert_ne in Hres by done. by left.
    + right. exists gcfg. split; [by right|done].
Qed.

Lemma extract_groups_keeps_keys cfg : ∀ res fields g,
  extract_groups re_search text cfg res = Ok fields →
  is_Some (res !! g) → is_Some (fields !! g).
Proof.
  induction cfg as [|[g0 gcfg0] cfg IH]; intros res fields g Hout Hg; simpl in Hout.
  - by injection Hout as <-.
  - destruct (extract_group re_search text gcfg0 ∅) as [out0|e]; [|done].
    eapply IH; [exact Hout|].
    destruct (decide (g0 = g)) as [->|Hne].
    + rewrite lookup_insert_eq. by eexists.
    + by rewrite lookup_insert_ne.
Qed.

Lemma search_patterns_all_passed pats :
  Forall (passed_over re_search text) pats →
  search_patterns re_search text pats = Ok None.
Proof.
  intros Hall. rewrite <- (app_nil_r pats).
  by rewrite search_patterns_passed_over.
Qed.

End ExtractionResult.

Lemma clean_capture_ends raw :
  starts_with (λ c, char_in c QUOTE_SEP) (clean_capture raw) = false
  ∧ ends_with (λ c, char_in c QUOTE_SEP) (clean_capture raw) = false.
Proof. apply strip_with_ends. Qed.

(** X4: when extraction returns, the result has an entry for the person
    and for the organization group, and every value it holds is the
    cleaned capture of a pattern listed for that field that matched the
    text: it is not empty and has no quote, comma, semicolon or space at
    either end. *)
Theorem extract_fields_sound rules re_search text fields :
  extract_fields rules re_search text = Ok fields →
  is_Some (fields !! "person") ∧ is_Some (fields !! "organization")
  ∧ ∀ g out f v,
      fields !! g = Some out → out !! f = Some v →
      nonempty v = true
      ∧ starts_with (λ c, char_in c QUOTE_SEP) v = false
      ∧ ends_with (λ c, char_in c QUOTE_SEP) v = false
      ∧ ∃ cfg pats pat m raw,
          (g, cfg) ∈ FIELD_PATTERNS rules ∧ (f, pats) ∈ cfg ∧ pat ∈ pats
          ∧ re_search pat text IGNORECASE = Ok (Some m)
          ∧ m "value" = GroupText raw ∧ v = clean_capture raw.
Proof.
  unfold extract_fields. intros Hfields. split; [|split].
  - eapply extract_groups_keeps_keys; [exact Hfields|].
    rewrite lookup_insert_eq. by eexists.
  - eapply extract_groups_keeps_keys; [exact Hfields|].
    rewrite lookup_insert_ne, lookup_insert_eq by done. by eexists.
  - intros g out f v Hg Hf.
    destruct (extract_groups_sound _ _ _ _ _ _ _ Hfields Hg) as [Hres|(cfg & Hcfg & Hout)].
    { destruct (decide ("person" = g)) as [<-|Hp].
      - rewrite lookup_insert_eq in Hres. injection Hres as <-.
        by rewrite lookup_empty in Hf.
      - rewrite lookup_insert_ne in Hres by done.
        destruct (decide ("organization" = g)) as [<-|Ho].
        + rewrite lookup_insert_eq in Hres. injection Hres as <-.
          by rewrite lookup_empty in Hf.
        + by rewrite lookup_insert_ne, lookup_empty in Hres. }
    destruct (extract_group_sound _ _ _ _ _ _ _ Hout Hf) as [Hacc|(pats & Hpats & Hs)].
    { by rewrite lookup_empty in Hacc. }
    destruct (search_patterns_sound _ _ _ _ Hs) as (Hne & pat & m & raw & Hin & Hm & Hraw & ->).
    destruct (clean_capture_ends raw) as [Hstart Hend].
    do 3 (split; [done|]). by exists cfg, pats, pat, m, raw.
Qed.

Lemma extract_fields_sound_witness :
  is_Some ((<["person" := {["name" := "Ann"]}]> (<["organization" := ∅]> ∅)
              : gmap string (gmap string string)) !! "organization").
Proof.
  destruct (extract_fields_sound alias_rules mini_search both_names_text
              (<["person" := {["name" := "Ann"]}]> (<["organization" := ∅]> ∅)))
    as (_ & Horg & _).
  - vm_compute. reflexivity.
  - exact Horg.
Defined.

(** X5: a pattern the loop reaches that matches the text while its group
    [value] took no part in the match makes [extract_fields] raise
    [AttributeError]: the capture is [None] and has no [strip]. *)
Theorem unmatched_value_group_raises
    rules re_search text gpre g fpre f pre pat post fpost gpost m :
  FIELD_PATTERNS rules
  = gpre ++ (g, fpre ++ (f, pre ++ pat :: post) :: fpost) :: gpost →
  Forall (λ gc, ∃ out, extract_group re_search text gc.2 ∅ = Ok out) gpre →
  Forall (λ fp, ∃ v, search_patterns re_search text fp.2 = Ok v) fpre →
  Forall (passed_over re_search text) pre →
  re_search pat text IGNORECASE = Ok (Some m) →
  m "value" = GroupNone →
  extract_fields rules re_search text = Raise AttributeError.
Proof.
  intros Hcfg Hgpre Hfpre Hpre Hm Hgroup.
  unfold extract_fields. rewrite Hcfg.
  apply extract_groups_raise; [done|].
  apply extract_group_raise; [done|].
  rewrite search_patterns_passed_over by done. simpl. by rewrite Hm, Hgroup.
Qed.

Lemma unmatched_value_group_raises_witness :
  extract_fields optional_rules optional_search "NAME:; DOB: 1980-01-01"
  = Raise AttributeError.
Proof.
  apply (unmatched_value_group_raises optional_rules optional_search
           "NAME:; DOB: 1980-01-01"
           [] "person" [] "name" [] "NAME:(?P<value>[^;]+)?" [] [] []
           (λ name, if String.eqb name "value" then GroupNone else NoSuchGroup)).
  - reflexivity.
  - constructor.
  - constructor.
  - constructor.
  - vm_compute. reflexivity.
  - reflexivity.
Defined.

(** X22: a pattern the loop reaches on which [re.search] raises (as it
    does with [re.error] on a pattern that does not compile) makes
    [extract_fields] raise that exception: the loop has no handler, and
    the values found before it are lost with the result. *)
Theorem search_error_raises
    rules re_search text gpre g fpre f pre pat post fpost gpost e :
  FIELD_PATTERNS rules
  = gpre ++ (g, fpre ++ (f, pre ++ pat :: post) :: fpost) :: gpost →
  Forall (λ gc, ∃ out, extract_group re_search text gc.2 ∅ = Ok out) gpre →
  Forall (λ fp, ∃ v, search_patterns re_search text fp.2 = Ok v) fpre →
  Forall (passed_over re_search text) pre →
  re_search pat text IGNORECASE = Raise e →
  extract_fields rules re_search text = Raise e.
Proof.
  intros Hcfg Hgpre Hfpre Hpre Hm.
  unfold extract_fields. rewrite Hcfg.
  apply extract_groups_raise; [done|].
  apply extract_group_raise; [done|].
  rewrite search_patterns_passed_over by done. simpl. by rewrite Hm.
Qed.

Lemma search_error_raises_witness :
  extract_fields unclosed_rules mini_search "NAME: Bob; DOB: 1980-01-01"
  = Raise ReError.
Proof.
  apply (search_error_raises unclosed_rules mini_search
           "NAME: Bob; DOB: 1980-01-01"
           [] "person" [ ("name", [ "NAME:(?P<value>[^;]+)" ]) ] "dob" []
           "DOB:(" [] [] []).
  - reflexivity.
  - constructor.
  - constructor; [|constructor]. exists (Some "Bob"). vm_compute. reflexivity.
  - constructor.
  - vm_compute. reflexivity.
Defined.

(** X6: a field all of whose patterns are passed over is absent from its
    group's result, and the group itself is still there. *)
Theorem passed_over_field_absent rules re_search text g cfg f pats fields :
  NoDup (FIELD_PATTERNS rules).*1 →
  (g, cfg) ∈ FIELD_PATTERNS rules →
  NoDup cfg.*1 →
  (f, pats) ∈ cfg →
  Forall (passed_over re_search text) pats →
  extract_fields rules re_search text = Ok fields →
  ∃ out, fields !! g = Some out ∧ out !! f = None.
Proof.
  intros Hgnd Hg Hfnd Hf Hpats Hfields.
  destruct (extract_groups_lookup _ _ _ _ _ Hfields Hgnd) as [Hin _].
  destruct (Hin g cfg Hg) as (out & Hout & Hlook).
  exists out. split; [done|].
  destruct (extract_group_lookup _ _ _ _ _ Hout Hfnd) as [Hfin _].
  destruct (Hfin f pats Hf) as (v & Hv & Hlookf).
  rewrite search_patterns_all_passed in Hv by done. injection Hv as <-.
  by rewrite Hlookf, lookup_empty.
Qed.

Lemma passed_over_field_absent_witness :
  ∃ out, (<["organization" := ∅]> (<["person" := {["name" := "Jane Roe"]}]> ∅)
            : gmap string (gmap string string)) !! "person" = Some out
         ∧ out !! "dob" = None.
Proof.
  apply (passed_over_field_absent demo_rules mini_search "NAME: Jane Roe"
           "person"
           [ ("name", ["NAME:(?P<value>[^;]+)"]);
             ("dob", ["DOB:(?P<value>[^;]+)"]);
             ("citizenship", ["Citizenship:(?P<value>[^;]+)"]);
             ("departure_location", ["Departure:(?P<value>[^;]+)"]) ]
           "dob" ["DOB:(?P<value>[^;]+)"]).
  - vm_compute. compute_done.
  - left.
  - vm_compute. compute_done.
  - right. left.
  - constructor; [left; vm_compute; reflexivity|constructor].
  - vm_compute. reflexivity.
Defined.

(* ================================================================== *)
(** ** Loading and the rows of a run *)

Lemma elem_of_number_rows_iff sheet : ∀ k i d,
  (i, d) ∈ number_rows k sheet ↔ k ≤ i ∧ sheet !! (i - k) = Some (Some d).
Proof.
  induction sheet as [|c sheet IH]; intros k i d.
  - simpl. split; [by intros ?%elem_of_nil|]. by intros [_ ?].
  - assert (Hrest : (i, d) ∈ number_rows (S k) sheet
                    ↔ S k ≤ i ∧ (c :: sheet) !! (i - k) = Some (Some d)).
    { rewrite IH. split; intros [Hle Hi]; (split; [done|]).
      - by replace (i - k) with (S (i - S k)) by lia.
      - by replace (i - k) with (S (i - S k)) in Hi by lia. }
    destruct c as [d0|]; simpl number_rows.
    + rewrite elem_of_cons, Hrest. split.
      * intros [[= -> ->]|[Hle Hi]]; [|split; [lia|done]].
        split; [done|]. by rewrite Nat.sub_diag.
      * intros [Hle Hi]. destruct (decide (i = k)) as [->|Hne].
        -- left. rewrite Nat.sub_diag in Hi. simpl in Hi. congruence.
        -- right. split; [lia|done].
    + rewrite Hrest. split; intros [Hle Hi]; (split; [|done]); [lia|].
      destruct (decide (i = k)) as [->|Hne]; [|lia].
      rewrite Nat.sub_diag in Hi. discriminate Hi.
Qed.

Lemma number_rows_sorted sheet : ∀ k, StronglySorted lt (number_rows k sheet).*1.
Proof.
  induction sheet as [|c sheet IH]; intros k; [constructor|].
  destruct c as [d|]; simpl; [|apply IH].
  constructor; [apply IH|].
  apply Forall_forall. intros i Hi.
  apply list_elem_of_fmap in Hi as ([i' d'] & -> & Hin).
  apply number_rows_ge in Hin. simpl. lia.
Qed.

(** X7: [load_descriptions] returns only for a file that
    [pd.read_excel] reads as a workbook with a column [description], and
    then it returns the rows whose description cell is filled, each under
    the position its row has in the file, in increasing order: dropped
    rows do not renumber the rows after them.  It raises in three cases
    only: [FileNotFoundError] for a missing file, the exception of
    [pd.read_excel] when the read fails, and [ValueError] for a workbook
    without the column. *)
Theorem load_descriptions_keeps_labels file :
  match load_descriptions_file file with
  | inl e =>
      (file = Missing ∧ e = FileNotFoundError)
      ∨ file = Unreadable e
      ∨ (∃ wb, file = Readable wb ∧ column "description" wb = None
               ∧ e = ValueError)
  | inr rows =>
      ∃ wb cells,
        file = Readable wb ∧ column "description" wb = Some cells
        ∧ (∀ i d, (i, d) ∈ rows ↔ cells !! i = Some (Some d))
        ∧ StronglySorted lt rows.*1
  end.
Proof.
  destruct file as [|e|wb]; simpl; [by left|by right; left|].
  destruct (column "description" wb) as [cells|] eqn:Hcol;
    [|right; right; by exists wb].
  exists wb, cells. split; [done|]. split; [done|]. split.
  - intros i d. unfold load_descriptions.
    rewrite elem_of_number_rows_iff, Nat.sub_0_r. split; [by intros [_ ?]|].
    intros ?. split; [lia|done].
  - apply number_rows_sorted.
Qed.

Lemma process_rows_app rules re df1 df2 g :
  process_rows rules re (df1 ++ df2) g
  = match process_rows rules re df1 g with
    | (g1, None) => process_rows rules re df2 g1
    | (g1, Some e) => (g1, Some e)
    end.
Proof.
  revert g. induction df1 as [|[idx cell] df1 IH]; intros g; simpl; [done|].
  destruct (process_row rules re idx cell g) as [g1 [e|]]; [done|]. apply IH.
Qed.

(** X8: when extraction raises on a row, the run ends there with that
    exception whatever rows follow: the row's Record node has been
    written, no entity and no relationship has been written for it, and
    the store is otherwise as the rows before it left it. *)
Theorem extraction_error_aborts_run rules re_search pre idx cell post desc e g g1 :
  process_rows rules re_search pre g = (g1, None) →
  clean_str (Some cell) = Some desc →
  extract_fields rules re_search desc = Raise e →
  let out := process_rows rules re_search (pre ++ (idx, cell) :: post) g in
  out = (upsert_record rules (record_id_of rules idx) (idx + 1) desc g1, Some e)
  ∧ has_record (record_id_of rules idx) out.1
  ∧ entities out.1 = entities g1
  ∧ edges out.1 = edges g1.
Proof.
  intros Hpre Hdesc Hraise out.
  assert (Hout : out = (upsert_record rules (record_id_of rules idx) (idx + 1) desc g1,
                        Some e)).
  { unfold out. rewrite process_rows_app, Hpre. simpl.
    unfold process_row. by rewrite Hdesc, Hraise. }
  rewrite Hout. split; [done|]. split; [apply upsert_record_has|done].
Qed.

Lemma extraction_error_aborts_run_witness :
  let out := process_rows ungrouped_rules mini_search
               [ (0, "DOB: 1980-01-01"); (1, "NAME: Bob"); (2, "NAME: Ann") ]
               empty_graph in
  out.2 = Some IndexError
  ∧ has_record "DESC_2" out.1
  ∧ entities out.1 = []
  ∧ length (records out.1) = 2.
Proof.
  destruct (extraction_error_aborts_run ungrouped_rules mini_search
              [ (0, "DOB: 1980-01-01") ] 1 "NAME: Bob" [ (2, "NAME: Ann") ]
              "NAME: Bob" IndexError empty_graph
              (process_rows ungrouped_rules mini_search [ (0, "DOB: 1980-01-01") ]
                 empty_graph).1)
    as (Hout & Hrec & Hent & _).
  - vm_compute. reflexivity.
  - vm_compute. reflexivity.
  - vm_compute. reflexivity.
  - simpl app in *. split; [by rewrite Hout|]. split; [exact Hrec|].
    split; [rewrite Hent|rewrite Hout]; vm_compute; reflexivity.
Defined.

Section RunRecords.
Variable rules : RuleSet.
Variable re_search : RegexEngine.

Lemma exec_records_frame s g :
  is_record_stmt s = false → records (exec rules g s) = records g.
Proof. by destruct s. Qed.

Lemma run_records_frame ss : ∀ g,
  (∀ s, s ∈ ss → is_record_stmt s = false) →
  records (foldl (exec rules) g ss) = records g.
Proof.
  induction ss as [|s ss IH]; intros g Hall; simpl; [done|].
  rewrite IH by (intros s' Hs'; apply Hall; by right).
  apply exec_records_frame, Hall. left.
Qed.

Lemma bind_fields_records rid pfs ofs g :
  records (bind_fields rules rid pfs ofs g) = records g.
Proof.
  rewrite <- exec_bind_stmts. apply run_records_frame.
  intros s. apply bind_stmts_no_record.
Qed.

Lemma upsert_record_fresh rid row desc g k :
  (∀ r, r ∈ records g → ∃ j, j < k ∧ record_id r = record_id_of rules j) →
  rid = record_id_of rules k →
  records (upsert_record rules rid row desc g)
  = records g ++ [ {| record_id := rid; description := desc; row_index := row;
                      source_file := SOURCE_NAME rules;
                      rec_created_at := clock g; rec_updated_at := clock g |} ].
Proof.
  intros Hold ->. apply upsert_record_on_create.
  intros r Hr Hid. destruct (Hold r Hr) as (j & Hj & Hrj).
  rewrite Hrj in Hid. apply record_id_of_inj in Hid. lia.
Qed.

Lemma described_rows_cons i c df :
  described_rows ((i, c) :: df)
  = match clean_str (Some c) with
    | Some d => (i, d) :: described_rows df
    | None => described_rows df
    end.
Proof.
  unfold described_rows. change (omap ?f ((i, c) :: df))
    with (match f (i, c) with Some y => y :: omap f df | None => omap f df end).
  cbn [fst snd]. by destruct (clean_str (Some c)).
Qed.

Lemma process_rows_records sheet : ∀ k g g',
  (∀ r, r ∈ records g → ∃ j, j < k ∧ record_id r = record_id_of rules j) →
  process_rows rules re_search (number_rows k sheet) g = (g', None) →
  record_fields <$> records g'
  = (record_fields <$> records g)
    ++ ((λ row, (record_id_of rules row.1, row.1 + 1, row.2, SOURCE_NAME rules))
          <$> described_rows (number_rows k sheet)).
Proof.
  induction sheet as [|c sheet IH]; intros k g g' Hold Hrun.
  - simpl in *. injection Hrun as <-. by rewrite app_nil_r.
  - assert (Hweak : ∀ g0, (∀ r, r ∈ records g0 →
                             ∃ j, j < k ∧ record_id r = record_id_of rules j) →
                          ∀ r, r ∈ records g0 →
                             ∃ j, j < S k ∧ record_id r = record_id_of rules j).
    { intros g0 H0 r Hr. destruct (H0 r Hr) as (j & Hj & Hid). exists j. split; [lia|done]. }
    destruct c as [cell|]; simpl number_rows in *; [|by apply IH; [apply Hweak|]].
    simpl in Hrun. rewrite described_rows_cons.
    destruct (process_row rules re_search k cell g) as [g1 [e|]] eqn:Hrow; [done|].
    unfold process_row in Hrow.
    destruct (clean_str (Some cell)) as [desc|] eqn:Hdesc.
    + destruct (extract_fields rules re_search desc) as [fields|e]; [|done].
      injection Hrow as <-.
      set (g0 := upsert_record rules (record_id_of rules k) (k + 1) desc g) in *.
      assert (Hrec : records g0 = records g ++
                [ {| record_id := record_id_of rules k; description := desc;
                     row_index := k + 1; source_file := SOURCE_NAME rules;
                     rec_created_at := clock g; rec_updated_at := clock g |} ])
        by (by apply (upsert_record_fresh _ _ _ _ k)).
      erewrite (IH (S k) _ g'); [| |exact Hrun].
      * rewrite bind_fields_records, Hrec, fmap_app, <- app_assoc. done.
      * intros r Hr. rewrite bind_fields_records, Hrec in Hr.
        apply elem_of_app in Hr as [Hr|Hr].
        -- by apply (Hweak g).
        -- apply list_elem_of_singleton in Hr as ->.
           exists k. split; [lia|done].
    + injection Hrow as <-. apply (IH (S k)); [by apply Hweak|done].
Qed.

End RunRecords.

(** X9: after a run from the empty store that went through the sheet,
    the Record nodes are, in order, the rows with a description that is
    not blank: the node of the row at position [i] has the identifier
    made of the prefix and [i + 1], row index [i + 1], the cleaned
    description and the source file name. *)
Theorem records_follow_rows rules re_search sheet g :
  main rules re_search sheet empty_graph = (g, None) →
  record_fields <$> records g
  = (λ row, (record_id_of rules row.1, row.1 + 1, row.2, SOURCE_NAME rules))
      <$> described_rows (load_descriptions sheet).
Proof.
  intros Hmain.
  apply (process_rows_records rules re_search sheet 0 empty_graph g); [|done].
  intros r Hr. by apply elem_of_nil in Hr.
Qed.

Lemma records_follow_rows_witness :
  record_fields <$> records (main demo_rules mini_search john_sheet empty_graph).1
  = [ ("DESC_1", 1, "NAME: John Doe; DOB: 1980-01-01", "descriptions_only.xlsx");
      ("DESC_3", 3, "Name:  John Doe ; Citizenship: USA", "descriptions_only.xlsx") ].
Proof.
  rewrite (records_follow_rows demo_rules mini_search john_sheet
             (main demo_rules mini_search john_sheet empty_graph).1).
  - vm_compute. reflexivity.
  - vm_compute. reflexivity.
Defined.

(** X10: a description in which no pattern of the rules matches yields
    its Record upsert and nothing else: no entity and no relationship
    statement runs, and no exception is raised. *)
Theorem unmatched_description_only_record rules re_search idx cell desc g :
  clean_str (Some cell) = Some desc →
  (∀ grp cfg f pats pat,
     (grp, cfg) ∈ FIELD_PATTERNS rules → (f, pats) ∈ cfg → pat ∈ pats →
     re_search pat desc IGNORECASE = Ok None) →
  process_row rules re_search idx cell g
  = (upsert_record rules (record_id_of rules idx) (idx + 1) desc g, None).
Proof.
  intros Hdesc Hmiss. unfold process_row. rewrite Hdesc.
  assert (Hgroup : ∀ cfg acc,
            (∀ f pats pat, (f, pats) ∈ cfg → pat ∈ pats →
                           re_search pat desc IGNORECASE = Ok None) →
            extract_group re_search desc cfg acc = Ok acc).
  { induction cfg as [|[f0 pats0] cfg IH]; intros acc Hcfg; simpl; [done|].
    rewrite search_patterns_all_passed.
    - apply IH. intros f pats pat Hin. apply (Hcfg f). by right.
    - apply Forall_forall. intros pat Hpat. left.
      apply (Hcfg f0 pats0 pat); [left|done]. }
  assert (Hgroups : ∀ cfg res,
            (∀ grp gcfg, (grp, gcfg) ∈ cfg → (grp, gcfg) ∈ FIELD_PATTERNS rules) →
            (∀ k v, res !! k = Some v → v = ∅) →
            ∃ fields, extract_groups re_search desc cfg res = Ok fields
                      ∧ ∀ k v, fields !! k = Some v → v = ∅).
  { induction cfg as [|[g0 gcfg0] cfg IH]; intros res Hsub Hres; simpl; [by exists res|].
    rewrite Hgroup.
    - apply IH; [intros grp gcfg Hin; apply Hsub; by right|].
      intros k v. destruct (decide (g0 = k)) as [->|Hne].
      + rewrite lookup_insert_eq. by intros [= <-].
      + rewrite lookup_insert_ne by done. apply Hres.
    - intros f pats pat Hf Hpat.
      apply (Hmiss g0 gcfg0 f pats pat); [apply Hsub; left|done|done]. }
  destruct (Hgroups (FIELD_PATTERNS rules)
              (<["person" := ∅]> (<["organization" := ∅]> ∅)))
    as (fields & Hfields & Hempty); [done| |].
  { intros k v. destruct (decide ("person" = k)) as [<-|Hp].
    - rewrite lookup_insert_eq. by intros [= <-].
    - rewrite lookup_insert_ne by done.
      destruct (decide ("organization" = k)) as [<-|Ho].
      + rewrite lookup_insert_eq. by intros [= <-].
      + by rewrite lookup_insert_ne, lookup_empty. }
  unfold extract_fields. rewrite Hfields. f_equal.
  assert (Hdef : ∀ k, default (∅ : gmap string string) (fields !! k) = ∅).
  { intros k. destruct (fields !! k) as [v|] eqn:Hk; [|done]. simpl. by eapply Hempty. }
  rewrite !Hdef. rewrite bind_fields_unresolved by (by rewrite lookup_empty).
  by rewrite upsert_organization_empty.
Qed.

Lemma unmatched_description_only_record_witness :
  process_row ungrouped_rules mini_search 4 " DOB: 1980-01-01 " jane_graph
  = (upsert_record ungrouped_rules "DESC_5" 5 "DOB: 1980-01-01" jane_graph, None).
Proof.
  apply (unmatched_description_only_record ungrouped_rules mini_search 4
           " DOB: 1980-01-01 " "DOB: 1980-01-01" jane_graph).
  - vm_compute. reflexivity.
  - intros grp cfg f pats pat Hg Hf Hpat.
    apply list_elem_of_singleton in Hg. injection Hg as -> ->.
    apply list_elem_of_singleton in Hf. injection Hf as -> ->.
    apply list_elem_of_singleton in Hpat. subst pat.
    vm_compute. reflexivity.
Defined.

(* ================================================================== *)
(** ** The constraints of the schema hold in every reachable store *)

Lemma is_edge_key s t d e : is_edge s t d e = true ↔ edge_key e = (s, t, d).
Proof.
  unfold is_edge, edge_key. rewrite bool_decide_eq_true. split.
  - by intros (-> & -> & ->).
  - by intros [= -> -> ->].
Qed.

Lemma foldl_stamped_NoDup now t rows : ∀ es,
  NoDup (edge_key <$> es) →
  NoDup (edge_key <$> foldl (merge_stamped_edge now t) es rows).
Proof.
  induction rows as [|row rows IH]; intros es Hnd; simpl; [done|].
  apply IH. unfold merge_stamped_edge.
  apply (merge_NoDup_key edge_key (EntityRef row.1, t, EntityRef row.2)); try done.
  intros e. apply is_edge_key.
Qed.

Lemma foldl_describes_NoDup rows : ∀ es,
  NoDup (edge_key <$> es) → NoDup (edge_key <$> foldl merge_describes es rows).
Proof.
  induction rows as [|row rows IH]; intros es Hnd; simpl; [done|].
  apply IH. unfold merge_describes.
  apply (merge_NoDup_key edge_key (RecordRef row.1, "DESCRIBES", EntityRef row.2));
    try done.
  intros e. apply is_edge_key.
Qed.

(** X11: in every reachable store no two Record nodes share a
    [record_id]: the record upsert never breaks the uniqueness constraint
    declared on it. *)
Theorem record_ids_unique rules g :
  reachable rules g → NoDup (record_id <$> records g).
Proof.
  induction 1 as [|rid row desc g _ IH|fields g _ IH|fields g _ IH|name g _ IH
                  |rid pn g _ IH|pn onm g _ IH|pn loc t g _ IH]; simpl; try done.
  - apply NoDup_nil_2.
  - apply (merge_NoDup_key record_id rid); try done.
    intros r. unfold is_record. by rewrite bool_decide_eq_true.
  - unfold upsert_person. by destruct (clean_str _).
  - unfold upsert_organization. by destruct (clean_str _).
  - unfold upsert_location. by destruct (nonempty name).
Qed.

Lemma record_ids_unique_witness : NoDup (record_id <$> records jane_graph).
Proof.
  apply (record_ids_unique demo_rules jane_graph).
  apply (reachable_process_rows demo_rules mini_search
           (load_descriptions jane_sheet) empty_graph).
  apply reach_empty.
Defined.

(** X12: in every reachable store there is at most one relationship of a
    given type between a given ordered pair of nodes. *)
Theorem relationships_unique rules g :
  reachable rules g → NoDup (edge_key <$> edges g).
Proof.
  induction 1 as [|rid row desc g _ IH|fields g _ IH|fields g _ IH|name g _ IH
                  |rid pn g _ IH|pn onm g _ IH|pn loc t g _ IH]; simpl; try done.
  - apply NoDup_nil_2.
  - unfold upsert_person. by destruct (clean_str _).
  - unfold upsert_organization. by destruct (clean_str _).
  - unfold upsert_location. by destruct (nonempty name).
  - by apply foldl_describes_NoDup.
  - by apply foldl_stamped_NoDup.
  - by apply foldl_stamped_NoDup.
Qed.

Lemma relationships_unique_witness :
  NoDup (edge_key <$> edges
           (main demo_rules mini_search (jane_sheet ++ jane_sheet) empty_graph).1).
Proof.
  apply (relationships_unique demo_rules).
  apply (reachable_process_rows demo_rules mini_search
           (load_descriptions (jane_sheet ++ jane_sheet)) empty_graph).
  apply reach_empty.
Defined.

(* ================================================================== *)
(** ** Relationships of a reachable store *)





(* ================================================================== *)
(** ** Nodes of a reachable store *)

Lemma merge_entity_stamps l name attrs params g :
  (∀ e, e ∈ entities g → created_at e ≤ updated_at e ∧ updated_at e < clock g) →
  ∀ e, e ∈ entities (merge_entity l name attrs params g) →
       created_at e ≤ updated_at e ∧ updated_at e < S (clock g).
Proof.
  intros Hinv e He. apply list_elem_of_lookup in He as [i Hi]. simpl in Hi.
  apply merge_lookup_inv in Hi as [(x & Hx & ->)|(_ & _ & ->)]; [|simpl; lia].
  apply list_elem_of_lookup_2, Hinv in Hx.
  destruct (is_entity l name x); simpl; lia.
Qed.

(** X14: in every reachable store a node was created no later than it
    was last updated, and last updated before the store's current
    instant; this holds for Record nodes and for entity nodes. *)
Theorem node_stamps_ordered rules g :
  reachable rules g →
  (∀ r, r ∈ records g →
        rec_created_at r ≤ rec_updated_at r ∧ rec_updated_at r < clock g)
  ∧ (∀ e, e ∈ entities g → created_at e ≤ updated_at e ∧ updated_at e < clock g).
Proof.
  induction 1 as [|rid row desc g _ [IHr IHe]|fields g _ [IHr IHe]
                  |fields g _ [IHr IHe]|name g _ [IHr IHe]
                  |rid pn g _ [IHr IHe]|pn onm g _ [IHr IHe]|pn loc t g _ [IHr IHe]].
  - split; intros x Hx; by apply elem_of_nil in Hx.
  - split.
    + intros r Hr. apply list_elem_of_lookup in Hr as [i Hi]. simpl in Hi.
      apply merge_lookup_inv in Hi as [(x & Hx & ->)|(_ & _ & ->)]; [|simpl; lia].
      apply list_elem_of_lookup_2, IHr in Hx.
      destruct (is_record rid x); simpl; lia.
    + intros e He. simpl in *. apply IHe in He. lia.
  - unfold upsert_person. destruct (clean_str _); [|done]. split.
    + intros r Hr. simpl in *. apply IHr in Hr. lia.
    + by apply merge_entity_stamps.
  - unfold upsert_organization. destruct (clean_str _); [|done]. split.
    + intros r Hr. simpl in *. apply IHr in Hr. lia.
    + by apply merge_entity_stamps.
  - unfold upsert_location. destruct (nonempty _); [|done]. split.
    + intros r Hr. simpl in *. apply IHr in Hr. lia.
    + by apply merge_entity_stamps.
  - split; intros x Hx; simpl in *; [apply IHr in Hx|apply IHe in Hx]; lia.
  - split; intros x Hx; simpl in *; [apply IHr in Hx|apply IHe in Hx]; lia.
  - split; intros x Hx; simpl in *; [apply IHr in Hx|apply IHe in Hx]; lia.
Qed.

Lemma node_stamps_ordered_witness :
  Forall (λ e, created_at e ≤ updated_at e ∧ updated_at e < 5)
    (entities jane_graph).
Proof.
  apply Forall_forall.
  apply (node_stamps_ordered demo_rules jane_graph).
  apply (reachable_process_rows demo_rules mini_search
           (load_descriptions jane_sheet) empty_graph).
  apply reach_empty.
Defined.

Lemma create_props_name name attrs params :
  "name" ∉ attrs → create_props name attrs params !! "name" = Some name.
Proof.
  intros Hnot. unfold create_props.
  rewrite set_prop_lookup, decide_False by done.
  rewrite foldl_set_prop_lookup, decide_False by done.
  by rewrite set_prop_lookup, decide_True.
Qed.

Lemma create_props_source name attrs params :
  create_props name attrs params !! "source" = Some STRUCTURED_TEXT.
Proof. unfold create_props. by rewrite set_prop_lookup, decide_True. Qed.

Lemma create_props_attr name attrs params a :
  a ∈ attrs → a ≠ "source" → create_props name attrs params !! a = params a.
Proof.
  intros Hin Hne. unfold create_props.
  rewrite set_prop_lookup, decide_False by done.
  by rewrite foldl_set_prop_lookup, decide_True.
Qed.

Lemma merge_entity_identified l name attrs params g :
  "name" ∉ attrs →
  nonempty name = true →
  (l ≠ Location →
   starts_with is_space name = false ∧ ends_with is_space name = false) →
  (∀ e, e ∈ entities g → entity_identified e) →
  ∀ e, e ∈ entities (merge_entity l name attrs params g) → entity_identified e.
Proof.
  intros Hattrs Hne Htrim Hinv e He.
  apply list_elem_of_lookup in He as [i Hi]. simpl in Hi.
  apply merge_lookup_inv in Hi as [(x & Hx & ->)|(_ & _ & ->)].
  - apply list_elem_of_lookup_2, Hinv in Hx.
    destruct (is_entity l name x); [|done].
    destruct Hx as (Hn & Hs & Hrest). split; [|split; [|done]]; simpl.
    + by apply coalesce_keeps.
    + by apply coalesce_keeps.
  - split; [|split; [|split]]; simpl; [|apply create_props_source|done|done].
    by apply create_props_name.
Qed.

Lemma clean_str_trimmed v s :
  clean_str v = Some s →
  nonempty s = true
  ∧ starts_with is_space s = false ∧ ends_with is_space s = false.
Proof.
  destruct v as [raw|]; simpl; [|done].
  destruct (nonempty (py_strip raw)) eqn:Hne; [|done]. intros [= <-].
  split; [done|]. apply strip_with_ends.
Qed.

(** X15: every entity node of a reachable store has its canonical text
    as [name] property and the provenance tag as [source]; its canonical
    text is never empty, and that of a Person or an Organization has no
    whitespace at either end. *)
Theorem entities_identified rules g :
  reachable rules g → ∀ e, e ∈ entities g → entity_identified e.
Proof.
  induction 1 as [|rid row desc g _ IH|fields g _ IH|fields g _ IH|name g _ IH
                  |rid pn g _ IH|pn onm g _ IH|pn loc t g _ IH]; try done.
  - intros e He. by apply elem_of_nil in He.
  - unfold upsert_person. destruct (clean_str _) as [name|] eqn:Hname; [|done].
    destruct (clean_str_trimmed _ _ Hname) as [Hne Htrim].
    apply merge_entity_identified; [compute_done|done|done|done].
  - unfold upsert_organization. destruct (clean_str _) as [name|] eqn:Hname; [|done].
    destruct (clean_str_trimmed _ _ Hname) as [Hne Htrim].
    apply merge_entity_identified; [compute_done|done|done|done].
  - unfold upsert_location. destruct (nonempty name) eqn:Hne; [|done].
    apply merge_entity_identified; [apply not_elem_of_nil|done|done|done].
Qed.

Lemma entities_identified_witness :
  Forall entity_identified (entities jane_graph).
Proof.
  apply Forall_forall.
  apply (entities_identified demo_rules jane_graph).
  apply (reachable_process_rows demo_rules mini_search
           (load_descriptions jane_sheet) empty_graph).
  apply reach_empty.
Defined.

(* ================================================================== *)
(** ** Person upserts across records *)

Lemma no_entity_existsb l name g :
  ¬ has_entity l name g → existsb (is_entity l name) (entities g) = false.
Proof.
  intros Hno. destruct (existsb _ _) eqn:Hex; [|done].
  apply existsb_true_some in Hex as (e & Hin & He).
  apply list_elem_of_lookup in Hin as [i Hi].
  apply bool_decide_eq_true in He as [? ?]. destruct Hno. by exists i, e.
Qed.

(** X16: when a person is first upserted from one record's fields and
    then again from another record's fields, the node created by the
    first upsert holds, for each listed attribute, the first record's
    cleaned value when it has one and otherwise the second record's; it
    was created at the first statement and updated at the second, and
    the two upserts add that one node. *)
Theorem later_record_fills_gaps fields1 fields2 name g a :
  clean_str (fields1 !! "name") = Some name →
  clean_str (fields2 !! "name") = Some name →
  ¬ has_entity Person name g →
  a ∈ PERSON_ATTRS →
  let g2 := (upsert_person fields2 (upsert_person fields1 g).1).1 in
  length (entities g2) = S (length (entities g))
  ∧ ∃ e, entities g2 !! length (entities g) = Some e
         ∧ label e = Person ∧ canonical_text e = name
         ∧ props e !! a
           = coalesce (clean_str (fields1 !! a)) (clean_str (fields2 !! a))
         ∧ created_at e = clock g ∧ updated_at e = S (clock g).
Proof.
  intros H1 H2 Hno Ha g2.
  set (g1 := merge_entity Person name PERSON_ATTRS (field_param fields1) g).
  set (e1 := {| label := Person; canonical_text := name;
                props := create_props name PERSON_ATTRS (field_param fields1);
                created_at := clock g; updated_at := clock g |}).
  assert (Hg1 : entities g1 = entities g ++ [e1]).
  { unfold g1, merge_entity; simpl. by rewrite merge_created by (by apply no_entity_existsb). }
  assert (Hat : entities g1 !! length (entities g) = Some e1).
  { by rewrite Hg1, lookup_app_r, Nat.sub_diag by lia. }
  assert (Hg2 : g2 = merge_entity Person name PERSON_ATTRS (field_param fields2) g1).
  { unfold g2, upsert_person. by rewrite H1, H2. }
  destruct (merge_entity_on_match Person name PERSON_ATTRS (field_param fields2)
              g1 (length (entities g)) e1 Hat eq_refl eq_refl) as [He2 Hlen].
  assert (Hsrc : a ≠ "source").
  { intros ->. revert Ha. compute_done. }
  rewrite Hg2. split.
  - rewrite Hlen, Hg1, length_app. cbn [length]. lia.
  - exists (touch_entity PERSON_ATTRS (field_param fields2) (clock g1) e1).
    split; [exact He2|]. do 2 (split; [reflexivity|]).
    split; [|split; reflexivity].
    unfold touch_entity, e1. cbn [props].
    rewrite coalesce_props_lookup, decide_True by done.
    by rewrite create_props_attr.
Qed.

Lemma later_record_fills_gaps_witness :
  let g2 := (upsert_person
               (list_to_map [ ("name", "John Doe"); ("dob", "1990-05-05");
                              ("citizenship", "USA") ])
               (upsert_person
                  (list_to_map [ ("name", "John Doe"); ("dob", "1980-01-01") ])
                  jane_graph).1).1 in
  ∃ e, entities g2 !! 2 = Some e
       ∧ props e !! "dob" = Some "1980-01-01"
       ∧ props e !! "citizenship" = Some "USA".
Proof.
  intros g2.
  assert (Hno : ¬ has_entity Person "John Doe" jane_graph).
  { intros (i & e & Hi & Hl & Hn).
    destruct i as [|[|i]]; vm_compute in Hi; [| |discriminate Hi];
      injection Hi as <-; discriminate Hn. }
  destruct (later_record_fills_gaps
              (list_to_map [ ("name", "John Doe"); ("dob", "1980-01-01") ])
              (list_to_map [ ("name", "John Doe"); ("dob", "1990-05-05");
                             ("citizenship", "USA") ])
              "John Doe" jane_graph "dob")
    as (_ & e & He & _ & _ & Hdob & _);
    [vm_compute; reflexivity|vm_compute; reflexivity|exact Hno|compute_done|].
  destruct (later_record_fills_gaps
              (list_to_map [ ("name", "John Doe"); ("dob", "1980-01-01") ])
              (list_to_map [ ("name", "John Doe"); ("dob", "1990-05-05");
                             ("citizenship", "USA") ])
              "John Doe" jane_graph "citizenship")
    as (_ & e' & He' & _ & _ & Hcit & _);
    [vm_compute; reflexivity|vm_compute; reflexivity|exact Hno|compute_done|].
  assert (e' = e) as -> by congruence.
  exists e. split; [exact He|]. split; [rewrite Hdob|rewrite Hcit]; vm_compute; reflexivity.
Defined.

(* ================================================================== *)
(** ** Fields the statements do not list *)

Lemma merge_ext {A} (m : A → bool) c f f' (l : list A) :
  (∀ x, f x = f' x) → merge m c f l = merge m c f' l.
Proof.
  intros Hf. unfold merge. destruct (existsb m l); [|done].
  apply list_fmap_ext. intros i x _. by rewrite Hf.
Qed.

Lemma create_props_ext name attrs params params' :
  (∀ a, a ∈ attrs → params a = params' a) →
  create_props name attrs params = create_props name attrs params'.
Proof.
  intros Hp. unfold create_props. f_equal.
  generalize (set_prop "name" (Some name) ∅).
  induction attrs as [|x attrs IH]; intros pr; [done|]. cbn [foldl].
  rewrite (Hp x) by left. apply IH. intros a Ha. apply Hp. by right.
Qed.

Lemma coalesce_props_ext attrs params params' pr :
  (∀ a, a ∈ attrs → params a = params' a) →
  coalesce_props attrs params pr = coalesce_props attrs params' pr.
Proof.
  intros Hp. apply map_eq. intros a. rewrite !coalesce_props_lookup.
  case_decide as Hin; [|done]. by rewrite Hp.
Qed.

Lemma merge_entity_ext l name attrs params params' g :
  (∀ a, a ∈ attrs → params a = params' a) →
  merge_entity l name attrs params g = merge_entity l name attrs params' g.
Proof.
  intros Hp. unfold merge_entity. f_equal.
  rewrite (create_props_ext name attrs params params') by done.
  apply merge_ext. intros e. unfold touch_entity.
  by rewrite (coalesce_props_ext attrs params params').
Qed.

Lemma field_param_insert_ne k v fields a :
  k ≠ a → field_param (<[k:=v]> fields) a = field_param fields a.
Proof. intros Hne. unfold field_param. by rewrite lookup_insert_ne. Qed.

(** X17: an extracted field that the person statement does not list
    (any key other than [name] and the sixteen listed attributes) has no
    effect on the person upsert, and likewise any organization field
    other than [name] and [address] on the organization upsert: such
    values are never stored. *)
Theorem unlisted_fields_ignored k v fields g :
  (k ∉ "name" :: PERSON_ATTRS →
   upsert_person (<[k:=v]> fields) g = upsert_person fields g)
  ∧ (k ∉ "name" :: ORG_ATTRS →
     upsert_organization (<[k:=v]> fields) g = upsert_organization fields g).
Proof.
  split; intros Hk; apply not_elem_of_cons in Hk as [Hname Hattrs].
  - unfold upsert_person. rewrite lookup_insert_ne by done.
    destruct (clean_str (fields !! "name")) as [name|]; [|done].
    f_equal. apply merge_entity_ext. intros a Ha.
    apply field_param_insert_ne. by intros ->.
  - unfold upsert_organization. rewrite lookup_insert_ne by done.
    destruct (clean_str (fields !! "name")) as [name|]; [|done].
    f_equal. apply merge_entity_ext. intros a Ha.
    apply field_param_insert_ne. by intros ->.
Qed.

Lemma unlisted_fields_ignored_witness :
  upsert_person (<["nationality" := "Canadian"]> jane_again) jane_graph
  = upsert_person jane_again jane_graph.
Proof.
  destruct (unlisted_fields_ignored "nationality" "Canadian" jane_again jane_graph)
    as [Hperson _].
  apply Hperson. compute_done.
Defined.

(* ================================================================== *)
(** ** Relationship statements that find no node *)

Lemma match_ids_none {A} (p : A → bool) (l : list A) :
  existsb p l = false → match_ids p l = [].
Proof.
  intros Hex. apply match_from_none. intros x Hx. by eapply existsb_false_all.
Qed.

Lemma match_rows_nil_r xs : match_rows xs [] = [].
Proof. unfold match_rows. induction xs as [|x xs IH]; [done|]. by rewrite bind_cons, IH. Qed.

Lemma no_record_existsb rid g :
  ¬ has_record rid g → existsb (is_record rid) (records g) = false.
Proof.
  intros Hno. destruct (existsb _ _) eqn:Hex; [|done].
  apply existsb_true_some in Hex as (r & Hin & Hr).
  apply list_elem_of_lookup in Hin as [i Hi].
  apply bool_decide_eq_true in Hr. destruct Hno. by exists i, r.
Qed.

Lemma connect_entities_no_node pn l onm t g :
  ¬ has_entity Person pn g ∨ ¬ has_entity l onm g →
  edges (connect_entities pn l onm t g) = edges g.
Proof.
  intros Hno. unfold connect_entities; simpl.
  destruct Hno as [Hno|Hno]; apply no_entity_existsb, match_ids_none in Hno;
    rewrite Hno; [done|by rewrite match_rows_nil_r].
Qed.

Lemma no_person_after_location pn loc g :
  ¬ has_entity Person pn g → ¬ has_entity Person pn (upsert_location loc g).
Proof.
  intros Hno (i & e & Hi & Hl & Hn). destruct Hno.
  unfold upsert_location in Hi. destruct (nonempty loc); [|by exists i, e].
  apply merge_entity_other_label in Hi; [by exists i, e|]. by rewrite Hl.
Qed.

Lemma connect_locations_no_person pn fields map : ∀ g,
  ¬ has_entity Person pn g →
  edges (foldl (connect_location pn fields) g map) = edges g.
Proof.
  induction map as [|entry map IH]; intros g Hno; simpl; [done|].
  assert (Hstep : edges (connect_location pn fields g entry) = edges g
                  ∧ ¬ has_entity Person pn (connect_location pn fields g entry)).
  { unfold connect_location. destruct (clean_str _) as [loc|]; [|done].
    pose proof (no_person_after_location pn loc g Hno) as Hno'. split.
    - rewrite connect_entities_no_node by (by left).
      unfold upsert_location. by destruct (nonempty loc).
    - intros (i & e & Hi & Hrest). destruct Hno'. by exists i, e. }
  destruct Hstep as [Hedges Hno']. by rewrite IH.
Qed.

(** X18: a relationship statement whose [MATCH] finds no node writes
    nothing: without the Record or without the Person the describes
    statement leaves the relationships as they are, and so does the
    associated-with statement without the Person or the Organization;
    the loop over the location map, run for a person that is not in the
    store, creates no relationship at all. *)
Theorem connect_without_nodes rules :
  (∀ rid pn g,
      ¬ has_record rid g ∨ ¬ has_entity Person pn g →
      edges (connect_record_to_person rid pn g) = edges g)
  ∧ (∀ pn onm g,
      ¬ has_entity Person pn g ∨ ¬ has_entity Organization onm g →
      edges (connect_person_to_org pn onm g) = edges g)
  ∧ (∀ pn fields g,
      ¬ has_entity Person pn g →
      edges (connect_person_to_locations rules pn fields g) = edges g).
Proof.
  split; [|split].
  - intros rid pn g Hno. unfold connect_record_to_person; simpl.
    destruct Hno as [Hno|Hno].
    + apply no_record_existsb, match_ids_none in Hno. by rewrite Hno.
    + apply no_entity_existsb, match_ids_none in Hno.
      by rewrite Hno, match_rows_nil_r.
  - intros pn onm g. apply connect_entities_no_node.
  - intros pn fields g. apply connect_locations_no_person.
Qed.

Lemma connect_without_nodes_witness :
  edges (connect_person_to_org "Jane Roe" "Acme Corp" jane_graph) = edges jane_graph.
Proof.
  destruct (connect_without_nodes demo_rules) as (_ & Horg & _).
  apply Horg. right. intros (i & e & Hi & Hl & Hn).
  destruct i as [|[|i]]; vm_compute in Hi; [| |discriminate Hi];
    injection Hi as <-; discriminate Hl.
Defined.

(* ================================================================== *)
(** ** What a run never rewrites *)

Lemma kept_by_refl g : kept_by g g.
Proof.
  split; [|split].
  - intros i r Hi. by exists r.
  - intros i e Hi. by exists e.
  - intros k e Hk. by exists e.
Qed.

Lemma kept_by_trans g1 g2 g3 : kept_by g1 g2 → kept_by g2 g3 → kept_by g1 g3.
Proof.
  intros (Hr1 & He1 & Hd1) (Hr2 & He2 & Hd2). split; [|split].
  - intros i r Hi. destruct (Hr1 i r Hi) as (r' & Hi' & ? & ? & ? & ?).
    destruct (Hr2 i r' Hi') as (r'' & Hi'' & ? & ? & ? & ?).
    exists r''. split; [done|]. repeat split; congruence.
  - intros i e Hi. destruct (He1 i e Hi) as (e' & Hi' & ? & ? & ? & Hp).
    destruct (He2 i e' Hi') as (e'' & Hi'' & ? & ? & ? & Hp').
    exists e''. split; [done|]. split; [congruence|]. split; [congruence|].
    split; [congruence|by etrans].
  - intros k e Hk. destruct (Hd1 k e Hk) as (e' & Hk' & ? & ? & ? & ? & ?).
    destruct (Hd2 k e' Hk') as (e'' & Hk'' & ? & ? & ? & ? & ?).
    exists e''. split; [done|]. repeat split; congruence.
Qed.

Lemma exec_kept rules g s : kept_by g (exec rules g s).
Proof.
  destruct s as [rid row desc|l name attrs params|rid pn|pn l onm t];
    (split; [|split]); simpl; try (by eauto 10).
  - intros i r Hi. eexists. split; [by apply merge_lookup|].
    by destruct (is_record rid r).
  - intros i e Hi. eexists. split; [by apply merge_lookup|].
    destruct (is_entity l name e); [|done].
    do 3 (split; [done|]). apply coalesce_props_subseteq.
  - intros k e Hk. exists e. split; [by apply foldl_describes_old|done].
  - intros k e Hk. eexists. split; [by apply foldl_stamped_old|].
    by destruct (row_of_stamped _ _ e).
Qed.

Lemma run_kept rules ss : ∀ g, kept_by g (foldl (exec rules) g ss).
Proof.
  induction ss as [|s ss IH]; intros g; simpl; [apply kept_by_refl|].
  eapply kept_by_trans; [apply exec_kept|apply IH].
Qed.

(** X19: a run, whether it goes through the sheet or is ended by an
    exception, removes and renumbers nothing and rewrites neither a
    record's identifier, row index, source file or creation instant, nor
    an entity's label, canonical text, creation instant or any property
    it already has, nor a relationship's ends, type, provenance or
    first-seen instant. *)
Theorem run_keeps_store rules re_search sheet g :
  kept_by g (main rules re_search sheet g).1.
Proof.
  unfold main. rewrite exec_rows_stmts. apply run_kept.
Qed.

(* ================================================================== *)
(** ** The first value offered for an attribute is the one stored *)

Section FirstValue.
Variable rules : RuleSet.
Variables (l : EntityLabel) (name a : string).
Hypothesis Hsource : a ≠ "source".

Lemma exec_holds_value g v s :
  lists_attr l a s →
  holds_value l name a g v →
  holds_value l name a (exec rules g s) (foldl coalesce v (stmt_values l name a s)).
Proof using Hsource.
  intros Hlists [Hnodes Hnone].
  destruct s as [rid row desc|l' name' attrs params|rid pn|pn l' onm t];
    try (split; [exact Hnodes|exact Hnone]).
  cbn [stmt_values exec]. case_decide as Hkey.
  - destruct Hkey as [-> ->]. cbn [foldl].
    assert (Hin : a ∈ attrs) by (by apply Hlists).
    split; [|intros Hno; destruct Hno; apply merge_entity_has].
    intros e He Hl Hn. apply list_elem_of_lookup in He as [i Hi].
    cbn [merge_entity entities] in Hi.
    apply merge_lookup_inv in Hi as [(x & Hx & ->)|(Hex & _ & ->)].
    + destruct (is_entity l name x) eqn:Hm.
      * apply bool_decide_eq_true in Hm as [Hlx Hnx].
        unfold touch_entity. cbn [props].
        rewrite coalesce_props_lookup, decide_True by done.
        rewrite (Hnodes x); [done|by eapply list_elem_of_lookup_2|done|done].
      * apply bool_decide_eq_false in Hm. by destruct Hm.
    + cbn [props]. rewrite create_props_attr by done.
      rewrite Hnone; [done|].
      intros Hhas. by rewrite has_entity_existsb in Hex.
  - cbn [foldl]. split.
    + intros e He Hl Hn. apply list_elem_of_lookup in He as [i Hi].
      cbn [merge_entity entities] in Hi.
      apply merge_lookup_inv in Hi as [(x & Hx & ->)|(_ & _ & ->)].
      * destruct (is_entity l' name' x) eqn:Hm.
        -- apply bool_decide_eq_true in Hm as [Hlx Hnx]. destruct Hkey.
           cbn [touch_entity label canonical_text] in Hl, Hn. split; congruence.
        -- apply Hnodes; [by eapply list_elem_of_lookup_2|done|done].
      * cbn [label canonical_text] in Hl, Hn. destruct Hkey. by split.
    + intros Hno. apply Hnone. intros Hhas. destruct Hno.
      eapply has_entity_extends; [apply merge_entity_extends|done].
Qed.

Lemma run_holds_value ss : ∀ g v,
  Forall (lists_attr l a) ss →
  holds_value l name a g v →
  holds_value l name a (foldl (exec rules) g ss)
    (foldl coalesce v (ss ≫= stmt_values l name a)).
Proof using Hsource.
  induction ss as [|s ss IH]; intros g v Hall Hinv; [done|].
  apply Forall_cons in Hall as [Hs Hall].
  rewrite bind_cons, foldl_app. cbn [foldl].
  apply IH; [done|]. by apply exec_holds_value.
Qed.

End FirstValue.

Section PersonValues.
Variable rules : RuleSet.
Variable re_search : RegexEngine.
Variables (name a : string).
Hypothesis Hattr : a ∈ PERSON_ATTRS.

Lemma entity_stmts_values_other l attrs fields :
  l ≠ Person → entity_stmts l attrs fields ≫= stmt_values Person name a = [].
Proof.
  intros Hl. unfold entity_stmts. destruct (clean_str _); [|done].
  cbn. rewrite decide_False; [done|]. by intros [? _].
Qed.

Lemma location_stmts_values pn pfs map :
  (map ≫= location_stmts pn pfs) ≫= stmt_values Person name a = [].
Proof.
  induction map as [|entry map IH]; [done|].
  rewrite bind_cons, bind_app, IH, app_nil_r.
  unfold location_stmts. destruct (clean_str _); [|done].
  cbn. rewrite decide_False; [done|]. by intros [? _].
Qed.

Lemma bind_stmts_values rid pfs ofs :
  bind_stmts rules rid pfs ofs ≫= stmt_values Person name a
  = if decide (clean_str (pfs !! "name") = Some name)
    then [clean_str (pfs !! a)] else [].
Proof.
  unfold bind_stmts. destruct (clean_str (pfs !! "name")) as [pn|] eqn:Hpn.
  - rewrite bind_cons, bind_app, entity_stmts_values_other by done.
    rewrite bind_cons, bind_app, location_stmts_values.
    assert (Hassoc : (match clean_str (ofs !! "name") with
                      | Some onm => [SConnect pn Organization onm "ASSOCIATED_WITH_ORG"]
                      | None => []
                      end) ≫= stmt_values Person name a = []).
    { by destruct (clean_str (ofs !! "name")). }
    rewrite Hassoc. cbn [stmt_values app]. rewrite app_nil_r.
    destruct (decide (pn = name)) as [->|Hne].
    + by rewrite !decide_True.
    + rewrite !decide_False; [done|congruence|]. by intros [_ ?].
  - rewrite entity_stmts_values_other by done. by rewrite decide_False.
Qed.

Lemma rows_stmts_values df ss :
  rows_stmts rules re_search df = (ss, None) →
  ss ≫= stmt_values Person name a = df ≫= offered_value rules re_search name a.
Proof.
  revert ss. induction df as [|[idx cell] df IH]; intros ss Hss;
    cbn [rows_stmts] in Hss.
  - by injection Hss as <-.
  - rewrite bind_cons. unfold offered_value at 1. cbn [snd].
    unfold row_stmts in Hss.
    destruct (clean_str (Some cell)) as [desc|].
    + destruct (extract_fields rules re_search desc) as [fields|e]; [|done].
      destruct (rows_stmts rules re_search df) as [ss' e'] eqn:Hrest.
      injection Hss as <- ->.
      rewrite bind_cons, bind_app. cbn [stmt_values app].
      by rewrite bind_stmts_values, (IH ss' eq_refl).
    + destruct (rows_stmts rules re_search df) as [ss' e'] eqn:Hrest.
      injection Hss as <- ->. by rewrite (IH ss' eq_refl).
Qed.

Lemma rows_stmts_list_attr df :
  Forall (lists_attr Person a) (rows_stmts rules re_search df).1.
Proof using Hattr.
  assert (Hent : ∀ l attrs fields,
            (l = Person → attrs = PERSON_ATTRS) →
            Forall (lists_attr Person a) (entity_stmts l attrs fields)).
  { intros l attrs fields Hl. unfold entity_stmts. destruct (clean_str _); [|done].
    constructor; [|done]. simpl. intros ->%Hl. done. }
  assert (Hbind : ∀ rid pfs ofs,
            Forall (lists_attr Person a) (bind_stmts rules rid pfs ofs)).
  { intros rid pfs ofs. unfold bind_stmts.
    destruct (clean_str (pfs !! "name")) as [pn|]; [|by apply Hent].
    constructor; [by simpl|]. apply Forall_app. split; [by apply Hent|].
    constructor; [by simpl|]. apply Forall_app. split.
    - apply Forall_forall. intros s (entry & Hs & _)%list_elem_of_bind.
      unfold location_stmts in Hs. destruct (clean_str _); [|by apply elem_of_nil in Hs].
      apply elem_of_cons in Hs as [->|Hs]; [by simpl|].
      by apply list_elem_of_singleton in Hs as ->.
    - destruct (clean_str (ofs !! "name")); repeat constructor. }
  induction df as [|[idx cell] df IH]; cbn [rows_stmts]; [done|].
  unfold row_stmts. destruct (clean_str (Some cell)) as [desc|].
  - destruct (extract_fields rules re_search desc) as [fields|e].
    + destruct (rows_stmts rules re_search df) as [ss' e']. cbn [fst] in *.
      constructor; [by simpl|]. apply Forall_app. split; [apply Hbind|done].
    + by repeat constructor.
  - by destruct (rows_stmts rules re_search df) as [ss' e'].
Qed.

End PersonValues.

(** X20: after a run from the empty store that went through the sheet,
    each listed attribute of a Person node holds the first value that is
    there among the cleaned values the rows naming that person offer for
    it, in row order; it is absent when no such row offers one. *)
Theorem first_offered_value_stored rules re_search sheet g e a :
  main rules re_search sheet empty_graph = (g, None) →
  a ∈ PERSON_ATTRS →
  e ∈ entities g →
  label e = Person →
  props e !! a
  = first_value (load_descriptions sheet
                   ≫= offered_value rules re_search (canonical_text e) a).
Proof.
  intros Hmain Ha He Hl. unfold main in Hmain. rewrite exec_rows_stmts in Hmain.
  destruct (rows_stmts rules re_search (load_descriptions sheet)) as [ss ex] eqn:Hss.
  cbn [fst snd] in Hmain. injection Hmain as <- ->.
  assert (Hsrc : a ≠ "source") by (intros ->; revert Ha; compute_done).
  destruct (run_holds_value rules Person (canonical_text e) a Hsrc ss empty_graph None)
    as [Hnodes _].
  - pose proof (rows_stmts_list_attr rules re_search a Ha (load_descriptions sheet)) as H.
    by rewrite Hss in H.
  - split; [|done]. intros x Hx. by apply elem_of_nil in Hx.
  - rewrite (Hnodes e He Hl eq_refl). unfold first_value.
    by rewrite (rows_stmts_values rules re_search _ a _ ss Hss).
Qed.

Lemma first_offered_value_stored_witness :
  let g := (main demo_rules mini_search offers_sheet empty_graph).1 in
  offers_node ∈ entities g
  ∧ props offers_node !! "dob" = Some "1980-01-01"
  ∧ props offers_node !! "dob"
    = first_value (load_descriptions offers_sheet
                     ≫= offered_value demo_rules mini_search "John Doe" "dob").
Proof.
  intros g.
  assert (Hin : offers_node ∈ entities g).
  { apply list_elem_of_lookup. exists 0. vm_compute. reflexivity. }
  split; [exact Hin|]. split; [vm_compute; reflexivity|].
  apply (first_offered_value_stored demo_rules mini_search offers_sheet g
           offers_node "dob").
  - vm_compute. reflexivity.
  - compute_done.
  - exact Hin.
  - reflexivity.
Defined.

(* ================================================================== *)
(** ** Relationship types of a run *)

Section RelationshipTypes.
Variable rules : RuleSet.
Variable re_search : RegexEngine.




End RelationshipTypes.


